(** * PeopleTracker: a shallow embedding of tracker.py

    The tracking and counting engine of the crowd monitoring system.
    Python integers are [Z], the [tracked_objects] dictionary is an
    insertion-ordered association list, [None]-able attributes are
    [option]s, and the two float products [h * 0.9] and [h * 0.1] are
    computed in IEEE 754 binary64 with the Standard Library's [SpecFloat].
    An exception raised by the computation modelled here is the result
    [None] of [update]. The cv2 drawing calls write pixels of the frame and
    are left out; they can raise on their own (cv2.line on an empty frame,
    cv2.rectangle on a coordinate outside the C int range), so [Some] is
    what [update] leaves and returns when the call returns: the triple
    (in_count, out_count, net_people_total). *)

From Stdlib Require Import ZArith List String Bool Lia.
From Stdlib Require Import Floats.SpecFloat.
From Stdlib Require Import Sorting.Sorted.
From Stdlib Require Import Ascii DecimalString.
Import ListNotations.
Local Open Scope Z_scope.

(** ** Python primitives *)

Module Py.

(** binary64 *)
Definition prec : Z := 53.
Definition emax : Z := 1024.

(** [float(n)] for a Python int, round to nearest even; an int too large
    for a float becomes an infinity here and fails at [int_of_float]. *)
Definition float_of_int (n : Z) : spec_float :=
  binary_normalize prec emax n 0 false.

Definition fmul (x y : spec_float) : spec_float := SFmul prec emax x y.

(** The literals [0.9] = 0x3FECCCCCCCCCCCCD and [0.1] = 0x3FB999999999999A. *)
Definition lit_0_9 : spec_float := S754_finite false 8106479329266893 (-53).
Definition lit_0_1 : spec_float := S754_finite false 7205759403792794 (-56).

(** [int(f)]: truncation towards zero; OverflowError / ValueError on an
    infinity or a NaN. *)
Definition int_of_float (f : spec_float) : option Z :=
  match f with
  | S754_zero _ => Some 0
  | S754_finite s m e =>
      let a := if 0 <=? e then Z.shiftl (Zpos m) e
               else Z.shiftr (Zpos m) (- e) in
      Some (if s then - a else a)
  | S754_infinity _ => None
  | S754_nan => None
  end.

(** [dist < min_dist] where [min_dist] starts as [float('inf')]: [None]
    is the infinity, above every int. *)
Definition lt_inf (d : Z) (m : option Z) : bool :=
  match m with
  | None => true
  | Some m' => d <? m'
  end.

(** [s.add(k)] on a set of ints. *)
Fixpoint set_add (k : Z) (s : list Z) : list Z :=
  match s with
  | [] => [k]
  | k' :: s' => if k' =? k then s else k' :: set_add k s'
  end.

End Py.

(** ** Insertion-ordered dictionaries with int keys *)

Module Dict.
Section Ops.
Context {V : Type}.

Definition t := list (Z * V).

Definition keys (d : t) : list Z := map fst d.

(** [d.get(k)] *)
Fixpoint get (d : t) (k : Z) : option V :=
  match d with
  | [] => None
  | (k', v) :: d' => if k' =? k then Some v else get d' k
  end.

(** [d[k] = v]: an existing key keeps its place, a new key goes last. *)
Fixpoint set (d : t) (k : Z) (v : V) : t :=
  match d with
  | [] => [(k, v)]
  | (k', v') :: d' =>
      if k' =? k then (k, v) :: d' else (k', v') :: set d' k v
  end.

(** [d[k][field] = ...]: the value stored under [k] is mutated in place. *)
Fixpoint modify (d : t) (k : Z) (f : V -> V) : t :=
  match d with
  | [] => []
  | (k', v) :: d' =>
      if k' =? k then (k', f v) :: d' else (k', v) :: modify d' k f
  end.

(** [del d[k]] *)
Definition del (d : t) (k : Z) : t :=
  filter (fun e => negb (fst e =? k)) d.

End Ops.
Arguments t : clear implicits.
End Dict.

(** ** Data model *)

Definition box : Type := Z * Z * Z * Z.
Definition point : Type := Z * Z.

(** A detection is the tuple (x1, y1, x2, y2, label). *)
Definition detection : Type := Z * Z * Z * Z * string.

(** [frame.shape] is (h, w, channels). *)
Record frame_shape := mk_frame { frame_h : Z; frame_w : Z }.

(** The values of [obj_data['lane']]: 'unknown', 'enter', 'exit'. *)
Inductive lane_label := lane_unknown | lane_enter | lane_exit.

(** One value of [tracked_objects]. *)
Record track := mk_track {
  bbox : box;
  centroid : point;
  lane : lane_label;
  status : string;
  counted_in : bool;
  counted_out : bool;
  last_frame_id : Z
}.

Record PeopleTracker := mk_tracker {
  mode : string;
  lane_split_x : option Z;
  entry_y_threshold : option Z;
  exit_y_threshold : option Z;
  tracked_objects : Dict.t track;
  next_id : Z;
  in_count : Z;
  out_count : Z;
  frame_id : Z;
  max_dist_sq : Z;
  stale_frame_threshold : Z
}.

Definition Eagle_Eye : string := "Eagle‑Eye"%string.
Definition Lane_Counter : string := "Lane Counter"%string.

(** [PeopleTracker.__init__] *)
Definition init (m : string) : PeopleTracker :=
  {| mode := m;
     lane_split_x := None;
     entry_y_threshold := None;
     exit_y_threshold := None;
     tracked_objects := [];
     next_id := 0;
     in_count := 0;
     out_count := 0;
     frame_id := 0;
     max_dist_sq := 5000;
     stale_frame_threshold := 30 |}.

(** [tracker.mode = m], as app.py does before streaming. *)
Definition set_mode (self : PeopleTracker) (m : string) : PeopleTracker :=
  {| mode := m;
     lane_split_x := lane_split_x self;
     entry_y_threshold := entry_y_threshold self;
     exit_y_threshold := exit_y_threshold self;
     tracked_objects := tracked_objects self;
     next_id := next_id self;
     in_count := in_count self;
     out_count := out_count self;
     frame_id := frame_id self;
     max_dist_sq := max_dist_sq self;
     stale_frame_threshold := stale_frame_threshold self |}.

Definition _get_centroid (b : box) : point :=
  let '(x1, y1, x2, y2) := b in
  ((x1 + x2) / 2, (y1 + y2) / 2).

Definition _distance_sq (p1 p2 : point) : Z :=
  (fst p1 - fst p2) ^ 2 + (snd p1 - snd p2) ^ 2.

Definition reset_counts (self : PeopleTracker) : PeopleTracker :=
  {| mode := mode self;
     lane_split_x := lane_split_x self;
     entry_y_threshold := entry_y_threshold self;
     exit_y_threshold := exit_y_threshold self;
     tracked_objects := [];
     next_id := 0;
     in_count := 0;
     out_count := 0;
     frame_id := 0;
     max_dist_sq := max_dist_sq self;
     stale_frame_threshold := stale_frame_threshold self |}.

(** ** [update], phase by phase *)

(** [self.frame_id += 1] *)
Definition tick (self : PeopleTracker) : PeopleTracker :=
  {| mode := mode self;
     lane_split_x := lane_split_x self;
     entry_y_threshold := entry_y_threshold self;
     exit_y_threshold := exit_y_threshold self;
     tracked_objects := tracked_objects self;
     next_id := next_id self;
     in_count := in_count self;
     out_count := out_count self;
     frame_id := frame_id self + 1;
     max_dist_sq := max_dist_sq self;
     stale_frame_threshold := stale_frame_threshold self |}.

(** [x if x is not None else d] for the three lazily set attributes. *)
Definition if_unset (cur : option Z) (d : option Z) : option Z :=
  match cur with
  | Some v => Some v
  | None => d
  end.

Definition entry_line (h : Z) : option Z :=
  Py.int_of_float (Py.fmul (Py.float_of_int h) Py.lit_0_9).

Definition exit_line (h : Z) : option Z :=
  Py.int_of_float (Py.fmul (Py.float_of_int h) Py.lit_0_1).

(** "Initialize thresholds and lane split if not already set": only in
    'Lane Counter' mode; [None] when [int(...)] raises. *)
Definition init_thresholds (self : PeopleTracker) (fr : frame_shape)
  : option PeopleTracker :=
  if String.eqb (mode self) Lane_Counter then
    match if_unset (entry_y_threshold self) (entry_line (frame_h fr)),
          if_unset (exit_y_threshold self) (exit_line (frame_h fr)) with
    | Some en, Some ex =>
        Some {| mode := mode self;
                lane_split_x :=
                  if_unset (lane_split_x self) (Some (frame_w fr / 2));
                entry_y_threshold := Some en;
                exit_y_threshold := Some ex;
                tracked_objects := tracked_objects self;
                next_id := next_id self;
                in_count := in_count self;
                out_count := out_count self;
                frame_id := frame_id self;
                max_dist_sq := max_dist_sq self;
                stale_frame_threshold := stale_frame_threshold self |}
    | _, _ => None
    end
  else Some self.

Definition label_of (d : detection) : string := snd d.

(** [[d for d in detections if d[4] == 'person']] *)
Definition current_persons_detections (detections : list detection)
  : list detection :=
  filter (fun d => String.eqb (label_of d) "person") detections.

(** The inner loop over [tracked_objects.items()], carrying
    ([matched_id], [min_dist]). *)
Fixpoint find_match (gate : Z) (c : point) (objs : Dict.t track)
  (acc : option Z * option Z) : option Z * option Z :=
  match objs with
  | [] => acc
  | (obj_id, obj_data) :: rest =>
      if String.eqb (status obj_data) "active" then
        let dist := _distance_sq c (centroid obj_data) in
        if Py.lt_inf dist (snd acc) && (dist <? gate)
        then find_match gate c rest (Some obj_id, Some dist)
        else find_match gate c rest acc
      else find_match gate c rest acc
  end.

(** The three assignments of "Update existing track". *)
Definition touch (b : box) (c : point) (fid : Z) (t : track) : track :=
  {| bbox := b;
     centroid := c;
     lane := lane t;
     status := status t;
     counted_in := counted_in t;
     counted_out := counted_out t;
     last_frame_id := fid |}.

(** The dict literal of "Create a new track". *)
Definition new_track (b : box) (c : point) (fid : Z) : track :=
  {| bbox := b;
     centroid := c;
     lane := lane_unknown;
     status := "active"%string;
     counted_in := false;
     counted_out := false;
     last_frame_id := fid |}.

Definition with_objects (self : PeopleTracker) (objs : Dict.t track)
  (nid : Z) : PeopleTracker :=
  {| mode := mode self;
     lane_split_x := lane_split_x self;
     entry_y_threshold := entry_y_threshold self;
     exit_y_threshold := exit_y_threshold self;
     tracked_objects := objs;
     next_id := nid;
     in_count := in_count self;
     out_count := out_count self;
     frame_id := frame_id self;
     max_dist_sq := max_dist_sq self;
     stale_frame_threshold := stale_frame_threshold self |}.

Definition det_box (d : detection) : box :=
  let '(x1, y1, x2, y2, _) := d in (x1, y1, x2, y2).

(** The body of the loop over [current_persons_detections]; the second
    component is the local set [updated_tracked_ids]. *)
Definition associate_one (su : PeopleTracker * list Z) (d : detection)
  : PeopleTracker * list Z :=
  let (self, updated_tracked_ids) := su in
  let det_bbox := det_box d in
  let det_centroid := _get_centroid det_bbox in
  match fst (find_match (max_dist_sq self) det_centroid
               (tracked_objects self) (None, None)) with
  | Some matched_id =>
      (with_objects self
         (Dict.modify (tracked_objects self) matched_id
            (touch det_bbox det_centroid (frame_id self)))
         (next_id self),
       Py.set_add matched_id updated_tracked_ids)
  | None =>
      (with_objects self
         (Dict.set (tracked_objects self) (next_id self)
            (new_track det_bbox det_centroid (frame_id self)))
         (next_id self + 1),
       Py.set_add (next_id self) updated_tracked_ids)
  end.

(** "Update existing tracks and add new ones" *)
Definition associate (self : PeopleTracker) (persons : list detection)
  : PeopleTracker * list Z :=
  fold_left associate_one persons (self, []).

Definition is_stale (self : PeopleTracker) (t : track) : bool :=
  stale_frame_threshold self <? frame_id self - last_frame_id t.

Definition stale_ids (self : PeopleTracker) : list Z :=
  Dict.keys (filter (fun e => is_stale self (snd e)) (tracked_objects self)).

(** "Remove stale tracks" *)
Definition remove_stale (self : PeopleTracker) : PeopleTracker :=
  with_objects self
    (fold_left Dict.del (stale_ids self) (tracked_objects self))
    (next_id self).

Definition with_lane (t : track) (l : lane_label) : track :=
  {| bbox := bbox t;
     centroid := centroid t;
     lane := l;
     status := status t;
     counted_in := counted_in t;
     counted_out := counted_out t;
     last_frame_id := last_frame_id t |}.

Definition mark_in (t : track) : track :=
  {| bbox := bbox t;
     centroid := centroid t;
     lane := lane t;
     status := status t;
     counted_in := true;
     counted_out := counted_out t;
     last_frame_id := last_frame_id t |}.

Definition mark_out (t : track) : track :=
  {| bbox := bbox t;
     centroid := centroid t;
     lane := lane t;
     status := status t;
     counted_in := counted_in t;
     counted_out := true;
     last_frame_id := last_frame_id t |}.

Definition lane_eqb (a b : lane_label) : bool :=
  match a, b with
  | lane_unknown, lane_unknown => true
  | lane_enter, lane_enter => true
  | lane_exit, lane_exit => true
  | _, _ => false
  end.

Definition box_y1 (b : box) : Z := let '(_, y1, _, _) := b in y1.
Definition box_y2 (b : box) : Z := let '(_, _, _, y2) := b in y2.

(** Boundaries and counters threaded through the 'Lane Counter' loop. *)
Record lines := mk_lines { split_x : Z; entry_y : Z; exit_y : Z }.

(** The body of the loop of the 'Lane Counter' branch, for one track:
    the lane is set from the centroid, then the entry logic and the exit
    logic run. Returns the track and the two counters. *)
Definition count_one (ln : lines) (obj_data : track) (ic oc : Z)
  : track * Z * Z :=
  let y1 := box_y1 (bbox obj_data) in
  let y2 := box_y2 (bbox obj_data) in
  let cx := fst (centroid obj_data) in
  let t1 := if cx <? split_x ln then with_lane obj_data lane_enter
            else with_lane obj_data lane_exit in
  let '(t2, ic2) :=
    if lane_eqb (lane t1) lane_enter && (entry_y ln <? y2)
       && negb (counted_in t1)
    then (mark_in t1, ic + 1) else (t1, ic) in
  let '(t3, oc3) :=
    if lane_eqb (lane t2) lane_exit && (y1 <? exit_y ln)
       && negb (counted_out t2)
    then (mark_out t2, oc + 1) else (t2, oc) in
  (t3, ic2, oc3).

(** The loop over [tracked_objects.items()] of the 'Lane Counter' branch. *)
Fixpoint count_loop (ln : lines) (objs : Dict.t track) (ic oc : Z)
  : Dict.t track * Z * Z :=
  match objs with
  | [] => ([], ic, oc)
  | (obj_id, obj_data) :: rest =>
      let '(t', ic', oc') := count_one ln obj_data ic oc in
      let '(rest', ic'', oc'') := count_loop ln rest ic' oc' in
      ((obj_id, t') :: rest', ic'', oc'')
  end.

Definition with_counts (self : PeopleTracker) (objs : Dict.t track)
  (ic oc : Z) : PeopleTracker :=
  {| mode := mode self;
     lane_split_x := lane_split_x self;
     entry_y_threshold := entry_y_threshold self;
     exit_y_threshold := exit_y_threshold self;
     tracked_objects := objs;
     next_id := next_id self;
     in_count := ic;
     out_count := oc;
     frame_id := frame_id self;
     max_dist_sq := max_dist_sq self;
     stale_frame_threshold := stale_frame_threshold self |}.

(** The three attributes read by the 'Lane Counter' loop; they were set at
    the top of [update], a [None] there would be a TypeError. *)
Definition lines_of (self : PeopleTracker) : option lines :=
  match lane_split_x self, entry_y_threshold self, exit_y_threshold self with
  | Some s, Some en, Some ex => Some (mk_lines s en ex)
  | _, _, _ => None
  end.

(** "Counting and Drawing": the state and [net_people_total]. *)
Definition count (self : PeopleTracker) (persons : list detection)
  : option (PeopleTracker * Z) :=
  if String.eqb (mode self) Eagle_Eye then
    Some (self, Z.of_nat (List.length persons))
  else if String.eqb (mode self) Lane_Counter then
    match lines_of self with
    | Some ln =>
        let '(objs, ic, oc) :=
          count_loop ln (tracked_objects self) (in_count self)
            (out_count self) in
        Some (with_counts self objs ic oc, ic - oc)
    | None => None
    end
  else Some (self, 0).

(** The state after the association loop of [update]. *)
Definition associated (self : PeopleTracker) (detections : list detection)
  (fr : frame_shape) : option (PeopleTracker * list Z) :=
  match init_thresholds (tick self) fr with
  | Some s1 => Some (associate s1 (current_persons_detections detections))
  | None => None
  end.

Definition result : Type := Z * Z * Z.

(** [PeopleTracker.update] *)
Definition update (self : PeopleTracker) (detections : list detection)
  (fr : frame_shape) : option (PeopleTracker * result) :=
  match associated self detections fr with
  | Some (s2, _) =>
      match count (remove_stale s2)
              (current_persons_detections detections) with
      | Some (s4, net_people_total) =>
          Some (s4, (in_count s4, out_count s4, net_people_total))
      | None => None
      end
  | None => None
  end.

(** ** Sequences of calls, as app.py issues them *)

Inductive call :=
| call_update (detections : list detection) (fr : frame_shape)
| call_reset_counts
| call_set_mode (m : string).

Definition is_reset (c : call) : bool :=
  match c with
  | call_reset_counts => true
  | _ => false
  end.

Definition exec_call (self : PeopleTracker) (c : call)
  : option PeopleTracker :=
  match c with
  | call_update dets fr => option_map fst (update self dets fr)
  | call_reset_counts => Some (reset_counts self)
  | call_set_mode m => Some (set_mode self m)
  end.

Fixpoint exec (self : PeopleTracker) (cs : list call)
  : option PeopleTracker :=
  match cs with
  | [] => Some self
  | c :: cs' =>
      match exec_call self c with
      | Some s => exec s cs'
      | None => None
      end
  end.

(** ** Notions used by the statements *)

(** The dictionary of a tracker built by [init], [update], [reset_counts]
    and [set_mode] holds each id once, and every id in it was handed out
    by the allocator. *)
Definition wf (self : PeopleTracker) : Prop :=
  NoDup (Dict.keys (tracked_objects self)) /\
  Forall (fun k => k < next_id self) (Dict.keys (tracked_objects self)).

(** A track the inner loop may choose for a detection centred at [c]:
    active and strictly inside the gate. *)
Definition candidate (gate : Z) (c : point) (t : track) : bool :=
  String.eqb (status t) "active" && (_distance_sq c (centroid t) <? gate).

(** The attributes that association and stale removal never write. *)
Definition settings (self : PeopleTracker)
  : string * option Z * option Z * option Z * Z * Z * Z * Z * Z :=
  (mode self, lane_split_x self, entry_y_threshold self,
   exit_y_threshold self, in_count self, out_count self, frame_id self,
   max_dist_sq self, stale_frame_threshold self).

(** What association and stale removal keep of a track. *)
Definition same_marks (t t' : track) : Prop :=
  counted_in t' = counted_in t /\ counted_out t' = counted_out t /\
  lane t' = lane t /\ status t' = status t.

(** What holds of the state of the detection loop, started from [self0],
    after any number of detections: the settings are those of [self0];
    a track of [self0] is still there with its marks, and untouched when
    its id is not in [updated_tracked_ids]; a track that [self0] did not
    have is a new one. *)
Definition assoc_inv (self0 : PeopleTracker)
  (su : PeopleTracker * list Z) : Prop :=
  let (s, upd) := su in
  settings s = settings self0 /\
  next_id self0 <= next_id s /\
  wf s /\
  (forall k t, Dict.get (tracked_objects self0) k = Some t ->
     exists t', Dict.get (tracked_objects s) k = Some t' /\
                same_marks t t' /\ (~ In k upd -> t' = t)) /\
  (forall k t', Dict.get (tracked_objects s) k = Some t' ->
     Dict.get (tracked_objects self0) k = None ->
     next_id self0 <= k /\ In k upd /\
     counted_in t' = false /\ counted_out t' = false) /\
  (forall k, In k upd ->
     exists t', Dict.get (tracked_objects s) k = Some t' /\
                last_frame_id t' = frame_id s).

(** The entry event of a track at the counting step: in the entering
    lane (centroid strictly left of the split), bottom edge below the entry
    line, not yet counted in. *)
Definition crossing_in (ln : lines) (t : track) : bool :=
  (fst (centroid t) <? split_x ln) && (entry_y ln <? box_y2 (bbox t))
  && negb (counted_in t).

(** The exit event: in the exiting lane, top edge above the exit line, not
    yet counted out. *)
Definition crossing_out (ln : lines) (t : track) : bool :=
  negb (fst (centroid t) <? split_x ln) && (box_y1 (bbox t) <? exit_y ln)
  && negb (counted_out t).

(** The track that the counting step leaves behind. *)
Definition counted_track (ln : lines) (t : track) : track :=
  fst (fst (count_one ln t 0 0)).

(** Number of tracks of a dictionary on which an event fires. *)
Definition events (ev : track -> bool) (objs : Dict.t track) : Z :=
  Z.of_nat (List.length (filter (fun e => ev (snd e)) objs)).

(** What one event adds to its counter. *)
Definition bump (b : bool) : Z := if b then 1 else 0.

(** ** Sample inputs

    A 640x480 frame, a few detections, and a tracker in the middle of a
    session: boundaries set, two live tracks (ids 3 and 5), counters
    4 in / 1 out at frame 50. *)

Definition vga : frame_shape := mk_frame 480 640.

Definition person (x1 y1 x2 y2 : Z) : detection :=
  (x1, y1, x2, y2, "person"%string).

Definition sample_track (b : box) (ci co : bool) (seen : Z) : track :=
  {| bbox := b;
     centroid := _get_centroid b;
     lane := lane_enter;
     status := "active"%string;
     counted_in := ci;
     counted_out := co;
     last_frame_id := seen |}.

Definition busy_tracker (m : string) : PeopleTracker :=
  {| mode := m;
     lane_split_x := Some 320;
     entry_y_threshold := Some 432;
     exit_y_threshold := Some 48;
     tracked_objects :=
       [(3, sample_track (90, 80, 110, 120) true false 50);
        (5, sample_track (400, 200, 440, 300) false false 19)];
     next_id := 6;
     in_count := 4;
     out_count := 1;
     frame_id := 50;
     max_dist_sq := 5000;
     stale_frame_threshold := 30 |}.

Definition sample_detections : list detection :=
  [person 94 84 114 124;
   (10, 10, 60, 40, "car"%string);
   person 500 100 540 200].

(** ** The single-person scenario

    A 'Lane Counter' tracker on 640x480 frames. Frame 1 holds one person
    whose box is centred at (100, 100), frame 2 the same person centred at
    (110, 100), every later frame holds no detection. *)

Definition scenario_frame (n : nat) : list detection :=
  match n with
  | 1%nat => [person 90 80 110 120]
  | 2%nat => [person 100 80 120 120]
  | _ => []
  end.

(** The tracker after frame [n] of the scenario. *)
Fixpoint scenario_after (n : nat) : option PeopleTracker :=
  match n with
  | O => Some (init Lane_Counter)
  | S k =>
      match scenario_after k with
      | Some s => option_map fst (update s (scenario_frame n) vga)
      | None => None
      end
  end.

Definition tracks_after (n : nat) : option (Dict.t track) :=
  option_map tracked_objects (scenario_after n).

(** Track [id] is evicted on frame [n]: there after frame [n - 1], gone
    after frame [n]. *)
Definition evicted_on (id : Z) (n : nat) : Prop :=
  (exists objs, tracks_after (n - 1) = Some objs /\
                Dict.get objs id <> None) /\
  (exists objs, tracks_after n = Some objs /\ Dict.get objs id = None).

(** ** Two people side by side

    One frame with two person detections 10 pixels apart, given to a new
    tracker. *)
Definition side_by_side : list detection :=
  [person 90 80 110 120; person 100 80 120 120].

(** A session that counts one exit, watches a frame in Eagle-Eye mode and
    returns to Lane Counter mode. *)
Definition mixed_session : list call :=
  [call_update [person 400 10 440 100] vga;
   call_set_mode Eagle_Eye;
   call_update sample_detections vga;
   call_set_mode Lane_Counter].

(** ** Contributions of one track to a counter *)

Inductive direction := entering | exiting.

Definition crossing (dir : direction) : lines -> track -> bool :=
  match dir with
  | entering => crossing_in
  | exiting => crossing_out
  end.

Definition counted (dir : direction) (t : track) : bool :=
  match dir with
  | entering => counted_in t
  | exiting => counted_out t
  end.

Definition counter (dir : direction) (self : PeopleTracker) : Z :=
  match dir with
  | entering => in_count self
  | exiting => out_count self
  end.

(** What the track under [id] adds to the counter of [dir] in the call
    [update self dets fr]: 1 when it is in the dictionary at the counting
    step of a 'Lane Counter' call and its event fires, 0 otherwise. *)
Definition added (dir : direction) (self : PeopleTracker)
  (dets : list detection) (fr : frame_shape) (id : Z) : Z :=
  match associated self dets fr with
  | Some (sa, _) =>
      if String.eqb (mode self) Lane_Counter then
        match lines_of sa,
              Dict.get (tracked_objects (remove_stale sa)) id with
        | Some ln, Some t => bump (crossing dir ln t)
        | _, _ => 0
        end
      else 0
  | None => 0
  end.

Definition added_by_call (dir : direction) (self : PeopleTracker)
  (c : call) (id : Z) : Z :=
  match c with
  | call_update dets fr => added dir self dets fr id
  | _ => 0
  end.

(** What the track under [id] adds to the counter of [dir] over a whole
    sequence of calls. *)
Fixpoint lifetime (dir : direction) (id : Z) (self : PeopleTracker)
  (cs : list call) : Z :=
  match cs with
  | [] => 0
  | c :: cs' =>
      added_by_call dir self c id +
      match exec_call self c with
      | Some s => lifetime dir id s cs'
      | None => 0
      end
  end.

Definition sum_over (f : Z -> Z) (ks : list Z) : Z :=
  fold_right (fun k a => f k + a) 0 ks.

(** The counter of [dir] has nothing more to receive from [id]: the id was
    handed out already and its track, if still there, is marked. *)
Definition spent (dir : direction) (id : Z) (self : PeopleTracker) : Prop :=
  id < next_id self /\
  forall t, Dict.get (tracked_objects self) id = Some t ->
            counted dir t = true.

(** The crossing of the testable properties: a person in the entering
    lane whose bottom edge is at 440, then at 445, below the entry line
    432 of a 480-high frame. *)
Definition crossing_session : list call :=
  [call_update [person 90 400 110 440] vga;
   call_update [person 90 405 110 445] vga].

(** ** Notions for the properties of reachable trackers *)

(** What every track of a tracker at frame counter [fid] looks like. *)
Definition good_track (fid : Z) (t : track) : Prop :=
  status t = "active"%string /\
  centroid t = _get_centroid (bbox t) /\
  1 <= last_frame_id t <= fid.

(** Ids in iteration order, frame counter and tracks of a tracker built by
    calls from [init]. *)
Definition tidy (self : PeopleTracker) : Prop :=
  StronglySorted Z.lt (Dict.keys (tracked_objects self)) /\
  Forall (fun k => 0 <= k < next_id self) (Dict.keys (tracked_objects self)) /\
  0 <= next_id self /\
  0 <= frame_id self /\
  max_dist_sq self = 5000 /\
  stale_frame_threshold self = 30 /\
  Forall (fun e => good_track (frame_id self) (snd e)) (tracked_objects self).

(** Number of tracks not yet counted in direction [dir]. *)
Definition unmarked (dir : direction) (objs : Dict.t track) : Z :=
  events (fun t => negb (counted dir t)) objs.

(** The detection of a person with box [b]. *)
Definition person_at (b : box) : detection :=
  let '(x1, y1, x2, y2) := b in (x1, y1, x2, y2, "person"%string).

(** Successive boxes of one person: each centroid is strictly within
    [gate] (squared) of the one before, starting from [c]. *)
Fixpoint near_chain (gate : Z) (c : point) (bs : list box) : Prop :=
  match bs with
  | [] => True
  | b :: bs' =>
      _distance_sq (_get_centroid b) c < gate /\
      near_chain gate (_get_centroid b) bs'
  end.

(** One frame per box, each holding that one person. *)
Definition walk (steps : list (box * frame_shape)) : list call :=
  map (fun bf => call_update [person_at (fst bf)] (snd bf)) steps.

(** The heights 0, ..., n - 1. *)
Fixpoint heights (n : nat) : list Z :=
  match n with
  | O => []
  | S k => Z.of_nat k :: heights k
  end.

(** Both lines of a frame of height [h] are those of integer division. *)
Definition lines_agree (h : Z) : bool :=
  match entry_line h, exit_line h with
  | Some en, Some ex => (en =? 9 * h / 10) && (ex =? h / 10)
  | _, _ => false
  end.

(** The counter plus the tracks still to be counted never exceeds the ids
    handed out. *)
Definition within_ids (dir : direction) (s : PeopleTracker) : Prop :=
  0 <= counter dir s /\
  counter dir s + unmarked dir (tracked_objects s) <= next_id s.

(** A tracker that follows one person: a single active track, id 0, with
    box [b], seen on the current frame; no other id was handed out. *)
Definition solo (b : box) (s : PeopleTracker) : Prop :=
  exists t,
    tracked_objects s = [(0, t)] /\
    status t = "active"%string /\
    centroid t = _get_centroid b /\
    bbox t = b /\
    last_frame_id t = frame_id s /\
    next_id s = 1 /\
    max_dist_sq s = 5000 /\
    0 <= stale_frame_threshold s.

(** * AlertManager: a shallow embedding of alert.py

    The clock reading of [time.time()] and the outcome of the SMTP block
    (completed, or raised) are inputs of the methods, read only where the
    source reads them. Every method returns the manager it leaves, the
    value it returns, and the message handed to the SMTP server, if any.
    The envelope (From, To, server, credentials) comes from
    settings.EMAIL, which is not among the sources, and is left out, as
    are the prints and the text drawn on the frame. [str.strip] and
    [str.lower] are parameters. *)

Module Alert.

Record message := mk_message { subject : string; body : string }.

Record AlertManager := mk_alert {
  capacity : Z;
  cooldown : Z;
  last_sent : spec_float;
  alert_active : bool;
  restricted_alert_active : bool
}.

(** [AlertManager.__init__]; [last_sent = 0]. *)
Definition init (cap cd : Z) : AlertManager :=
  {| capacity := cap;
     cooldown := cd;
     last_sent := S754_zero false;
     alert_active := false;
     restricted_alert_active := false |}.

(** Float subtraction in binary64. *)
Definition fsub (x y : spec_float) : spec_float :=
  SFsub Py.prec Py.emax x y.

(** [f < n] for a float and an int: the exact comparison. *)
Definition float_lt_int (f : spec_float) (n : Z) : bool :=
  match f with
  | S754_nan => false
  | S754_infinity s => s
  | S754_zero _ => 0 <? n
  | S754_finite s m e =>
      let v := if s then Zneg m else Zpos m in
      if 0 <=? e then v * 2 ^ e <? n else v <? n * 2 ^ (- e)
  end.

(** [str(n)] of an int, as the f-strings format it. *)
Definition str (n : Z) : string := NilZero.string_of_int (Z.to_int n).

Definition nl : string := String (ascii_of_nat 10) EmptyString.

(** [x in l] for a list of strings. *)
Definition mem (x : string) (l : list string) : bool :=
  existsb (String.eqb x) l.

Definition with_last_sent (self : AlertManager) (t : spec_float)
  : AlertManager :=
  {| capacity := capacity self;
     cooldown := cooldown self;
     last_sent := t;
     alert_active := alert_active self;
     restricted_alert_active := restricted_alert_active self |}.

Definition with_alert_active (self : AlertManager) (b : bool)
  : AlertManager :=
  {| capacity := capacity self;
     cooldown := cooldown self;
     last_sent := last_sent self;
     alert_active := b;
     restricted_alert_active := restricted_alert_active self |}.

Definition with_restricted_alert_active (self : AlertManager) (b : bool)
  : AlertManager :=
  {| capacity := capacity self;
     cooldown := cooldown self;
     last_sent := last_sent self;
     alert_active := alert_active self;
     restricted_alert_active := b |}.

Definition outcome : Type := AlertManager * bool * option message.

Section Methods.

Variable strip : string -> string.
Variable lower : string -> string.

(** [AlertManager.send_email] at clock reading [now]; [smtp_ok] tells
    whether the SMTP block completes. *)
Definition send_email (self : AlertManager) (now : spec_float)
  (smtp_ok : bool) (subj bd : string) : outcome :=
  if float_lt_int (fsub now (last_sent self)) (cooldown self) then
    (self, false, None)
  else
    let final_body :=
      if String.eqb bd "" || String.eqb (strip bd) "" then
        ("Alert triggered for: " ++ subj ++
         ". (Original body was unexpectedly empty)")%string
      else bd in
    (with_last_sent self now, smtp_ok,
     Some {| subject := subj; body := final_body |}).

(** [AlertManager.check_capacity] *)
Definition check_capacity (self : AlertManager) (now : spec_float)
  (smtp_ok : bool) (current_count : Z) : outcome :=
  if capacity self <? current_count then
    if negb (alert_active self) then
      let subj := "Capacity Alert"%string in
      let details :=
        ("Current count of " ++ str current_count ++
         " has exceeded the set capacity of " ++ str (capacity self) ++
         ".")%string in
      let bd :=
        ("Alert Type: Capacity Exceeded" ++ nl ++ nl ++ "Details: " ++
         details)%string in
      let '(self1, ok, att) := send_email self now smtp_ok subj bd in
      (if ok then with_alert_active self1 true else self1, true, att)
    else (self, true, None)
  else (with_alert_active self false, false, None).

(** [AlertManager.handle_capacity]: [check_capacity], then the warning
    text on the frame. *)
Definition handle_capacity (self : AlertManager) (now : spec_float)
  (smtp_ok : bool) (current_count : Z) : outcome :=
  check_capacity self now smtp_ok current_count.

(** The loop of [handle_restricted] over the detections, carrying
    ([found_restricted_labels_in_frame],
    [is_restricted_item_present_this_frame]). *)
Fixpoint scan_labels (restricted_items_lower : list string)
  (detections : list detection) (acc : list string * bool)
  : list string * bool :=
  match detections with
  | [] => acc
  | d :: rest =>
      let label_detected_original := label_of d in
      if mem (lower label_detected_original) restricted_items_lower then
        scan_labels restricted_items_lower rest
          (if mem label_detected_original (fst acc) then fst acc
           else fst acc ++ [label_detected_original],
           true)
      else scan_labels restricted_items_lower rest acc
  end.

(** [AlertManager.handle_restricted] *)
Definition handle_restricted (self : AlertManager) (now : spec_float)
  (smtp_ok : bool) (detections : list detection)
  (restricted_items_lower : list string) : outcome :=
  let '(found, present) :=
    scan_labels restricted_items_lower detections ([], false) in
  if present then
    if negb (restricted_alert_active self) then
      let subj := "Restricted Item Alert"%string in
      let details :=
        match found with
        | _ :: _ =>
            ("The following restricted item(s) were detected: " ++
             String.concat ", " found ++ ".")%string
        | [] =>
            ("One or more restricted items were detected, but their " ++
             "specific names could not be listed from the current " ++
             "frame's detections.")%string
        end in
      let bd :=
        ("Alert Type: Restricted Item" ++ nl ++ nl ++ "Details: " ++
         details)%string in
      let '(self1, ok, att) := send_email self now smtp_ok subj bd in
      (if ok then with_restricted_alert_active self1 true else self1,
       true, att)
    else (self, true, None)
  else (with_restricted_alert_active self false, false, None).

(** The banner of app.py's frame loop ("Determine alert message to flash
    below feed"). *)
Definition alert_msg (total_c cap : Z) (restricted_items : list string)
  (detections : list detection) : string :=
  if cap <? total_c then "CAPACITY EXCEEDED!"%string
  else if negb (match restricted_items with [] => true | _ => false end)
          && existsb (fun d => mem (lower (label_of d)) restricted_items)
               detections
  then "UNAUTHORIZED ITEM DETECTED!"%string
  else ""%string.

(** One call on the manager, with what it reads from outside. *)
Inductive alert_call :=
| capacity_call (now : spec_float) (smtp_ok : bool) (current_count : Z)
| restricted_call (now : spec_float) (smtp_ok : bool)
    (detections : list detection) (restricted_items_lower : list string).

Definition alert_step (self : AlertManager) (c : alert_call) : outcome :=
  match c with
  | capacity_call now ok n => handle_capacity self now ok n
  | restricted_call now ok dets items =>
      handle_restricted self now ok dets items
  end.

Definition call_time (c : alert_call) : spec_float :=
  match c with
  | capacity_call now _ _ => now
  | restricted_call now _ _ _ => now
  end.

Definition call_ok (c : alert_call) : bool :=
  match c with
  | capacity_call _ ok _ => ok
  | restricted_call _ ok _ _ => ok
  end.

(** The SMTP attempts of a sequence of calls: clock reading and outcome
    of each. *)
Fixpoint attempts (self : AlertManager) (cs : list alert_call)
  : list (spec_float * bool) :=
  match cs with
  | [] => []
  | c :: cs' =>
      let '(self1, _, att) := alert_step self c in
      match att with
      | Some _ => (call_time c, call_ok c) :: attempts self1 cs'
      | None => attempts self1 cs'
      end
  end.

(** The manager after a sequence of calls. *)
Fixpoint after_calls (self : AlertManager) (cs : list alert_call)
  : AlertManager :=
  match cs with
  | [] => self
  | c :: cs' => after_calls (fst (fst (alert_step self c))) cs'
  end.

End Methods.

(** Clock readings in which each is at least [cd] after the one before,
    as [send_email] tests it, starting from [last]. *)
Fixpoint spaced (cd : Z) (last : spec_float) (ts : list spec_float)
  : Prop :=
  match ts with
  | [] => True
  | t :: ts' => float_lt_int (fsub t last) cd = false /\ spaced cd t ts'
  end.

(** [str.lower] and [str.strip] on ASCII strings, to instantiate the two
    parameters. *)
Fixpoint ascii_lower (s : string) : string :=
  match s with
  | EmptyString => EmptyString
  | String c s' =>
      let n := nat_of_ascii c in
      String (if ((65 <=? n) && (n <=? 90))%nat then ascii_of_nat (n + 32)
              else c)
        (ascii_lower s')
  end.

Definition is_space (c : ascii) : bool :=
  let n := nat_of_ascii c in
  (((9 <=? n) && (n <=? 13)) || ((28 <=? n) && (n <=? 32)))%nat.

Fixpoint lstrip (s : string) : string :=
  match s with
  | EmptyString => EmptyString
  | String c s' => if is_space c then lstrip s' else s
  end.

Fixpoint rev_onto (s acc : string) : string :=
  match s with
  | EmptyString => acc
  | String c s' => rev_onto s' (String c acc)
  end.

Definition ascii_strip (s : string) : string :=
  rev_onto (lstrip (rev_onto (lstrip s) EmptyString)) EmptyString.

(** The calls of an episode: all capacity checks above the capacity, or
    all restricted checks with a restricted label in the frame. *)
Definition over_capacity (cap : Z) (c : alert_call) : bool :=
  match c with
  | capacity_call _ _ n => cap <? n
  | restricted_call _ _ _ _ => false
  end.

Definition restricted_seen (lower : string -> string) (c : alert_call)
  : bool :=
  match c with
  | capacity_call _ _ _ => false
  | restricted_call _ _ dets items =>
      existsb (fun d => mem (lower (label_of d)) items) dets
  end.

(** Clock readings as floats, for examples. *)
Definition at_second (n : Z) : spec_float := Py.float_of_int n.

Definition sample_calls : list alert_call :=
  [capacity_call (at_second 1000) false 12;
   capacity_call (at_second 1005) true 12;
   capacity_call (at_second 1010) true 13;
   capacity_call (at_second 1030) true 14].

Definition sample_restricted_calls : list alert_call :=
  [restricted_call (at_second 1000) true
     [(1, 1, 2, 2, "Knife"%string); (5, 5, 9, 9, "person"%string)]
     ["knife"%string];
   restricted_call (at_second 1001) true
     [(1, 1, 2, 2, "Knife"%string); (3, 3, 4, 4, "knife"%string)]
     ["knife"%string];
   restricted_call (at_second 1020) true
     [(1, 1, 2, 2, "KNIFE"%string)] ["knife"%string]].

End Alert.

(** ** Coordinates as app.py passes them

    app.py hands [update] the coordinates of [box.astype(int)]: numpy
    int64 scalars. On them [+], [-] and [**] wrap around at 64 bits, and
    [//] by 2 is floor division, which cannot overflow. *)

Definition int64 (z : Z) : Z := (z + 2 ^ 63) mod 2 ^ 64 - 2 ^ 63.

Definition is_int64 (z : Z) : Prop := - 2 ^ 63 <= z < 2 ^ 63.

(** [_get_centroid] on int64 coordinates. *)
Definition np_get_centroid (bbox : box) : point :=
  let '(x1, y1, x2, y2) := bbox in
  (int64 (x1 + x2) / 2, int64 (y1 + y2) / 2).

(** [_distance_sq] on int64 coordinates. *)
Definition np_distance_sq (p1 p2 : point) : Z :=
  int64 (int64 (int64 (fst p1 - fst p2) ^ 2) +
         int64 (int64 (snd p1 - snd p2) ^ 2)).

(** ** Facts about dictionaries *)

Module DictFacts.
Section Facts.
Context {V : Type}.
Implicit Types (d : Dict.t V) (k : Z) (v : V).

Lemma get_In d k v : Dict.get d k = Some v -> In (k, v) d.
Proof.
  induction d as [|[k' v'] d IH]; simpl; [discriminate|].
  destruct (Z.eqb_spec k' k) as [->|_].
  - intros [= ->]. now left.
  - intros H. right. now apply IH.
Qed.

Lemma get_None d k : Dict.get d k = None <-> ~ In k (Dict.keys d).
Proof.
  induction d as [|[k' v'] d IH]; simpl.
  - tauto.
  - destruct (Z.eqb_spec k' k) as [->|Hne].
    + split; [discriminate|]. intros H. exfalso. apply H. now left.
    + rewrite IH. split; intros H; [intros [?|?]|]; tauto.
Qed.

Lemma In_keys d k v : In (k, v) d -> In k (Dict.keys d).
Proof. intros H. apply (in_map fst) in H. exact H. Qed.

Lemma In_get d k v :
  NoDup (Dict.keys d) -> In (k, v) d -> Dict.get d k = Some v.
Proof.
  induction d as [|[k' v'] d IH]; simpl; [tauto|].
  intros Hnd [[= -> ->]|Hin].
  - now rewrite Z.eqb_refl.
  - inversion Hnd as [|? ? Hk Hnd']; subst.
    destruct (Z.eqb_spec k' k) as [->|_].
    + exfalso. apply Hk. eapply In_keys; eauto.
    + now apply IH.
Qed.

Lemma keys_modify d k f : Dict.keys (Dict.modify d k f) = Dict.keys d.
Proof.
  induction d as [|[k' v'] d IH]; simpl; [reflexivity|].
  destruct (k' =? k); simpl; [reflexivity|]. now f_equal.
Qed.

Lemma get_modify d k f k' :
  Dict.get (Dict.modify d k f) k' =
  if k =? k' then option_map f (Dict.get d k) else Dict.get d k'.
Proof.
  induction d as [|[k0 v0] d IH]; simpl.
  - now destruct (k =? k').
  - destruct (Z.eqb_spec k0 k) as [->|Hne]; simpl.
    + destruct (Z.eqb_spec k k') as [->|_]; reflexivity.
    + rewrite IH. destruct (Z.eqb_spec k0 k') as [->|_].
      * destruct (Z.eqb_spec k k'); [congruence|reflexivity].
      * reflexivity.
Qed.

Lemma modify_split l1 k v l2 f :
  ~ In k (Dict.keys l1) ->
  Dict.modify (l1 ++ (k, v) :: l2) k f = l1 ++ (k, f v) :: l2.
Proof.
  induction l1 as [|[k0 v0] l1 IH]; simpl; intros Hn.
  - now rewrite Z.eqb_refl.
  - destruct (Z.eqb_spec k0 k) as [->|_]; [tauto|].
    f_equal. apply IH. tauto.
Qed.

Lemma set_fresh d k v :
  ~ In k (Dict.keys d) -> Dict.set d k v = d ++ [(k, v)].
Proof.
  induction d as [|[k0 v0] d IH]; simpl; intros Hn; [reflexivity|].
  destruct (Z.eqb_spec k0 k) as [->|_]; [tauto|].
  f_equal. apply IH. tauto.
Qed.

Lemma get_app_fresh d k v k' :
  Dict.get (d ++ [(k, v)]) k' =
  match Dict.get d k' with
  | Some x => Some x
  | None => if k =? k' then Some v else None
  end.
Proof.
  induction d as [|[k0 v0] d IH]; simpl; [reflexivity|].
  destruct (k0 =? k'); [reflexivity|apply IH].
Qed.

Lemma keys_app d1 d2 : Dict.keys (d1 ++ d2) = Dict.keys d1 ++ Dict.keys d2.
Proof. apply map_app. Qed.

(** Deleting a list of keys one after the other keeps the entries whose
    key is not in the list, in their order. *)
Lemma fold_del ks : forall d,
  fold_left Dict.del ks d =
  filter (fun e => negb (existsb (Z.eqb (fst e)) ks)) d.
Proof.
  induction ks as [|k ks IH]; intros d; simpl.
  - induction d as [|e d IHd]; simpl; [reflexivity|]. now f_equal.
  - rewrite IH. unfold Dict.del.
    induction d as [|e d IHd]; simpl; [reflexivity|].
    destruct (fst e =? k); simpl; [exact IHd|].
    destruct (existsb (Z.eqb (fst e)) ks); simpl; [exact IHd|].
    now f_equal.
Qed.

Lemma keys_filter_incl p d k :
  In k (Dict.keys (filter p d)) -> In k (Dict.keys d).
Proof.
  unfold Dict.keys. rewrite !in_map_iff.
  intros [e [He Hin]]. apply filter_In in Hin. exists e. tauto.
Qed.

Lemma NoDup_keys_filter p d :
  NoDup (Dict.keys d) -> NoDup (Dict.keys (filter p d)).
Proof.
  induction d as [|[k v] d IH]; simpl; intros Hnd; [constructor|].
  inversion Hnd as [|? ? Hk Hnd']; subst.
  destruct (p (k, v)); simpl; [|now apply IH].
  constructor; [|now apply IH].
  intros Hin. apply Hk. eapply keys_filter_incl; eauto.
Qed.

Lemma get_filter p d k :
  NoDup (Dict.keys d) ->
  Dict.get (filter p d) k =
  match Dict.get d k with
  | Some v => if p (k, v) then Some v else None
  | None => None
  end.
Proof.
  induction d as [|[k0 v0] d IH]; simpl; intros Hnd; [reflexivity|].
  inversion Hnd as [|? ? Hk Hnd']; subst.
  destruct (Z.eqb_spec k0 k) as [->|Hne].
  - destruct (p (k, v0)) eqn:Hp; simpl.
    + now rewrite Z.eqb_refl.
    + apply get_None. intros Hin. apply Hk.
      eapply keys_filter_incl; eauto.
  - destruct (p (k0, v0)); simpl.
    + destruct (Z.eqb_spec k0 k); [congruence|]. now apply IH.
    + now apply IH.
Qed.

End Facts.
End DictFacts.

(** ** The inner matching loop *)

Section FindMatch.
Variables (gate : Z) (c : point).

Local Abbreviation dist t := (_distance_sq c (centroid t)).

(** Either the accumulator survives the loop, and then no candidate of
    the list is below it, or the loop settles on the first candidate of
    least distance. *)
Lemma find_match_spec : forall objs acc,
  (find_match gate c objs acc = acc /\
   forall id t, In (id, t) objs -> candidate gate c t = true ->
                Py.lt_inf (dist t) (snd acc) = false)
  \/
  (exists l1 id t l2,
      objs = l1 ++ (id, t) :: l2 /\
      find_match gate c objs acc = (Some id, Some (dist t)) /\
      candidate gate c t = true /\
      Py.lt_inf (dist t) (snd acc) = true /\
      (forall id' t', In (id', t') l1 -> candidate gate c t' = true ->
                      dist t < dist t') /\
      (forall id' t', In (id', t') l2 -> candidate gate c t' = true ->
                      dist t <= dist t')).
Proof.
  induction objs as [|[id t] rest IH]; intros acc.
  - left. split; [reflexivity|]. intros ? ? [].
  - simpl.
    destruct (String.eqb (status t) "active") eqn:Hact; simpl.
    + destruct (Py.lt_inf (dist t) (snd acc) && (dist t <? gate)) eqn:Hb.
      * apply andb_true_iff in Hb. destruct Hb as [Hlt Hg].
        destruct (IH (Some id, Some (dist t)))
          as [[Heq Hno]|(l1 & id' & t' & l2 & Hs & Hr & Hc & Hl & H1 & H2)].
        -- right. exists [], id, t, rest. simpl.
           repeat split; auto.
           ++ unfold candidate. now rewrite Hact, Hg.
           ++ intros ? ? [].
           ++ intros id' t' Hin Hc. specialize (Hno _ _ Hin Hc).
              simpl in Hno. apply Z.ltb_ge in Hno. exact Hno.
        -- right. exists ((id, t) :: l1), id', t', l2. simpl in Hl.
           apply Z.ltb_lt in Hl.
           repeat split; auto.
           ++ simpl. now rewrite Hs.
           ++ destruct (snd acc) as [m|]; simpl in *; [|reflexivity].
              apply Z.ltb_lt in Hlt. apply Z.ltb_lt. lia.
           ++ intros id0 t0 [[= <- <-]|Hin] Hc0; [exact Hl|eauto].
      * destruct (IH acc)
          as [[Heq Hno]|(l1 & id' & t' & l2 & Hs & Hr & Hc & Hl & H1 & H2)].
        -- left. split; [exact Heq|].
           intros id0 t0 [[= <- <-]|Hin] Hc0; [|eauto].
           unfold candidate in Hc0.
           rewrite Hact in Hc0. simpl in Hc0. rewrite Hc0 in Hb.
           now rewrite andb_true_r in Hb.
        -- right. exists ((id, t) :: l1), id', t', l2.
           repeat split; auto.
           ++ simpl. now rewrite Hs.
           ++ intros id0 t0 [[= <- <-]|Hin] Hc0; [|eauto].
              unfold candidate in Hc0.
              rewrite Hact in Hc0. simpl in Hc0. rewrite Hc0 in Hb.
              rewrite andb_true_r in Hb.
              destruct (snd acc) as [m|]; simpl in *; [|discriminate].
              apply Z.ltb_ge in Hb. apply Z.ltb_lt in Hl. lia.
    + destruct (IH acc)
        as [[Heq Hno]|(l1 & id' & t' & l2 & Hs & Hr & Hc & Hl & H1 & H2)].
      * left. split; [exact Heq|].
        intros id0 t0 [[= <- <-]|Hin] Hc0; [|eauto].
        unfold candidate in Hc0. now rewrite Hact in Hc0.
      * right. exists ((id, t) :: l1), id', t', l2.
        repeat split; auto.
        -- simpl. now rewrite Hs.
        -- intros id0 t0 [[= <- <-]|Hin] Hc0; [|eauto].
           unfold candidate in Hc0. now rewrite Hact in Hc0.
Qed.

(** From the empty accumulator: no match exactly when no track is a
    candidate. *)
Lemma find_match_None objs :
  fst (find_match gate c objs (None, None)) = None ->
  forall id t, In (id, t) objs -> candidate gate c t = false.
Proof.
  intros Hr id t Hin.
  destruct (find_match_spec objs (None, None))
    as [[_ Hno]|(l1 & id' & t' & l2 & _ & Hm & _)].
  - destruct (candidate gate c t) eqn:Hc; [|reflexivity].
    specialize (Hno _ _ Hin Hc). discriminate.
  - rewrite Hm in Hr. discriminate.
Qed.

Lemma find_match_Some objs id :
  fst (find_match gate c objs (None, None)) = Some id ->
  exists l1 t l2,
    objs = l1 ++ (id, t) :: l2 /\
    candidate gate c t = true /\
    (forall id' t', In (id', t') l1 -> candidate gate c t' = true ->
                    dist t < dist t') /\
    (forall id' t', In (id', t') l2 -> candidate gate c t' = true ->
                    dist t <= dist t').
Proof.
  intros Hr.
  destruct (find_match_spec objs (None, None))
    as [[Heq _]|(l1 & id' & t' & l2 & Hs & Hm & Hc & _ & H1 & H2)].
  - rewrite Heq in Hr. discriminate.
  - rewrite Hm in Hr. simpl in Hr. injection Hr as <-.
    exists l1, t', l2. auto.
Qed.

End FindMatch.

(** ** The association loop *)

Lemma set_add_In k s x : In x (Py.set_add k s) <-> x = k \/ In x s.
Proof.
  induction s as [|k' s IH]; simpl.
  - intuition congruence.
  - destruct (Z.eqb_spec k' k) as [->|Hne]; simpl.
    + intuition congruence.
    + rewrite IH. intuition congruence.
Qed.

(** The two outcomes of one iteration of the detection loop. *)
Lemma associate_one_cases self upd d :
  let b := det_box d in
  let c := _get_centroid b in
  (exists l1 id t l2,
      tracked_objects self = l1 ++ (id, t) :: l2 /\
      candidate (max_dist_sq self) c t = true /\
      (forall id' t', In (id', t') l1 ->
         candidate (max_dist_sq self) c t' = true ->
         _distance_sq c (centroid t) < _distance_sq c (centroid t')) /\
      (forall id' t', In (id', t') l2 ->
         candidate (max_dist_sq self) c t' = true ->
         _distance_sq c (centroid t) <= _distance_sq c (centroid t')) /\
      associate_one (self, upd) d =
      (with_objects self
         (Dict.modify (tracked_objects self) id (touch b c (frame_id self)))
         (next_id self),
       Py.set_add id upd))
  \/
  ((forall id t, In (id, t) (tracked_objects self) ->
      candidate (max_dist_sq self) c t = false) /\
   associate_one (self, upd) d =
   (with_objects self
      (Dict.set (tracked_objects self) (next_id self)
         (new_track b c (frame_id self)))
      (next_id self + 1),
    Py.set_add (next_id self) upd)).
Proof.
  intros b c. unfold associate_one. fold b. fold c.
  destruct (fst (find_match (max_dist_sq self) c (tracked_objects self)
                   (None, None))) as [id|] eqn:Hm.
  - left. destruct (find_match_Some _ _ _ _ Hm)
      as (l1 & t & l2 & Hs & Hc & H1 & H2).
    exists l1, id, t, l2. auto.
  - right. split; [|reflexivity].
    exact (find_match_None _ _ _ Hm).
Qed.

Lemma wf_fresh self : wf self -> ~ In (next_id self) (Dict.keys (tracked_objects self)).
Proof.
  intros [_ Hlt] Hin. rewrite Forall_forall in Hlt.
  specialize (Hlt _ Hin). lia.
Qed.

Section Associate.
Variable self0 : PeopleTracker.
Hypothesis wf0 : wf self0.

Lemma assoc_inv_init : assoc_inv self0 (self0, []).
Proof.
  refine (conj _ (conj _ (conj _ (conj _ (conj _ _))))).
  - reflexivity.
  - lia.
  - exact wf0.
  - intros k t H. exists t. unfold same_marks. repeat split; auto.
  - intros k t' H H0. rewrite H0 in H. discriminate.
  - intros k [].
Qed.

Lemma assoc_inv_step su d :
  assoc_inv self0 su -> assoc_inv self0 (associate_one su d).
Proof.
  destruct su as [s upd].
  intros (Hset & Hnid & Hwf & Hold & Hnew & Hupd).
  destruct (associate_one_cases s upd d)
    as [(l1 & id & t & l2 & Hs & _ & _ & _ & ->)|[_ ->]];
    refine (conj _ (conj _ (conj _ (conj _ (conj _ _))))); simpl.
  - exact Hset.
  - exact Hnid.
  - split; simpl; rewrite DictFacts.keys_modify; apply Hwf.
  - intros k t0 Hk. destruct (Hold _ _ Hk) as (t' & Hg & Hm & Hsame).
    rewrite DictFacts.get_modify.
    destruct (Z.eqb_spec id k) as [->|Hne].
    + rewrite Hg. simpl. eexists. split; [reflexivity|]. split.
      * destruct Hm as (? & ? & ? & ?). unfold same_marks. simpl. auto.
      * intros Hn. exfalso. apply Hn. apply set_add_In. now left.
    + exists t'. split; [exact Hg|]. split; [exact Hm|].
      intros Hn. apply Hsame. intros Hin. apply Hn.
      apply set_add_In. now right.
  - intros k t' H H0. rewrite DictFacts.get_modify in H.
    destruct (Z.eqb_spec id k) as [->|Hne].
    + destruct (Dict.get (tracked_objects s) k) as [t1|] eqn:Hget;
        [|discriminate].
      simpl in H. injection H as <-.
      destruct (Hnew _ _ Hget H0) as (? & ? & ? & ?). simpl.
      repeat split; auto. apply set_add_In. now left.
    + destruct (Hnew _ _ H H0) as (? & ? & ? & ?).
      repeat split; auto. apply set_add_In. now right.
  - intros k Hin. apply set_add_In in Hin.
    rewrite DictFacts.get_modify.
    assert (Hget : Dict.get (tracked_objects s) id = Some t).
    { apply DictFacts.In_get; [apply Hwf|].
      rewrite Hs. apply in_elt. }
    destruct (Z.eqb_spec id k) as [->|Hne].
    + rewrite Hget. simpl. eexists. split; reflexivity.
    + destruct Hin as [->|Hin]; [congruence|]. now apply Hupd.
  - exact Hset.
  - lia.
  - pose proof (wf_fresh _ Hwf) as Hfresh.
    rewrite (DictFacts.set_fresh _ _ _ Hfresh).
    split; simpl; rewrite DictFacts.keys_app; simpl.
    + apply NoDup_app; [apply Hwf|repeat constructor; intros []|].
      intros x Hx [<-|[]]. contradiction.
    + apply Forall_app. split.
      * destruct Hwf as [_ Hlt]. eapply Forall_impl; [|exact Hlt].
        simpl. intros; lia.
      * repeat constructor. lia.
  - pose proof (wf_fresh _ Hwf) as Hfresh.
    rewrite (DictFacts.set_fresh _ _ _ Hfresh).
    intros k t0 Hk. destruct (Hold _ _ Hk) as (t' & Hg & Hm & Hsame).
    exists t'. rewrite DictFacts.get_app_fresh, Hg.
    split; [reflexivity|]. split; [exact Hm|].
    intros Hn. apply Hsame. intros Hin. apply Hn.
    apply set_add_In. now right.
  - pose proof (wf_fresh _ Hwf) as Hfresh.
    rewrite (DictFacts.set_fresh _ _ _ Hfresh).
    intros k t' H H0. rewrite DictFacts.get_app_fresh in H.
    destruct (Dict.get (tracked_objects s) k) eqn:Hg.
    + injection H as <-.
      destruct (Hnew _ _ Hg H0) as (? & ? & ? & ?).
      repeat split; auto. apply set_add_In. now right.
    + destruct (Z.eqb_spec (next_id s) k) as [<-|]; [|discriminate].
      injection H as <-. simpl.
      repeat split; auto. apply set_add_In. now left.
  - pose proof (wf_fresh _ Hwf) as Hfresh.
    rewrite (DictFacts.set_fresh _ _ _ Hfresh).
    assert (Hnone : Dict.get (tracked_objects s) (next_id s) = None)
      by now apply DictFacts.get_None.
    intros k Hin. apply set_add_In in Hin.
    rewrite DictFacts.get_app_fresh.
    destruct Hin as [->|Hin].
    + rewrite Hnone, Z.eqb_refl. eexists. split; reflexivity.
    + destruct (Hupd _ Hin) as (t' & -> & Hl). now exists t'.
Qed.

Lemma assoc_inv_fold ds : forall su,
  assoc_inv self0 su -> assoc_inv self0 (fold_left associate_one ds su).
Proof.
  induction ds as [|d ds IH]; intros su H; simpl; [exact H|].
  apply IH. now apply assoc_inv_step.
Qed.

Lemma associate_inv ds : assoc_inv self0 (associate self0 ds).
Proof. apply assoc_inv_fold, assoc_inv_init. Qed.

End Associate.

(** ** Stale removal *)

Lemma stale_ids_mem self k t :
  NoDup (Dict.keys (tracked_objects self)) ->
  In (k, t) (tracked_objects self) ->
  existsb (Z.eqb k) (stale_ids self) = is_stale self t.
Proof.
  intros Hnd Hin. unfold stale_ids.
  destruct (is_stale self t) eqn:Hst.
  - apply existsb_exists. exists k. split; [|apply Z.eqb_refl].
    apply (DictFacts.In_keys _ k t). apply filter_In. auto.
  - destruct (existsb _ _) eqn:Hex; [|reflexivity].
    apply existsb_exists in Hex. destruct Hex as (k' & Hk' & Heq).
    apply Z.eqb_eq in Heq. subst k'.
    unfold Dict.keys in Hk'. apply in_map_iff in Hk'.
    destruct Hk' as ([k1 t1] & Hk1 & Hin1). simpl in Hk1. subst k1.
    apply filter_In in Hin1. destruct Hin1 as [Hin1 Hst1]. simpl in Hst1.
    pose proof (DictFacts.In_get _ _ _ Hnd Hin) as G.
    pose proof (DictFacts.In_get _ _ _ Hnd Hin1) as G1.
    congruence.
Qed.

Lemma remove_stale_objects self :
  NoDup (Dict.keys (tracked_objects self)) ->
  tracked_objects (remove_stale self) =
  filter (fun e => negb (is_stale self (snd e))) (tracked_objects self).
Proof.
  intros Hnd. unfold remove_stale. simpl. rewrite DictFacts.fold_del.
  apply filter_ext_in. intros [k t] Hin. simpl.
  now rewrite (stale_ids_mem self k t Hnd Hin).
Qed.

Lemma remove_stale_settings self : settings (remove_stale self) = settings self.
Proof. reflexivity. Qed.

Lemma remove_stale_wf self : wf self -> wf (remove_stale self).
Proof.
  intros [Hnd Hlt]. unfold wf.
  rewrite (remove_stale_objects self Hnd). split.
  - now apply DictFacts.NoDup_keys_filter.
  - apply Forall_forall. intros k Hk.
    rewrite Forall_forall in Hlt. apply Hlt.
    eapply DictFacts.keys_filter_incl; eauto.
Qed.

Lemma remove_stale_get self k :
  NoDup (Dict.keys (tracked_objects self)) ->
  Dict.get (tracked_objects (remove_stale self)) k =
  match Dict.get (tracked_objects self) k with
  | Some t => if is_stale self t then None else Some t
  | None => None
  end.
Proof.
  intros Hnd. rewrite (remove_stale_objects self Hnd).
  rewrite DictFacts.get_filter by exact Hnd.
  destruct (Dict.get (tracked_objects self) k) as [t|]; [|reflexivity].
  simpl. now destruct (is_stale self t).
Qed.

(** ** The counting loop *)

Lemma count_one_eq ln t ic oc :
  count_one ln t ic oc =
  (counted_track ln t, ic + bump (crossing_in ln t),
   oc + bump (crossing_out ln t)).
Proof.
  unfold counted_track, count_one, crossing_in, crossing_out.
  destruct (fst (centroid t) <? split_x ln); simpl;
    destruct (entry_y ln <? box_y2 (bbox t)); simpl;
    destruct (counted_in t); simpl;
    destruct (box_y1 (bbox t) <? exit_y ln); simpl;
    destruct (counted_out t); simpl; rewrite ?Z.add_0_r; reflexivity.
Qed.

Lemma count_loop_eq ln : forall objs ic oc,
  count_loop ln objs ic oc =
  (map (fun e => (fst e, counted_track ln (snd e))) objs,
   ic + events (crossing_in ln) objs,
   oc + events (crossing_out ln) objs).
Proof.
  unfold events.
  induction objs as [|[k t] objs IH]; intros ic oc; simpl.
  - f_equal; [f_equal|]; lia.
  - rewrite count_one_eq, IH.
    destruct (crossing_in ln t), (crossing_out ln t); simpl bump;
      simpl List.length;
      (apply f_equal2; [apply f_equal2; [reflexivity|]|]); lia.
Qed.

Lemma get_map_counted ln objs k :
  Dict.get (map (fun e => (fst e, counted_track ln (snd e))) objs) k =
  option_map (counted_track ln) (Dict.get objs k).
Proof.
  induction objs as [|[k0 t0] objs IH]; simpl; [reflexivity|].
  destruct (k0 =? k); [reflexivity|exact IH].
Qed.

Lemma keys_map_counted ln objs :
  Dict.keys (map (fun e => (fst e, counted_track ln (snd e))) objs) =
  Dict.keys objs.
Proof. unfold Dict.keys. rewrite map_map. reflexivity. Qed.

Lemma events_nonneg ev objs : 0 <= events ev objs.
Proof. unfold events. lia. Qed.

Lemma counted_track_eq ln t :
  counted_track ln t =
  {| bbox := bbox t;
     centroid := centroid t;
     lane := if fst (centroid t) <? split_x ln then lane_enter else lane_exit;
     status := status t;
     counted_in := counted_in t || crossing_in ln t;
     counted_out := counted_out t || crossing_out ln t;
     last_frame_id := last_frame_id t |}.
Proof.
  destruct t as [b c l s ci co lf].
  unfold counted_track, count_one, crossing_in, crossing_out. simpl.
  destruct (fst c <? split_x ln); simpl;
    destruct (entry_y ln <? box_y2 b); simpl;
    destruct ci; simpl;
    destruct (box_y1 b <? exit_y ln); simpl;
    destruct co; reflexivity.
Qed.

(** ** The phases of [update] *)

Lemma modes_differ : String.eqb Eagle_Eye Lane_Counter = false.
Proof. reflexivity. Qed.

Lemma init_thresholds_other self fr :
  mode self <> Lane_Counter -> init_thresholds self fr = Some self.
Proof.
  intros H. unfold init_thresholds.
  destruct (String.eqb_spec (mode self) Lane_Counter); [contradiction|].
  reflexivity.
Qed.

Lemma init_thresholds_keeps self fr s1 :
  init_thresholds self fr = Some s1 ->
  tracked_objects s1 = tracked_objects self /\ next_id s1 = next_id self /\
  mode s1 = mode self /\ in_count s1 = in_count self /\
  out_count s1 = out_count self /\ frame_id s1 = frame_id self /\
  max_dist_sq s1 = max_dist_sq self /\
  stale_frame_threshold s1 = stale_frame_threshold self.
Proof.
  unfold init_thresholds.
  destruct (String.eqb (mode self) Lane_Counter).
  - destruct (if_unset (entry_y_threshold self) _); [|discriminate].
    destruct (if_unset (exit_y_threshold self) _); [|discriminate].
    intros [= <-]. simpl. repeat split.
  - intros [= <-]. repeat split.
Qed.

Lemma init_thresholds_lane self fr s1 :
  mode self = Lane_Counter ->
  init_thresholds self fr = Some s1 ->
  lane_split_x s1 = if_unset (lane_split_x self) (Some (frame_w fr / 2)) /\
  entry_y_threshold s1 =
    if_unset (entry_y_threshold self) (entry_line (frame_h fr)) /\
  exit_y_threshold s1 =
    if_unset (exit_y_threshold self) (exit_line (frame_h fr)).
Proof.
  unfold init_thresholds. intros ->. simpl.
  destruct (if_unset (entry_y_threshold self) _) eqn:He; [|discriminate].
  destruct (if_unset (exit_y_threshold self) _) eqn:Hx; [|discriminate].
  intros [= <-]. simpl. auto.
Qed.

(** Once set, a boundary is never written again. *)
Lemma init_thresholds_fixed self fr s1 :
  init_thresholds self fr = Some s1 ->
  (forall v, lane_split_x self = Some v -> lane_split_x s1 = Some v) /\
  (forall v, entry_y_threshold self = Some v ->
             entry_y_threshold s1 = Some v) /\
  (forall v, exit_y_threshold self = Some v ->
             exit_y_threshold s1 = Some v).
Proof.
  unfold init_thresholds.
  destruct (String.eqb (mode self) Lane_Counter).
  - destruct (if_unset (entry_y_threshold self) _) eqn:He; [|discriminate].
    destruct (if_unset (exit_y_threshold self) _) eqn:Hx; [|discriminate].
    intros [= <-]. simpl. repeat split; intros v Hv; rewrite Hv in *;
      simpl in *; congruence.
  - intros [= <-]. auto.
Qed.

Lemma init_thresholds_wf self fr s1 :
  init_thresholds self fr = Some s1 -> wf self -> wf s1.
Proof.
  intros H. apply init_thresholds_keeps in H.
  destruct H as (Ho & Hn & _). unfold wf. now rewrite Ho, Hn.
Qed.

Lemma associate_one_settings su d :
  settings (fst (associate_one su d)) = settings (fst su).
Proof.
  destruct su as [s upd].
  destruct (associate_one_cases s upd d)
    as [(l1 & id & t & l2 & _ & _ & _ & _ & ->)|[_ ->]]; reflexivity.
Qed.

Lemma associate_settings ds : forall su,
  settings (fst (fold_left associate_one ds su)) = settings (fst su).
Proof.
  induction ds as [|d ds IH]; intros su; simpl; [reflexivity|].
  rewrite IH. apply associate_one_settings.
Qed.

Lemma update_phases self dets fr s' r :
  update self dets fr = Some (s', r) ->
  exists s1 s2 upd n,
    init_thresholds (tick self) fr = Some s1 /\
    associate s1 (current_persons_detections dets) = (s2, upd) /\
    associated self dets fr = Some (s2, upd) /\
    count (remove_stale s2) (current_persons_detections dets) = Some (s', n) /\
    r = (in_count s', out_count s', n).
Proof.
  unfold update, associated.
  destruct (init_thresholds (tick self) fr) as [s1|]; [|discriminate].
  destruct (associate s1 _) as [s2 upd] eqn:Ha.
  destruct (count (remove_stale s2) _) as [[s4 n]|] eqn:Hc; [|discriminate].
  intros [= <- <-]. exists s1, s2, upd, n. auto.
Qed.

(** The three ways the counting phase can end. *)
Lemma count_cases self persons s' n :
  count self persons = Some (s', n) ->
  (mode self = Eagle_Eye /\ s' = self /\
   n = Z.of_nat (List.length persons))
  \/
  (mode self = Lane_Counter /\
   exists ln, lines_of self = Some ln /\
     s' = with_counts self
            (map (fun e => (fst e, counted_track ln (snd e)))
               (tracked_objects self))
            (in_count self + events (crossing_in ln) (tracked_objects self))
            (out_count self + events (crossing_out ln) (tracked_objects self))
     /\ n = in_count s' - out_count s')
  \/
  (mode self <> Eagle_Eye /\ mode self <> Lane_Counter /\ s' = self /\ n = 0).
Proof.
  unfold count.
  destruct (String.eqb_spec (mode self) Eagle_Eye) as [He|He].
  - intros [= <- <-]. left. auto.
  - destruct (String.eqb_spec (mode self) Lane_Counter) as [Hl|Hl].
    + destruct (lines_of self) as [ln|]; [|discriminate].
      rewrite count_loop_eq. intros [= <- <-].
      right. left. split; [exact Hl|]. exists ln. auto.
    + intros [= <- <-]. right. right. auto.
Qed.

(** The counting phase keeps every id, and of a track everything but its
    lane and its two marks, which it can only raise. *)
Lemma count_get self persons s' n :
  count self persons = Some (s', n) ->
  forall k,
    match Dict.get (tracked_objects self) k with
    | Some t =>
        exists t', Dict.get (tracked_objects s') k = Some t' /\
          bbox t' = bbox t /\ centroid t' = centroid t /\
          status t' = status t /\ last_frame_id t' = last_frame_id t /\
          (counted_in t = true -> counted_in t' = true) /\
          (counted_out t = true -> counted_out t' = true) /\
          (mode self <> Lane_Counter -> t' = t)
    | None => Dict.get (tracked_objects s') k = None
    end.
Proof.
  intros H k. apply count_cases in H.
  destruct H as [(Hm & -> & _)|[(Hm & ln & _ & -> & _)|(_ & _ & -> & _)]].
  - destruct (Dict.get (tracked_objects self) k) as [t|]; [|reflexivity].
    exists t. repeat split; auto.
  - simpl. rewrite get_map_counted.
    destruct (Dict.get (tracked_objects self) k) as [t|]; [|reflexivity].
    simpl. eexists. split; [reflexivity|].
    rewrite counted_track_eq. simpl. repeat split; auto.
    + intros ->. reflexivity.
    + intros ->. reflexivity.
    + congruence.
  - destruct (Dict.get (tracked_objects self) k) as [t|]; [|reflexivity].
    exists t. repeat split; auto.
Qed.

Lemma count_settings self persons s' n :
  count self persons = Some (s', n) ->
  mode s' = mode self /\ lane_split_x s' = lane_split_x self /\
  entry_y_threshold s' = entry_y_threshold self /\
  exit_y_threshold s' = exit_y_threshold self /\
  next_id s' = next_id self /\ frame_id s' = frame_id self /\
  max_dist_sq s' = max_dist_sq self /\
  stale_frame_threshold s' = stale_frame_threshold self /\
  Dict.keys (tracked_objects s') = Dict.keys (tracked_objects self) /\
  in_count self <= in_count s' /\ out_count self <= out_count s'.
Proof.
  intros H. apply count_cases in H.
  destruct H as [(Hm & -> & _)|[(Hm & ln & _ & -> & _)|(_ & _ & -> & _)]];
    simpl; repeat split; try lia.
  - apply keys_map_counted.
  - pose proof (events_nonneg (crossing_in ln) (tracked_objects self)). lia.
  - pose proof (events_nonneg (crossing_out ln) (tracked_objects self)). lia.
Qed.

(** ** reset_counts *)

(** C5: [reset_counts] is a total function of the tracker state; after it
    in_count = 0, out_count = 0, the track set is empty, the next id is 0
    and the frame counter is 0, while lane_split_x, entry_y_threshold and
    exit_y_threshold (and the mode and the two tuning constants) keep the
    values they had. *)
Theorem reset_counts_clears_and_keeps_boundaries : forall self,
  in_count (reset_counts self) = 0 /\
  out_count (reset_counts self) = 0 /\
  tracked_objects (reset_counts self) = [] /\
  next_id (reset_counts self) = 0 /\
  frame_id (reset_counts self) = 0 /\
  lane_split_x (reset_counts self) = lane_split_x self /\
  entry_y_threshold (reset_counts self) = entry_y_threshold self /\
  exit_y_threshold (reset_counts self) = exit_y_threshold self /\
  mode (reset_counts self) = mode self /\
  max_dist_sq (reset_counts self) = max_dist_sq self /\
  stale_frame_threshold (reset_counts self) = stale_frame_threshold self.
Proof. intros self. repeat split. Qed.

(** ** Eagle-Eye mode *)

Lemma update_eagle_eye self dets fr :
  mode self = Eagle_Eye ->
  update self dets fr =
  Some (remove_stale
          (fst (associate (tick self) (current_persons_detections dets))),
        (in_count self, out_count self,
         Z.of_nat (List.length (current_persons_detections dets)))).
Proof.
  intros Hm. unfold update, associated.
  rewrite init_thresholds_other
    by (simpl; rewrite Hm; discriminate).
  destruct (associate (tick self) _) as [s2 upd] eqn:Ha.
  pose proof (associate_settings (current_persons_detections dets)
                (tick self, [])) as Hs.
  fold (associate (tick self) (current_persons_detections dets)) in Hs.
  rewrite Ha in Hs. simpl fst in Hs.
  injection Hs as Hmode _ _ _ Hin Hout _ _ _.
  unfold count. simpl fst.
  replace (mode (remove_stale s2)) with Eagle_Eye
    by (simpl; congruence).
  rewrite String.eqb_refl. simpl. now rewrite Hin, Hout.
Qed.

(** C6: a call to [update] in Eagle-Eye mode that returns reports as
    total the number of detections of this frame labelled 'person',
    whatever the tracker state (tracks, counters, frame history) and the
    frame size. *)
Theorem eagle_eye_total_counts_person_detections :
  forall self dets fr s' ic oc total,
    mode self = Eagle_Eye ->
    update self dets fr = Some (s', (ic, oc, total)) ->
    total =
    Z.of_nat (List.length
                (filter (fun d => String.eqb (snd d) "person") dets)).
Proof.
  intros self dets fr s' ic oc total Hm Hu.
  rewrite (update_eagle_eye self dets fr Hm) in Hu.
  now injection Hu as _ _ _ <-.
Qed.

Lemma eagle_eye_total_counts_person_detections_witness :
  mode (busy_tracker Eagle_Eye) = Eagle_Eye /\
  exists s',
    update (busy_tracker Eagle_Eye) sample_detections vga =
    Some (s', (4, 1, 2)) /\
    2 = Z.of_nat (List.length
                    (filter (fun d => String.eqb (snd d) "person")
                       sample_detections)).
Proof.
  split; [reflexivity|].
  destruct (update (busy_tracker Eagle_Eye) sample_detections vga)
    as [[s' [[ic oc] total]]|] eqn:Hu; [|vm_compute in Hu; discriminate].
  pose proof (eagle_eye_total_counts_person_detections
                (busy_tracker Eagle_Eye) sample_detections vga
                s' ic oc total eq_refl Hu) as Ht.
  exists s'. split; [|reflexivity].
  rewrite Ht. vm_compute in Hu. injection Hu as _ <- <- _. reflexivity.
Defined.

Lemma wf_busy_tracker m : wf (busy_tracker m).
Proof.
  split; simpl.
  - repeat constructor; simpl; intuition lia.
  - repeat constructor; lia.
Qed.

(** ** What every call to [update] keeps *)

Lemma associated_inv self dets fr s2 upd :
  wf self ->
  associated self dets fr = Some (s2, upd) ->
  exists s1,
    init_thresholds (tick self) fr = Some s1 /\
    tracked_objects s1 = tracked_objects self /\
    next_id s1 = next_id self /\
    frame_id s1 = frame_id self + 1 /\
    stale_frame_threshold s1 = stale_frame_threshold self /\
    assoc_inv s1 (s2, upd).
Proof.
  intros Hwf. unfold associated.
  destruct (init_thresholds (tick self) fr) as [s1|] eqn:Hi; [|discriminate].
  intros [= Ha]. exists s1.
  pose proof (init_thresholds_keeps _ _ _ Hi)
    as (Ho & Hn & _ & _ & _ & Hf & _ & Hst).
  refine (conj eq_refl (conj Ho (conj Hn (conj _ (conj Hst _))))).
  - rewrite Hf. reflexivity.
  - rewrite <- Ha. apply associate_inv.
    apply (init_thresholds_wf _ _ _ Hi). exact Hwf.
Qed.

Lemma update_wf self dets fr s' r :
  wf self -> update self dets fr = Some (s', r) ->
  wf s' /\ next_id self <= next_id s'.
Proof.
  intros Hwf Hu.
  destruct (update_phases _ _ _ _ _ Hu)
    as (s1 & s2 & upd & n & Hi & Ha & Has & Hc & _).
  destruct (associated_inv _ _ _ _ _ Hwf Has)
    as (s1' & _ & _ & Hn1 & _ & _ & Hinv).
  destruct Hinv as (_ & Hnid & Hwf2 & _).
  apply remove_stale_wf in Hwf2.
  pose proof (count_settings _ _ _ _ Hc)
    as (_ & _ & _ & _ & Hn & _ & _ & _ & Hk & _).
  unfold wf in *. rewrite Hk, Hn. simpl in *. split; [exact Hwf2|lia].
Qed.

Lemma update_settings self dets fr s' r :
  update self dets fr = Some (s', r) ->
  mode s' = mode self /\ frame_id s' = frame_id self + 1 /\
  max_dist_sq s' = max_dist_sq self /\
  stale_frame_threshold s' = stale_frame_threshold self /\
  in_count self <= in_count s' /\ out_count self <= out_count s' /\
  (forall v, lane_split_x self = Some v -> lane_split_x s' = Some v) /\
  (forall v, entry_y_threshold self = Some v ->
             entry_y_threshold s' = Some v) /\
  (forall v, exit_y_threshold self = Some v ->
             exit_y_threshold s' = Some v).
Proof.
  intros Hu.
  destruct (update_phases _ _ _ _ _ Hu)
    as (s1 & s2 & upd & n & Hi & Ha & _ & Hc & _).
  pose proof (init_thresholds_keeps _ _ _ Hi)
    as (_ & _ & Hm1 & Hi1 & Ho1 & Hf1 & Hd1 & Hs1).
  pose proof (init_thresholds_fixed _ _ _ Hi) as (Hl & He & Hx).
  pose proof (associate_settings (current_persons_detections dets) (s1, []))
    as Hs.
  fold (associate s1 (current_persons_detections dets)) in Hs.
  rewrite Ha in Hs. simpl fst in Hs.
  injection Hs as Hm2 Hl2 He2 Hx2 Hi2 Ho2 Hf2 Hd2 Hs2.
  pose proof (count_settings _ _ _ _ Hc)
    as (Hm3 & Hl3 & He3 & Hx3 & _ & Hf3 & Hd3 & Hs3 & _ & Hi3 & Ho3).
  simpl in *.
  repeat split; try congruence; try lia.
  - intros v Hv. rewrite Hl3, Hl2. now apply Hl.
  - intros v Hv. rewrite He3, He2. now apply He.
  - intros v Hv. rewrite Hx3, Hx2. now apply Hx.
Qed.

Lemma wf_init m : wf (init m).
Proof. split; constructor. Qed.

Lemma wf_exec cs : forall self s',
  wf self -> exec self cs = Some s' -> wf s'.
Proof.
  induction cs as [|c cs IH]; intros self s' Hwf; simpl.
  - now intros [= <-].
  - destruct (exec_call self c) as [s|] eqn:Hc; [|discriminate].
    apply IH. destruct c as [dets fr| |m]; simpl in Hc.
    + destruct (update self dets fr) as [[s0 r]|] eqn:Hu; [|discriminate].
      injection Hc as <-. eapply update_wf; eauto.
    + injection Hc as <-. split; constructor.
    + injection Hc as <-. exact Hwf.
Qed.

(** A tracker obtained from [init] by calls is well formed. *)
Lemma reachable_wf m cs s : exec (init m) cs = Some s -> wf s.
Proof. apply wf_exec, wf_init. Qed.

Lemma length_modify (d : Dict.t track) k f :
  List.length (Dict.modify d k f) = List.length d.
Proof.
  induction d as [|[k0 v0] d IH]; simpl; [reflexivity|].
  destruct (k0 =? k); simpl; [reflexivity|]. now rewrite IH.
Qed.

Lemma length_set (d : Dict.t track) k v :
  (List.length d <= List.length (Dict.set d k v) <= List.length d + 1)%nat.
Proof.
  induction d as [|[k0 v0] d IH]; simpl; [lia|].
  destruct (k0 =? k); simpl; lia.
Qed.

Lemma associate_one_growth su d :
  let su' := associate_one su d in
  next_id (fst su) <= next_id (fst su') <= next_id (fst su) + 1 /\
  Z.of_nat (List.length (tracked_objects (fst su'))) -
  Z.of_nat (List.length (tracked_objects (fst su)))
  <= next_id (fst su') - next_id (fst su).
Proof.
  destruct su as [s upd]. cbv zeta.
  destruct (associate_one_cases s upd d)
    as [(l1 & id & t & l2 & _ & _ & _ & _ & ->)|[_ ->]]; simpl.
  - rewrite length_modify. lia.
  - pose proof (length_set (tracked_objects s) (next_id s)
                  (new_track (det_box d) (_get_centroid (det_box d))
                     (frame_id s))). lia.
Qed.

Lemma associate_growth ds : forall su,
  let su' := fold_left associate_one ds su in
  next_id (fst su) <= next_id (fst su')
    <= next_id (fst su) + Z.of_nat (List.length ds) /\
  Z.of_nat (List.length (tracked_objects (fst su'))) -
  Z.of_nat (List.length (tracked_objects (fst su)))
  <= next_id (fst su') - next_id (fst su).
Proof.
  induction ds as [|d ds IH]; intros su; cbv zeta.
  - simpl. lia.
  - cbn [fold_left]. specialize (IH (associate_one su d)). cbv zeta in IH.
    pose proof (associate_one_growth su d) as H1. cbv zeta in H1.
    cbn [List.length]. lia.
Qed.

(** C10 (counterexample): the frame counter and the track set are not
    all that an Eagle-Eye call changes: on this input a track is created
    and the id allocator next_id moves from 6 to 7. *)
Lemma eagle_eye_update_moves_the_id_allocator :
  exists s' r,
    mode (busy_tracker Eagle_Eye) = Eagle_Eye /\
    update (busy_tracker Eagle_Eye) sample_detections vga = Some (s', r) /\
    next_id (busy_tracker Eagle_Eye) = 6 /\ next_id s' = 7.
Proof.
  vm_compute. eexists _, _. repeat split.
Qed.

(** C10 (amended): after a call to [update] in Eagle-Eye mode that returns,
    in_count, out_count, the three boundaries, the mode and the two tuning
    constants are what they were, the counts returned are the counts from
    before the call (possibly non-zero, left by an earlier Lane Counter
    phase), and a track that is there before and after has its counted_in
    and counted_out marks unchanged. What changes is the frame counter,
    which advances by one, the track set, and the id allocator next_id,
    which advances by at most the number of person detections. *)
Theorem eagle_eye_update_changes_frame_counter_tracks_and_allocator_only :
  forall self dets fr s' r,
    wf self ->
    mode self = Eagle_Eye ->
    update self dets fr = Some (s', r) ->
    r = (in_count self, out_count self,
         Z.of_nat (List.length (current_persons_detections dets))) /\
    in_count s' = in_count self /\
    out_count s' = out_count self /\
    lane_split_x s' = lane_split_x self /\
    entry_y_threshold s' = entry_y_threshold self /\
    exit_y_threshold s' = exit_y_threshold self /\
    mode s' = mode self /\
    max_dist_sq s' = max_dist_sq self /\
    stale_frame_threshold s' = stale_frame_threshold self /\
    frame_id s' = frame_id self + 1 /\
    next_id self <= next_id s' /\
    next_id s' <= next_id self +
                  Z.of_nat (List.length (current_persons_detections dets)) /\
    (forall k t t',
       Dict.get (tracked_objects self) k = Some t ->
       Dict.get (tracked_objects s') k = Some t' ->
       counted_in t' = counted_in t /\ counted_out t' = counted_out t).
Proof.
  intros self dets fr s' r Hwf Hm Hu.
  pose proof (associate_growth (current_persons_detections dets)
                (tick self, [])) as Hgrow. cbv zeta in Hgrow.
  fold (associate (tick self) (current_persons_detections dets)) in Hgrow.
  rewrite (update_eagle_eye self dets fr Hm) in Hu.
  pose proof (associate_inv (tick self) Hwf
                (current_persons_detections dets)) as Hinv.
  destruct (associate (tick self) (current_persons_detections dets))
    as [s2 upd].
  destruct Hinv as (Hset & _ & Hwf2 & Hold & _).
  injection Hset as Hmode Hl He Hx Hin Hout Hf Hd Hs.
  injection Hu as <- <-. simpl fst in *.
  destruct Hgrow as [[Hn1 Hn2] _]. simpl in Hn1, Hn2.
  refine (conj eq_refl (conj Hin (conj Hout (conj Hl (conj He (conj Hx
            (conj Hmode (conj Hd (conj Hs (conj Hf (conj Hn1
            (conj Hn2 _)))))))))))).
  intros k t t' Hk Hk'.
  rewrite remove_stale_get in Hk' by apply Hwf2.
  destruct (Hold _ _ Hk) as (t2 & Hg & (Hci & Hco & _) & _).
  rewrite Hg in Hk'. destruct (is_stale s2 t2); [discriminate|].
  injection Hk' as <-. auto.
Qed.

Lemma eagle_eye_update_changes_frame_counter_tracks_and_allocator_only_witness :
  wf (busy_tracker Eagle_Eye) /\
  mode (busy_tracker Eagle_Eye) = Eagle_Eye /\
  exists s',
    update (busy_tracker Eagle_Eye) sample_detections vga =
    Some (s', (4, 1, 2)) /\
    in_count s' = 4 /\ out_count s' = 1 /\ frame_id s' = 50 + 1.
Proof.
  assert (Hwf : wf (busy_tracker Eagle_Eye)).
  { split; simpl.
    - repeat constructor; simpl; intuition lia.
    - repeat constructor; lia. }
  split; [exact Hwf|]. split; [reflexivity|].
  destruct (update (busy_tracker Eagle_Eye) sample_detections vga)
    as [[s' r]|] eqn:Hu; [|vm_compute in Hu; discriminate].
  destruct (eagle_eye_update_changes_frame_counter_tracks_and_allocator_only
              (busy_tracker Eagle_Eye) sample_detections vga s' r
              Hwf eq_refl Hu)
    as (Hr & Hi & Ho & _ & _ & _ & _ & _ & _ & Hf & _).
  exists s'. split; [rewrite Hr; reflexivity|]. auto.
Defined.

(** ** Stale removal within [update] *)

(** C4: let s2 be the tracker after the association loop of a call to
    [update], at frame counter frame_id s2 = frame_id self + 1. A track of
    s2 is absent from the track set after the call exactly when
    frame_id s2 - last_frame_id exceeds stale_frame_threshold, and no
    track appears that s2 did not have. A track of the tracker before the
    call whose id was not matched in this frame, and whose gap does not
    exceed the threshold, is still there with its last_frame_id unchanged.
    The threshold of a new tracker is 30. *)
Theorem stale_tracks_removed_iff_gap_exceeds_threshold :
  forall self dets fr s2 upd s' r,
    wf self ->
    associated self dets fr = Some (s2, upd) ->
    update self dets fr = Some (s', r) ->
    frame_id s2 = frame_id self + 1 /\
    stale_frame_threshold s2 = stale_frame_threshold self /\
    (forall k t, Dict.get (tracked_objects s2) k = Some t ->
       (Dict.get (tracked_objects s') k = None <->
        frame_id s2 - last_frame_id t > stale_frame_threshold s2)) /\
    (forall k, Dict.get (tracked_objects s2) k = None ->
               Dict.get (tracked_objects s') k = None) /\
    (forall k t, Dict.get (tracked_objects self) k = Some t ->
       ~ In k upd ->
       ~ frame_id s2 - last_frame_id t > stale_frame_threshold s2 ->
       exists t', Dict.get (tracked_objects s') k = Some t' /\
                  last_frame_id t' = last_frame_id t) /\
    (forall m, stale_frame_threshold (init m) = 30).
Proof.
  intros self dets fr s2 upd s' r Hwf Has Hu.
  destruct (update_phases _ _ _ _ _ Hu)
    as (s1 & s2' & upd' & n & _ & _ & Has' & Hc & _).
  rewrite Has in Has'. injection Has' as <- <-.
  destruct (associated_inv _ _ _ _ _ Hwf Has)
    as (s1' & _ & Ho1 & _ & Hf1 & Hst1 & Hinv).
  destruct Hinv as (Hset & _ & Hwf2 & Hold & _).
  injection Hset as _ _ _ _ _ _ Hf Hd Hs.
  assert (Hstale : forall k,
            Dict.get (tracked_objects (remove_stale s2)) k =
            match Dict.get (tracked_objects s2) k with
            | Some t => if is_stale s2 t then None else Some t
            | None => None
            end) by (intros k; apply remove_stale_get, Hwf2).
  pose proof (count_get _ _ _ _ Hc) as Hcg.
  refine (conj _ (conj _ (conj _ (conj _ (conj _ _))))).
  - lia.
  - congruence.
  - intros k t Hk. specialize (Hcg k). rewrite Hstale, Hk in Hcg.
    unfold is_stale in Hcg.
    destruct (Z.ltb_spec (stale_frame_threshold s2)
                (frame_id s2 - last_frame_id t)) as [Hlt|Hge].
    + split; [lia|auto].
    + destruct Hcg as (t' & Hg & _). rewrite Hg.
      split; [discriminate|lia].
  - intros k Hk. specialize (Hcg k). now rewrite Hstale, Hk in Hcg.
  - intros k t Hk Hn Hgap. rewrite <- Ho1 in Hk.
    destruct (Hold _ _ Hk) as (t2 & Hg & _ & Hsame).
    specialize (Hsame Hn). subst t2.
    specialize (Hcg k). rewrite Hstale, Hg in Hcg.
    unfold is_stale in Hcg.
    destruct (Z.ltb_spec (stale_frame_threshold s2)
                (frame_id s2 - last_frame_id t)) as [Hlt|Hge]; [lia|].
    destruct Hcg as (t' & Hg' & _ & _ & _ & Hl & _).
    exists t'. auto.
  - reflexivity.
Qed.

Lemma stale_tracks_removed_iff_gap_exceeds_threshold_witness :
  wf (busy_tracker Lane_Counter) /\
  exists s2 upd s' r,
    associated (busy_tracker Lane_Counter) sample_detections vga =
    Some (s2, upd) /\
    update (busy_tracker Lane_Counter) sample_detections vga =
    Some (s', r) /\
    Dict.keys (tracked_objects s2) = [3; 5; 6] /\
    Dict.get (tracked_objects s') 5 = None.
Proof.
  assert (Hwf : wf (busy_tracker Lane_Counter)).
  { split; simpl.
    - repeat constructor; simpl; intuition lia.
    - repeat constructor; lia. }
  split; [exact Hwf|].
  destruct (associated (busy_tracker Lane_Counter) sample_detections vga)
    as [[s2 upd]|] eqn:Ha; [|vm_compute in Ha; discriminate].
  destruct (update (busy_tracker Lane_Counter) sample_detections vga)
    as [[s' r]|] eqn:Hu; [|vm_compute in Hu; discriminate].
  exists s2, upd, s', r. split; [reflexivity|]. split; [reflexivity|].
  pose proof (stale_tracks_removed_iff_gap_exceeds_threshold
                _ _ _ _ _ _ _ Hwf Ha Hu) as (_ & _ & Hiff & _).
  vm_compute in Ha. injection Ha as <- <-.
  split; [reflexivity|].
  apply (Hiff 5 (sample_track (400, 200, 440, 300) false false 19)).
  - reflexivity.
  - simpl. lia.
Defined.

(** ** One detection against the track set *)

Lemma NoDup_split_fresh (l1 l2 : Dict.t track) id t :
  NoDup (Dict.keys (l1 ++ (id, t) :: l2)) -> ~ In id (Dict.keys l1).
Proof.
  rewrite DictFacts.keys_app. simpl. intros Hnd Hin.
  apply NoDup_remove_2 in Hnd. apply Hnd, in_or_app. now left.
Qed.

(** One iteration of the detection loop on a well-formed loop state:
    which track is chosen and what the dictionary becomes. *)
Lemma associate_one_outcome :
  forall self upd d,
    wf self ->
    let b := det_box d in
    let c := _get_centroid b in
    let gate := max_dist_sq self in
    let near :=
      filter (fun e => candidate gate c (snd e)) (tracked_objects self) in
    (near <> [] ->
     exists l1 id t l2,
       tracked_objects self = l1 ++ (id, t) :: l2 /\
       status t = "active"%string /\
       _distance_sq c (centroid t) < gate /\
       (forall id' t', In (id', t') l1 -> candidate gate c t' = true ->
          _distance_sq c (centroid t) < _distance_sq c (centroid t')) /\
       (forall id' t', In (id', t') l2 -> candidate gate c t' = true ->
          _distance_sq c (centroid t) <= _distance_sq c (centroid t')) /\
       associate_one (self, upd) d =
       (with_objects self
          (l1 ++ (id, touch b c (frame_id self) t) :: l2) (next_id self),
        Py.set_add id upd))
    /\
    (near = [] ->
     ~ In (next_id self) (Dict.keys (tracked_objects self)) /\
     associate_one (self, upd) d =
     (with_objects self
        (tracked_objects self ++
           [(next_id self, new_track b c (frame_id self))])
        (next_id self + 1),
      Py.set_add (next_id self) upd)).
Proof.
  intros self upd d Hwf b c gate near.
  pose proof (wf_fresh _ Hwf) as Hfresh.
  destruct (associate_one_cases self upd d)
    as [(l1 & id & t & l2 & Hs & Hc & H1 & H2 & Heq)|[Hno Heq]];
    fold b in Heq; fold c in Heq.
  - assert (Hin : In (id, t) near).
    { apply filter_In. split; [rewrite Hs; apply in_elt|exact Hc]. }
    split.
    + intros _. exists l1, id, t, l2.
      unfold candidate in Hc. apply andb_true_iff in Hc.
      destruct Hc as [Ha Hd].
      apply String.eqb_eq in Ha. apply Z.ltb_lt in Hd.
      refine (conj Hs (conj Ha (conj Hd (conj H1 (conj H2 _))))).
      rewrite Heq, Hs. rewrite DictFacts.modify_split; [reflexivity|].
      destruct Hwf as [Hnd _]. rewrite Hs in Hnd.
      eapply NoDup_split_fresh; eauto.
    + intros Hnil. rewrite Hnil in Hin. destruct Hin.
  - split.
    + intros Hne. exfalso. destruct near as [|[k t] near'] eqn:Hn;
        [now apply Hne|].
      assert (Hin : In (k, t) near) by (rewrite Hn; now left).
      apply filter_In in Hin. destruct Hin as [Hin Hc].
      pose proof (Hno _ _ Hin) as Hf. simpl in Hc, Hf.
      unfold gate, c, b in Hc. congruence.
    + intros _. split; [exact Hfresh|].
      rewrite Heq. now rewrite DictFacts.set_fresh.
Qed.

(** The loop over a list of detections, cut after one of them. *)
Lemma associate_snoc s ds d :
  associate s (ds ++ [d]) = associate_one (associate s ds) d.
Proof. unfold associate. now rewrite fold_left_app. Qed.

Lemma associate_split s ds d rest :
  associate s (ds ++ d :: rest) =
  fold_left associate_one rest (associate s (ds ++ [d])).
Proof.
  unfold associate. rewrite !fold_left_app. reflexivity.
Qed.

(** C3: every person detection d that a returning call to [update]
    processes, at whatever place of current_persons_detections (after the
    detections ds, before the detections rest). The detection loop reaches
    d in a state s (frame counter already advanced, gate unchanged) and
    leaves it in a state s', from which the remaining detections lead to
    the state that stale removal and counting then work on. With b the box
    of d and c its centroid: if some active track of s is strictly within
    max_dist_sq of c, the track chosen is one of least squared distance
    among them, the first such in the iteration order of the dictionary
    (tracks before it are strictly farther, tracks after it are not
    nearer); in s' that track has bbox b, centroid c and last_frame_id the
    frame counter, its other keys and every other track are as in s, and
    next_id has not moved. If no active track of s is within the gate, s'
    has one more track, appended under the id next_id of s, which no track
    of s holds, with bbox b, centroid c, lane 'unknown', status 'active',
    both counted marks false and last_frame_id the frame counter, and
    next_id has advanced by one. The tracks of s include those matched or
    created by the detections ds of the same frame. The gate of a new
    tracker is 5000. *)
Theorem detection_matches_nearest_in_gate_or_spawns :
  forall self dets fr sf r ds d rest,
    wf self ->
    update self dets fr = Some (sf, r) ->
    current_persons_detections dets = ds ++ d :: rest ->
    exists s1 s u s' u' s2 upd,
      init_thresholds (tick self) fr = Some s1 /\
      associate s1 ds = (s, u) /\
      associate s1 (ds ++ [d]) = (s', u') /\
      fold_left associate_one rest (s', u') = (s2, upd) /\
      associated self dets fr = Some (s2, upd) /\
      count (remove_stale s2) (current_persons_detections dets) =
      Some (sf, snd r) /\
      frame_id s = frame_id self + 1 /\
      max_dist_sq s = max_dist_sq self /\
      settings s' = settings s /\
      (let b := det_box d in
       let c := _get_centroid b in
       let gate := max_dist_sq s in
       let near :=
         filter (fun e => candidate gate c (snd e)) (tracked_objects s) in
       (near <> [] ->
        exists l1 id t t' l2,
          tracked_objects s = l1 ++ (id, t) :: l2 /\
          status t = "active"%string /\
          _distance_sq c (centroid t) < gate /\
          (forall id0 t0, In (id0, t0) l1 -> candidate gate c t0 = true ->
             _distance_sq c (centroid t) < _distance_sq c (centroid t0)) /\
          (forall id0 t0, In (id0, t0) l2 -> candidate gate c t0 = true ->
             _distance_sq c (centroid t) <= _distance_sq c (centroid t0)) /\
          tracked_objects s' = l1 ++ (id, t') :: l2 /\
          bbox t' = b /\ centroid t' = c /\
          last_frame_id t' = frame_id s /\
          lane t' = lane t /\ status t' = status t /\
          counted_in t' = counted_in t /\ counted_out t' = counted_out t /\
          next_id s' = next_id s /\
          In id u')
       /\
       (near = [] ->
        exists t',
          ~ In (next_id s) (Dict.keys (tracked_objects s)) /\
          tracked_objects s' = tracked_objects s ++ [(next_id s, t')] /\
          bbox t' = b /\ centroid t' = c /\
          last_frame_id t' = frame_id s /\
          lane t' = lane_unknown /\ status t' = "active"%string /\
          counted_in t' = false /\ counted_out t' = false /\
          next_id s' = next_id s + 1 /\
          In (next_id s) u'))
      /\
      (forall m, max_dist_sq (init m) = 5000).
Proof.
  intros self dets fr sf r ds d rest Hwf Hu Hsplit.
  destruct (update_phases _ _ _ _ _ Hu)
    as (s1 & s2 & upd & n & Hi & Ha & Has & Hc & Hr).
  pose proof (init_thresholds_keeps _ _ _ Hi)
    as (_ & _ & _ & _ & _ & Hf & Hd & _).
  assert (Hwf1 : wf s1)
    by (apply (init_thresholds_wf _ _ _ Hi); exact Hwf).
  pose proof (associate_inv s1 Hwf1 ds) as Hinv.
  pose proof (associate_snoc s1 ds d) as Hsn.
  rewrite Hsplit, associate_split in Ha.
  destruct (associate s1 ds) as [s u] eqn:Hds.
  destruct Hinv as (Hset & _ & Hwfs & _).
  destruct (associate s1 (ds ++ [d])) as [s' u'] eqn:Hds'.
  exists s1, s, u, s', u', s2, upd.
  assert (Hfs : frame_id s = frame_id self + 1 /\
                max_dist_sq s = max_dist_sq self).
  { injection Hset as _ _ _ _ _ _ Hfr Hg _.
    rewrite Hfr, Hg, Hf, Hd. split; reflexivity. }
  destruct Hfs as [Hfr Hg].
  assert (Hss : settings s' = settings s).
  { change s' with (fst (s', u')). rewrite Hsn.
    apply (associate_one_settings (s, u) d). }
  subst r.
  refine (conj Hi (conj Hds (conj Hds' (conj Ha (conj Has
            (conj Hc (conj Hfr (conj Hg (conj Hss (conj _ _)))))))))).
  2: reflexivity.
  destruct (associate_one_outcome s u d Hwfs) as [Hnear Hfar].
  cbv zeta in Hnear, Hfar |- *. split.
  - intros Hne.
    destruct (Hnear Hne) as (l1 & id & t & l2 & Hs & Hact & Hlt & H1 & H2
                             & Heq).
    rewrite <- Hsn in Heq. injection Heq as -> ->.
    exists l1, id, t,
      (touch (det_box d) (_get_centroid (det_box d)) (frame_id s) t), l2.
    refine (conj Hs (conj Hact (conj Hlt (conj H1 (conj H2 _))))).
    repeat (split; [reflexivity|]).
    apply set_add_In. now left.
  - intros Hnil.
    destruct (Hfar Hnil) as (Hfresh & Heq).
    rewrite <- Hsn in Heq. injection Heq as -> ->.
    exists (new_track (det_box d) (_get_centroid (det_box d)) (frame_id s)).
    split; [exact Hfresh|].
    repeat (split; [reflexivity|]).
    apply set_add_In. now left.
Qed.

Lemma detection_matches_nearest_in_gate_or_spawns_witness :
  wf (busy_tracker Lane_Counter) /\
  (exists sf r,
     update (busy_tracker Lane_Counter) sample_detections vga =
     Some (sf, r)) /\
  current_persons_detections sample_detections =
  [] ++ person 94 84 114 124 :: [person 500 100 540 200] /\
  exists s1 s' t',
    init_thresholds (tick (busy_tracker Lane_Counter)) vga = Some s1 /\
    associate s1 ([] ++ [person 94 84 114 124]) = (s', [3]) /\
    Dict.get (tracked_objects s') 3 = Some t' /\
    bbox t' = (94, 84, 114, 124) /\ centroid t' = (104, 104) /\
    last_frame_id t' = 51 /\ counted_in t' = true /\ next_id s' = 6.
Proof.
  assert (Hwf : wf (busy_tracker Lane_Counter)).
  { split; simpl.
    - repeat constructor; simpl; intuition lia.
    - repeat constructor; lia. }
  split; [exact Hwf|].
  destruct (update (busy_tracker Lane_Counter) sample_detections vga)
    as [[sf r]|] eqn:Hu; [|vm_compute in Hu; discriminate].
  split; [now exists sf, r|]. split; [reflexivity|].
  destruct (detection_matches_nearest_in_gate_or_spawns
              (busy_tracker Lane_Counter) sample_detections vga sf r
              [] (person 94 84 114 124) [person 500 100 540 200]
              Hwf Hu eq_refl)
    as (s1 & s & u & s' & u' & s2 & upd & Hi & _ & Hds' & _).
  exists s1, s'. pose proof Hi as Hi'.
  vm_compute in Hi'. injection Hi' as <-.
  pose proof Hds' as Hc. vm_compute in Hc. injection Hc as <- <-.
  eexists. split; [exact Hi|]. split; [exact Hds'|].
  repeat split.
Defined.

(** ** The single-person scenario *)

(** C7 (counterexample): track 0 is not evicted on frame 32. It was last
    seen on frame 2, the gap on frame 32 is 30, which does not exceed
    stale_frame_threshold = 30, and the track is still in the dictionary
    after that frame. *)
Lemma scenario_track_not_evicted_on_frame_32 : ~ evicted_on 0 32.
Proof.
  intros [_ (objs & Ht & Hg)].
  vm_compute in Ht. injection Ht as <-. discriminate.
Qed.

(** C7 (amended): frame 1 creates track 0, centred at (100, 100), in the
    entering lane (lane split 320, gate 5000); on frame 2 the detection,
    at squared distance 100 < 5000, is matched to track 0, which stays the
    only track and moves to (110, 100); the track is last seen on frame 2,
    is still there after frame 32 (gap 30, not above the threshold 30),
    and is evicted on frame 33 (gap 31). *)
Theorem scenario_track_created_kept_and_evicted_on_frame_33 :
  (exists s t,
      scenario_after 1 = Some s /\
      lane_split_x s = Some 320 /\ max_dist_sq s = 5000 /\
      tracked_objects s = [(0, t)] /\
      centroid t = (100, 100) /\ lane t = lane_enter) /\
  (exists s t,
      scenario_after 2 = Some s /\
      tracked_objects s = [(0, t)] /\
      centroid t = (110, 100) /\ last_frame_id t = 2 /\
      _distance_sq (110, 100) (100, 100) = 100 /\ next_id s = 1) /\
  (exists s t,
      scenario_after 32 = Some s /\ frame_id s = 32 /\
      tracked_objects s = [(0, t)] /\ last_frame_id t = 2) /\
  evicted_on 0 33.
Proof.
  split; [|split; [|split]].
  - vm_compute. eexists _, _. repeat split.
  - vm_compute. eexists _, _. repeat split.
  - vm_compute. eexists _, _. repeat split.
  - split; vm_compute; eexists; (split; [reflexivity|]);
      [discriminate|reflexivity].
Qed.

(** ** Two detections, one track *)

(** C1 (the code at the failing input): the first detection of the frame
    creates track 0 and puts 0 in updated_tracked_ids; the inner loop for
    the second detection does not look at that set and matches track 0
    again, so both detections of the frame are assigned to track 0, which
    ends with the second box, and no second track exists. *)
Theorem two_detections_of_a_frame_match_the_same_track :
  exists s1 s2 t,
    associate_one (tick (init Eagle_Eye), []) (person 90 80 110 120) =
    (s1, [0]) /\
    Dict.keys (tracked_objects s1) = [0] /\
    fst (find_match (max_dist_sq s1) (110, 100) (tracked_objects s1)
           (None, None)) = Some 0 /\
    associate_one (s1, [0]) (person 100 80 120 120) = (s2, [0]) /\
    tracked_objects s2 = [(0, t)] /\
    bbox t = (100, 80, 120, 120) /\
    associated (init Eagle_Eye) side_by_side vga = Some (s2, [0]) /\
    update (init Eagle_Eye) side_by_side vga = Some (s2, (0, 0, 2)).
Proof.
  vm_compute. eexists _, _, _. repeat split.
Qed.

(** ** Boundaries and lanes in Lane Counter mode *)

Lemma exec_call_fixed self c s' :
  exec_call self c = Some s' ->
  (forall v, lane_split_x self = Some v -> lane_split_x s' = Some v) /\
  (forall v, entry_y_threshold self = Some v ->
             entry_y_threshold s' = Some v) /\
  (forall v, exit_y_threshold self = Some v ->
             exit_y_threshold s' = Some v).
Proof.
  destruct c as [dets fr| |m]; simpl.
  - destruct (update self dets fr) as [[s r]|] eqn:Hu; [|discriminate].
    intros [= <-].
    pose proof (update_settings _ _ _ _ _ Hu) as H. tauto.
  - intros [= <-]. auto.
  - intros [= <-]. auto.
Qed.

Lemma exec_fixed cs : forall self s',
  exec self cs = Some s' ->
  (forall v, lane_split_x self = Some v -> lane_split_x s' = Some v) /\
  (forall v, entry_y_threshold self = Some v ->
             entry_y_threshold s' = Some v) /\
  (forall v, exit_y_threshold self = Some v ->
             exit_y_threshold s' = Some v).
Proof.
  induction cs as [|c cs IH]; intros self s'; simpl.
  - intros [= <-]. auto.
  - destruct (exec_call self c) as [s|] eqn:Hc; [|discriminate].
    intros He. destruct (exec_call_fixed _ _ _ Hc) as (Hl & Hn & Hx).
    destruct (IH _ _ He) as (Hl' & Hn' & Hx'). auto.
Qed.

(** After a call in Lane Counter mode the three boundaries are set and
    every track carries the lane of its centroid. *)
Lemma update_lane_counter self dets fr s' r :
  mode self = Lane_Counter ->
  update self dets fr = Some (s', r) ->
  lane_split_x s' = if_unset (lane_split_x self) (Some (frame_w fr / 2)) /\
  entry_y_threshold s' =
    if_unset (entry_y_threshold self) (entry_line (frame_h fr)) /\
  exit_y_threshold s' =
    if_unset (exit_y_threshold self) (exit_line (frame_h fr)) /\
  exists ln sa upd,
    associated self dets fr = Some (sa, upd) /\
    lines_of s' = Some ln /\ lines_of sa = Some ln /\
    tracked_objects s' =
      map (fun e => (fst e, counted_track ln (snd e)))
        (tracked_objects (remove_stale sa)) /\
    in_count s' =
      in_count self +
      events (crossing_in ln) (tracked_objects (remove_stale sa)) /\
    out_count s' =
      out_count self +
      events (crossing_out ln) (tracked_objects (remove_stale sa)) /\
    r = (in_count s', out_count s', in_count s' - out_count s').
Proof.
  intros Hm Hu.
  destruct (update_phases _ _ _ _ _ Hu)
    as (s1 & s2 & upd & n & Hi & Ha & Has & Hc & Hr).
  pose proof (init_thresholds_keeps _ _ _ Hi)
    as (_ & _ & Hm1 & Hi1 & Ho1 & _).
  destruct (init_thresholds_lane (tick self) fr s1 Hm Hi) as (Hl & He & Hx).
  pose proof (associate_settings (current_persons_detections dets) (s1, []))
    as Hs.
  fold (associate s1 (current_persons_detections dets)) in Hs.
  rewrite Ha in Hs. simpl fst in Hs.
  injection Hs as Hm2 Hl2 He2 Hx2 Hi2 Ho2 _ _ _.
  apply count_cases in Hc.
  destruct Hc as [(Hme & _)|[(_ & ln & Hln & Hs' & Hn)|(_ & Hnl & _)]].
  - simpl in Hme, Hm1. rewrite Hm2, Hm1, Hm in Hme. discriminate.
  - subst s'. simpl in *. subst n.
    refine (conj _ (conj _ (conj _ _))); try congruence.
    exists ln, s2, upd.
    refine (conj Has (conj _ (conj _ (conj eq_refl (conj _ (conj _ Hr)))))).
    + exact Hln.
    + exact Hln.
    + congruence.
    + congruence.
  - simpl in Hnl, Hm1. rewrite Hm2, Hm1, Hm in Hnl. contradiction.
Qed.

(** C8: a call to [update] in Lane Counter mode that returns leaves
    lane_split_x = w // 2, entry_y_threshold = int(h * 0.9) and
    exit_y_threshold = int(h * 0.1) of this frame wherever the attribute
    was still unset, and the old value wherever it was set; after the call
    each track in the track set has lane = enter when its centroid's x is
    strictly below lane_split_x and lane = exit otherwise, whatever its
    lane was; and whatever calls follow (updates in any mode and on frames
    of any size, reset_counts, mode changes), the three boundaries keep
    these values. On a 480-high frame the two lines are 432 and 48. *)
Theorem lane_counter_boundaries_lazy_fixed_and_lane_geometric :
  forall self dets fr s1 r cs s2,
    mode self = Lane_Counter ->
    update self dets fr = Some (s1, r) ->
    exec s1 cs = Some s2 ->
    lane_split_x s1 =
      Some (match lane_split_x self with
            | Some v => v
            | None => frame_w fr / 2
            end) /\
    entry_y_threshold s1 =
      match entry_y_threshold self with
      | Some v => Some v
      | None => Py.int_of_float
                  (Py.fmul (Py.float_of_int (frame_h fr)) Py.lit_0_9)
      end /\
    exit_y_threshold s1 =
      match exit_y_threshold self with
      | Some v => Some v
      | None => Py.int_of_float
                  (Py.fmul (Py.float_of_int (frame_h fr)) Py.lit_0_1)
      end /\
    (exists sx en ex,
        lane_split_x s1 = Some sx /\ entry_y_threshold s1 = Some en /\
        exit_y_threshold s1 = Some ex /\
        (forall k t, In (k, t) (tracked_objects s1) ->
           lane t = if fst (centroid t) <? sx then lane_enter
                    else lane_exit) /\
        lane_split_x s2 = Some sx /\ entry_y_threshold s2 = Some en /\
        exit_y_threshold s2 = Some ex) /\
    entry_line 480 = Some 432 /\ exit_line 480 = Some 48.
Proof.
  intros self dets fr s1 r cs s2 Hm Hu He.
  destruct (update_lane_counter _ _ _ _ _ Hm Hu)
    as (Hl & Hen & Hex & ln & sa & upd & _ & Hln & _ & Hobjs & _).
  destruct (exec_fixed _ _ _ He) as (Fl & Fn & Fx).
  refine (conj _ (conj _ (conj _ (conj _ (conj eq_refl eq_refl))))).
  - rewrite Hl. now destruct (lane_split_x self).
  - rewrite Hen. now destruct (entry_y_threshold self).
  - rewrite Hex. now destruct (exit_y_threshold self).
  - unfold lines_of in Hln.
    destruct (lane_split_x s1) as [sx|]; [|discriminate].
    destruct (entry_y_threshold s1) as [en|]; [|discriminate].
    destruct (exit_y_threshold s1) as [ex|]; [|discriminate].
    injection Hln as <-.
    exists sx, en, ex.
    refine (conj eq_refl (conj eq_refl (conj eq_refl (conj _ _)))); [|auto].
    intros k t Hin. rewrite Hobjs in Hin. apply in_map_iff in Hin.
    destruct Hin as ([k0 t0] & [= <- <-] & _).
    rewrite counted_track_eq. reflexivity.
Qed.

Lemma lane_counter_boundaries_lazy_fixed_and_lane_geometric_witness :
  mode (init Lane_Counter) = Lane_Counter /\
  exists s1 r s2,
    update (init Lane_Counter) sample_detections vga = Some (s1, r) /\
    exec s1 [call_reset_counts; call_set_mode Eagle_Eye;
             call_update sample_detections (mk_frame 720 1280);
             call_set_mode Lane_Counter;
             call_update sample_detections (mk_frame 720 1280)] = Some s2 /\
    lane_split_x s1 = Some 320 /\
    lane_split_x s2 = Some 320 /\ entry_y_threshold s2 = Some 432 /\
    exit_y_threshold s2 = Some 48.
Proof.
  split; [reflexivity|].
  destruct (update (init Lane_Counter) sample_detections vga)
    as [[s1 r]|] eqn:Hu; [|vm_compute in Hu; discriminate].
  destruct (exec s1 [call_reset_counts; call_set_mode Eagle_Eye;
             call_update sample_detections (mk_frame 720 1280);
             call_set_mode Lane_Counter;
             call_update sample_detections (mk_frame 720 1280)])
    as [s2|] eqn:He.
  - exists s1, r, s2. split; [reflexivity|]. split; [exact He|].
    destruct (lane_counter_boundaries_lazy_fixed_and_lane_geometric
                (init Lane_Counter) sample_detections vga s1 r _ s2
                eq_refl Hu He)
      as (Hl & Hen & Hex & (sx & en & ex & Hsx & Hn & Hx & _ & F) & _).
    simpl in Hl, Hen, Hex. rewrite Hl in Hsx. rewrite Hen in Hn.
    rewrite Hex in Hx.
    change (Py.int_of_float _) with (entry_line 480) in Hn.
    vm_compute in Hsx, Hn, Hx.
    injection Hsx as <-. injection Hn as <-. injection Hx as <-.
    split; [exact Hl|exact F].
  - exfalso. vm_compute in Hu. injection Hu as <- <-.
    vm_compute in He. discriminate.
Defined.

(** ** Monotone counters and the net total *)

Lemma exec_monotone cs : forall self s',
  forallb (fun c => negb (is_reset c)) cs = true ->
  exec self cs = Some s' ->
  in_count self <= in_count s' /\ out_count self <= out_count s'.
Proof.
  induction cs as [|c cs IH]; intros self s' Hnr; simpl.
  - intros [= <-]. lia.
  - simpl in Hnr. apply andb_true_iff in Hnr. destruct Hnr as [Hc Hnr].
    destruct (exec_call self c) as [s|] eqn:Hx; [|discriminate].
    intros He. specialize (IH _ _ Hnr He).
    destruct c as [dets fr| |m]; simpl in Hx, Hc.
    + destruct (update self dets fr) as [[s0 r]|] eqn:Hu; [|discriminate].
      injection Hx as <-.
      pose proof (update_settings _ _ _ _ _ Hu) as (_ & _ & _ & _ & ? & ? & _).
      lia.
    + discriminate.
    + injection Hx as <-. simpl in IH. exact IH.
Qed.

(** C9: along any sequence of calls without reset_counts (updates in any
    mode, mode changes) in_count and out_count do not decrease; a call to
    [update] in Lane Counter mode adds to in_count exactly the number of
    tracks whose entry event fires in that call and to out_count the number
    whose exit event fires, and returns (in_count, out_count,
    in_count - out_count) of the state it leaves; that total is not
    clamped: a new tracker that first sees a person in the exiting lane
    above the exit line returns -1. *)
Theorem counts_never_decrease_and_net_is_in_minus_out :
  forall self cs s1 dets fr s2 r,
    forallb (fun c => negb (is_reset c)) cs = true ->
    exec self cs = Some s1 ->
    mode s1 = Lane_Counter ->
    update s1 dets fr = Some (s2, r) ->
    in_count self <= in_count s1 /\ out_count self <= out_count s1 /\
    in_count s1 <= in_count s2 /\ out_count s1 <= out_count s2 /\
    (exists ln sa upd,
        associated s1 dets fr = Some (sa, upd) /\
        lines_of sa = Some ln /\
        in_count s2 =
          in_count s1 +
          events (crossing_in ln) (tracked_objects (remove_stale sa)) /\
        out_count s2 =
          out_count s1 +
          events (crossing_out ln) (tracked_objects (remove_stale sa))) /\
    r = (in_count s2, out_count s2, in_count s2 - out_count s2) /\
    (exists s',
        update (init Lane_Counter) [person 400 10 440 100] vga =
        Some (s', (0, 1, -1))).
Proof.
  intros self cs s1 dets fr s2 r Hnr He Hm Hu.
  destruct (exec_monotone _ _ _ Hnr He) as [Hi Ho].
  pose proof (update_settings _ _ _ _ _ Hu) as (_ & _ & _ & _ & Hi2 & Ho2 & _).
  destruct (update_lane_counter _ _ _ _ _ Hm Hu)
    as (_ & _ & _ & ln & sa & upd & Has & _ & Hln & _ & Hic & Hoc & Hr).
  refine (conj Hi (conj Ho (conj Hi2 (conj Ho2 (conj _ (conj Hr _)))))).
  - exists ln, sa, upd. auto.
  - eexists. vm_compute. reflexivity.
Qed.

Lemma counts_never_decrease_and_net_is_in_minus_out_witness :
  exists s1 s2,
    exec (init Lane_Counter) mixed_session = Some s1 /\
    mode s1 = Lane_Counter /\
    update s1 [person 404 12 444 102; person 90 400 110 440] vga =
    Some (s2, (1, 1, 0)).
Proof.
  destruct (exec (init Lane_Counter) mixed_session) as [s1|] eqn:He;
    [|vm_compute in He; discriminate].
  destruct (update s1 [person 404 12 444 102; person 90 400 110 440] vga)
    as [[s2 r]|] eqn:Hu.
  - assert (Hm : mode s1 = Lane_Counter).
    { vm_compute in He. injection He as <-. reflexivity. }
    exists s1, s2. split; [reflexivity|]. split; [exact Hm|].
    destruct (counts_never_decrease_and_net_is_in_minus_out
                (init Lane_Counter) mixed_session s1 _ _ s2 r eq_refl He Hm Hu)
      as (_ & _ & _ & _ & _ & Hr & _).
    rewrite Hu, Hr. vm_compute in He. injection He as <-.
    vm_compute in Hu. injection Hu as <- _. reflexivity.
  - exfalso. vm_compute in He. injection He as <-.
    vm_compute in Hu. discriminate.
Defined.

(** ** At most one count per track and direction *)

Lemma crossing_unmarked dir ln t :
  crossing dir ln t = true -> counted dir t = false.
Proof.
  destruct dir; simpl; unfold crossing_in, crossing_out;
    intros H; apply andb_true_iff in H; destruct H as [_ H];
    now apply negb_true_iff in H.
Qed.

Lemma counted_after dir ln t :
  counted dir (counted_track ln t) = counted dir t || crossing dir ln t.
Proof. rewrite counted_track_eq. destruct dir; reflexivity. Qed.

Lemma same_marks_counted dir t t' :
  same_marks t t' -> counted dir t' = counted dir t.
Proof. intros (Hi & Ho & _). destruct dir; simpl; assumption. Qed.

Lemma sum_over_ext f g ks :
  (forall k, In k ks -> f k = g k) -> sum_over f ks = sum_over g ks.
Proof.
  induction ks as [|k ks IH]; intros H; simpl; [reflexivity|].
  rewrite (H k) by now left. rewrite IH; [reflexivity|].
  intros k' Hk'. apply H. now right.
Qed.

Lemma events_cons ev k t (objs : Dict.t track) :
  events ev ((k, t) :: objs) = bump (ev t) + events ev objs.
Proof.
  unfold events. simpl filter.
  destruct (ev t); simpl bump; simpl List.length; lia.
Qed.

Lemma events_sum ev (objs : Dict.t track) :
  NoDup (Dict.keys objs) ->
  events ev objs =
  sum_over (fun k => match Dict.get objs k with
                     | Some t => bump (ev t)
                     | None => 0
                     end) (Dict.keys objs).
Proof.
  induction objs as [|[k t] objs IH]; intros Hnd; [reflexivity|].
  inversion Hnd as [|? ? Hk Hnd']; subst.
  rewrite events_cons, (IH Hnd').
  change (Dict.keys ((k, t) :: objs)) with (k :: Dict.keys objs).
  unfold sum_over at 2. simpl fold_right. rewrite Z.eqb_refl.
  f_equal. apply sum_over_ext. intros k' Hk'.
  destruct (Z.eqb_spec k k') as [->|_]; [contradiction|reflexivity].
Qed.

Lemma added_range dir self dets fr id :
  0 <= added dir self dets fr id <= 1.
Proof.
  unfold added.
  destruct (associated self dets fr) as [[sa upd]|]; [|lia].
  destruct (String.eqb (mode self) Lane_Counter); [|lia].
  destruct (lines_of sa); [|lia].
  destruct (Dict.get _ id); [|lia].
  destruct (crossing dir l t); simpl; lia.
Qed.

(** A track that survives stale removal was in the dictionary before the
    call with the same marks, or is a track created in this call. *)
Lemma survivor_origin self dets fr sa upd id t :
  wf self ->
  associated self dets fr = Some (sa, upd) ->
  Dict.get (tracked_objects (remove_stale sa)) id = Some t ->
  (exists t0, Dict.get (tracked_objects self) id = Some t0 /\
              same_marks t0 t)
  \/ (next_id self <= id /\ counted_in t = false /\ counted_out t = false).
Proof.
  intros Hwf Has Hg.
  destruct (associated_inv _ _ _ _ _ Hwf Has)
    as (s1 & _ & Ho1 & Hn1 & _ & _ & Hinv).
  destruct Hinv as (_ & _ & Hwf2 & Hold & Hnew & _).
  rewrite remove_stale_get in Hg by apply Hwf2.
  destruct (Dict.get (tracked_objects sa) id) as [t2|] eqn:Hg2;
    [|discriminate].
  destruct (is_stale sa t2); [discriminate|]. injection Hg as <-.
  destruct (Dict.get (tracked_objects self) id) as [t0|] eqn:Hg0.
  - left. exists t0. split; [reflexivity|].
    rewrite <- Ho1 in Hg0. destruct (Hold _ _ Hg0) as (t' & Hg' & Hm & _).
    congruence.
  - right. rewrite <- Ho1 in Hg0.
    destruct (Hnew _ _ Hg2 Hg0) as (Hle & _ & Hci & Hco).
    rewrite <- Hn1. auto.
Qed.

Lemma spent_added dir id self dets fr :
  wf self -> spent dir id self -> added dir self dets fr id = 0.
Proof.
  intros Hwf [Hlt Hsp]. unfold added.
  destruct (associated self dets fr) as [[sa upd]|] eqn:Has; [|reflexivity].
  destruct (String.eqb (mode self) Lane_Counter); [|reflexivity].
  destruct (lines_of sa) as [ln|]; [|reflexivity].
  destruct (Dict.get (tracked_objects (remove_stale sa)) id) as [t|] eqn:Hg;
    [|reflexivity].
  destruct (survivor_origin _ _ _ _ _ _ _ Hwf Has Hg)
    as [(t0 & Hg0 & Hm)|(Hle & _)]; [|lia].
  destruct (crossing dir ln t) eqn:Hc; [|reflexivity].
  apply crossing_unmarked in Hc.
  rewrite (same_marks_counted dir _ _ Hm), (Hsp _ Hg0) in Hc. discriminate.
Qed.

Lemma spent_update dir id self dets fr s' r :
  wf self -> spent dir id self ->
  update self dets fr = Some (s', r) -> spent dir id s'.
Proof.
  intros Hwf [Hlt Hsp] Hu.
  destruct (update_wf _ _ _ _ _ Hwf Hu) as [_ Hn].
  split; [lia|]. intros t' Hg'.
  destruct (update_phases _ _ _ _ _ Hu)
    as (s1 & sa & upd & n & _ & _ & Has & Hc & _).
  pose proof (count_get _ _ _ _ Hc id) as Hcg.
  destruct (Dict.get (tracked_objects (remove_stale sa)) id) as [t|] eqn:Hg;
    [|congruence].
  destruct Hcg as (t1 & Hg1 & _ & _ & _ & _ & Hci & Hco & _).
  assert (t1 = t') by congruence. subst t1.
  destruct (survivor_origin _ _ _ _ _ _ _ Hwf Has Hg)
    as [(t0 & Hg0 & Hm)|(Hle & _)]; [|lia].
  pose proof (Hsp _ Hg0) as H0.
  rewrite <- (same_marks_counted dir _ _ Hm) in H0.
  destruct dir; simpl in *; auto.
Qed.

Lemma added_spent dir id self dets fr s' r :
  wf self -> update self dets fr = Some (s', r) ->
  added dir self dets fr id = 1 -> spent dir id s'.
Proof.
  intros Hwf Hu Ha.
  destruct (update_wf _ _ _ _ _ Hwf Hu) as [[_ Hlt'] _].
  unfold added in Ha.
  destruct (associated self dets fr) as [[sa upd]|] eqn:Has;
    [|discriminate].
  destruct (String.eqb_spec (mode self) Lane_Counter) as [Hm|_];
    [|discriminate].
  destruct (update_lane_counter _ _ _ _ _ Hm Hu)
    as (_ & _ & _ & ln & sa' & upd' & Has' & _ & Hln & Hobjs & _).
  rewrite Has in Has'. injection Has' as <- <-. rewrite Hln in Ha.
  destruct (Dict.get (tracked_objects (remove_stale sa)) id) as [t|] eqn:Hg;
    [|discriminate].
  destruct (crossing dir ln t) eqn:Hc; [|discriminate].
  assert (Hg' : Dict.get (tracked_objects s') id =
                Some (counted_track ln t)).
  { rewrite Hobjs, get_map_counted, Hg. reflexivity. }
  split.
  - rewrite Forall_forall in Hlt'. apply Hlt'.
    apply DictFacts.get_In in Hg'. eapply DictFacts.In_keys; eauto.
  - intros t' Ht'. rewrite Hg' in Ht'. injection Ht' as <-.
    rewrite counted_after, Hc. apply orb_true_r.
Qed.

Lemma lifetime_spent dir id cs : forall self,
  wf self -> spent dir id self ->
  forallb (fun c => negb (is_reset c)) cs = true ->
  lifetime dir id self cs = 0.
Proof.
  induction cs as [|c cs IH]; intros self Hwf Hsp Hnr; [reflexivity|].
  simpl in Hnr. apply andb_true_iff in Hnr. destruct Hnr as [Hc Hnr].
  simpl. destruct c as [dets fr| |m]; simpl in *.
  - rewrite (spent_added _ _ _ _ _ Hwf Hsp).
    destruct (update self dets fr) as [[s r]|] eqn:Hu; [|reflexivity].
    simpl. apply IH; auto.
    + eapply update_wf; eauto.
    + eapply spent_update; eauto.
  - discriminate.
  - apply IH; auto.
Qed.

Lemma lifetime_range dir id cs : forall self,
  wf self ->
  forallb (fun c => negb (is_reset c)) cs = true ->
  0 <= lifetime dir id self cs <= 1.
Proof.
  induction cs as [|c cs IH]; intros self Hwf Hnr; simpl; [lia|].
  simpl in Hnr. apply andb_true_iff in Hnr. destruct Hnr as [Hc Hnr].
  destruct c as [dets fr| |m]; simpl in *.
  - pose proof (added_range dir self dets fr id) as Hr.
    destruct (update self dets fr) as [[s r]|] eqn:Hu; simpl; [|lia].
    destruct (update_wf _ _ _ _ _ Hwf Hu) as [Hwf' _].
    destruct (Z.eq_dec (added dir self dets fr id) 1) as [H1|H1].
    + rewrite (lifetime_spent dir id cs s Hwf'
                 (added_spent _ _ _ _ _ _ _ Hwf Hu H1) Hnr). lia.
    + specialize (IH s Hwf' Hnr). lia.
  - discriminate.
  - specialize (IH (set_mode self m) Hwf Hnr). lia.
Qed.

Lemma update_other_mode self dets fr s' r :
  mode self <> Lane_Counter ->
  update self dets fr = Some (s', r) ->
  in_count s' = in_count self /\ out_count s' = out_count self.
Proof.
  intros Hm Hu.
  destruct (update_phases _ _ _ _ _ Hu)
    as (s1 & s2 & upd & n & Hi & Ha & _ & Hc & _).
  pose proof (init_thresholds_keeps _ _ _ Hi)
    as (_ & _ & Hm1 & Hi1 & Ho1 & _).
  pose proof (associate_settings (current_persons_detections dets) (s1, []))
    as Hs.
  fold (associate s1 (current_persons_detections dets)) in Hs.
  rewrite Ha in Hs. simpl fst in Hs.
  injection Hs as Hm2 _ _ _ Hi2 Ho2 _ _ _.
  apply count_cases in Hc.
  destruct Hc as [(_ & -> & _)|[(Hl & _)|(_ & _ & -> & _)]]; simpl in *.
  - split; congruence.
  - exfalso. apply Hm. congruence.
  - split; congruence.
Qed.

(** The counter moves by the sum of what the tracks of the call add. *)
Lemma update_added_sum dir self dets fr s' r :
  wf self ->
  update self dets fr = Some (s', r) ->
  counter dir s' =
  counter dir self +
  sum_over (added dir self dets fr) (Dict.keys (tracked_objects s')).
Proof.
  intros Hwf Hu.
  destruct (String.eqb_spec (mode self) Lane_Counter) as [Hm|Hm].
  - destruct (update_lane_counter _ _ _ _ _ Hm Hu)
      as (_ & _ & _ & ln & sa & upd & Has & _ & Hln & Hobjs & Hic & Hoc & _).
    destruct (associated_inv _ _ _ _ _ Hwf Has)
      as (s1 & _ & _ & _ & _ & _ & Hinv).
    destruct Hinv as (_ & _ & Hwf2 & _).
    apply remove_stale_wf in Hwf2. destruct Hwf2 as [Hnd _].
    rewrite Hobjs, keys_map_counted.
    rewrite (sum_over_ext _
               (fun k => match Dict.get (tracked_objects (remove_stale sa)) k
                         with
                         | Some t => bump (crossing dir ln t)
                         | None => 0
                         end)).
    + rewrite <- (events_sum (crossing dir ln) _ Hnd).
      destruct dir; simpl; assumption.
    + intros k _. unfold added. rewrite Has, Hm, Hln.
      now rewrite String.eqb_refl.
  - destruct (update_other_mode _ _ _ _ _ Hm Hu) as [Hi Ho].
    rewrite (sum_over_ext _ (fun _ => 0)).
    + assert (Hz : forall ks, sum_over (fun _ => 0) ks = 0)
        by (induction ks; simpl; auto).
      rewrite Hz. destruct dir; simpl; lia.
    + intros k _. unfold added.
      destruct (associated self dets fr) as [[sa upd]|]; [|reflexivity].
      destruct (String.eqb_spec (mode self) Lane_Counter);
        [contradiction|reflexivity].
Qed.

(** The counting step on one track, in the terms of the source. *)
Lemma count_one_spec ln t ic oc :
  let t' := fst (fst (count_one ln t ic oc)) in
  let ic' := snd (fst (count_one ln t ic oc)) in
  let oc' := snd (count_one ln t ic oc) in
  (lane t' = lane_enter <-> fst (centroid t) < split_x ln) /\
  (lane t' = lane_exit <-> split_x ln <= fst (centroid t)) /\
  (lane t' = lane_enter /\ box_y2 (bbox t) > entry_y ln /\
   counted_in t = false ->
   ic' = ic + 1 /\ counted_in t' = true) /\
  (~ (lane t' = lane_enter /\ box_y2 (bbox t) > entry_y ln /\
      counted_in t = false) ->
   ic' = ic /\ counted_in t' = counted_in t) /\
  (lane t' = lane_exit /\ box_y1 (bbox t) < exit_y ln /\
   counted_out t = false ->
   oc' = oc + 1 /\ counted_out t' = true) /\
  (~ (lane t' = lane_exit /\ box_y1 (bbox t) < exit_y ln /\
      counted_out t = false) ->
   oc' = oc /\ counted_out t' = counted_out t) /\
  count_one ln t' ic' oc' = (t', ic', oc').
Proof.
  intros t' ic' oc'. subst t' ic' oc'.
  rewrite !count_one_eq. cbn [fst snd].
  rewrite !counted_track_eq. cbn [bbox centroid lane counted_in counted_out
                                   status last_frame_id].
  unfold crossing_in, crossing_out.
  cbn [bbox centroid lane counted_in counted_out status last_frame_id].
  destruct (Z.ltb_spec (fst (centroid t)) (split_x ln)) as [Hx|Hx];
    destruct (Z.ltb_spec (entry_y ln) (box_y2 (bbox t))) as [He|He];
    destruct (Z.ltb_spec (box_y1 (bbox t)) (exit_y ln)) as [Ho|Ho];
    destruct (counted_in t) eqn:Hci; destruct (counted_out t) eqn:Hco;
    cbn [andb orb negb bump];
    rewrite ?Z.add_0_r;
    (refine (conj _ (conj _ (conj _ (conj _ (conj _ (conj _ eq_refl)))))));
    try (split; intros; first [lia | discriminate | reflexivity]);
    try (intros (? & ? & ?); first [discriminate | lia | split; reflexivity]);
    try (intros Hn; first [split; reflexivity
                          | exfalso; apply Hn; repeat split; lia]).
Qed.

(** C2: the counting step of Lane Counter mode on one track, with t' the
    track and ic', oc' the counters it leaves: ic' = ic + 1 and counted_in
    becomes true exactly when the lane (set from the centroid: enter iff
    x is strictly left of the split) is enter, y2 > entry_y and counted_in
    was false, otherwise ic' = ic and counted_in is unchanged; the same for
    oc' with lane exit, y1 < exit_y and counted_out; running the step again
    on t' changes neither the track nor the counters. Over a call to
    [update] each counter moves by the sum of what the tracks of the
    dictionary add, and over any sequence of calls without reset_counts one
    track id adds at most 1 to in_count and at most 1 to out_count. *)
Theorem crossing_counted_once_per_track_and_direction :
  (forall ln t ic oc,
      let t' := fst (fst (count_one ln t ic oc)) in
      let ic' := snd (fst (count_one ln t ic oc)) in
      let oc' := snd (count_one ln t ic oc) in
      (lane t' = lane_enter <-> fst (centroid t) < split_x ln) /\
      (lane t' = lane_exit <-> split_x ln <= fst (centroid t)) /\
      (lane t' = lane_enter /\ box_y2 (bbox t) > entry_y ln /\
       counted_in t = false ->
       ic' = ic + 1 /\ counted_in t' = true) /\
      (~ (lane t' = lane_enter /\ box_y2 (bbox t) > entry_y ln /\
          counted_in t = false) ->
       ic' = ic /\ counted_in t' = counted_in t) /\
      (lane t' = lane_exit /\ box_y1 (bbox t) < exit_y ln /\
       counted_out t = false ->
       oc' = oc + 1 /\ counted_out t' = true) /\
      (~ (lane t' = lane_exit /\ box_y1 (bbox t) < exit_y ln /\
          counted_out t = false) ->
       oc' = oc /\ counted_out t' = counted_out t) /\
      count_one ln t' ic' oc' = (t', ic', oc')) /\
  (forall dir self dets fr s' r,
      wf self ->
      update self dets fr = Some (s', r) ->
      counter dir s' =
      counter dir self +
      sum_over (added dir self dets fr) (Dict.keys (tracked_objects s'))) /\
  (forall dir id self cs,
      wf self ->
      forallb (fun c => negb (is_reset c)) cs = true ->
      0 <= lifetime dir id self cs <= 1).
Proof.
  split; [|split].
  - exact count_one_spec.
  - exact update_added_sum.
  - intros dir id self cs. apply lifetime_range.
Qed.

Lemma crossing_counted_once_per_track_and_direction_witness :
  wf (init Lane_Counter) /\
  forallb (fun c => negb (is_reset c)) crossing_session = true /\
  option_map in_count (exec (init Lane_Counter) crossing_session) = Some 1 /\
  lifetime entering 0 (init Lane_Counter) crossing_session = 1 /\
  0 <= lifetime entering 0 (init Lane_Counter) crossing_session <= 1.
Proof.
  assert (Hwf : wf (init Lane_Counter)) by (split; constructor).
  split; [exact Hwf|]. split; [reflexivity|].
  split; [vm_compute; reflexivity|]. split; [vm_compute; reflexivity|].
  apply (proj2 (proj2 crossing_counted_once_per_track_and_direction)
           entering 0 (init Lane_Counter) crossing_session Hwf).
  reflexivity.
Defined.

(** * Further properties of the tracker *)

(** ** Geometry *)

Lemma int64_id z : is_int64 z -> int64 z = z.
Proof.
  unfold is_int64, int64. intros H.
  rewrite Z.mod_small by lia. lia.
Qed.

Lemma int64_range z : is_int64 (int64 z).
Proof.
  unfold is_int64, int64.
  pose proof (Z.mod_pos_bound (z + 2 ^ 63) (2 ^ 64)). lia.
Qed.

Lemma square_bound a :
  Z.abs a <= 2 ^ 31 - 1 -> 0 <= a ^ 2 <= (2 ^ 31 - 1) * (2 ^ 31 - 1).
Proof.
  intros H. rewrite Z.pow_2_r. split; [apply Z.square_nonneg|].
  rewrite <- Z.abs_square.
  apply Z.mul_le_mono_nonneg; lia.
Qed.

(** X1 (geometry): for a box of int64 coordinates with x1 <= x2 and
    y1 <= y2 whose sums x1 + x2 and y1 + y2 are int64 values, the centroid
    computed on int64 scalars is the one computed on Python ints and lies
    inside the box, also for negative coordinates (floor division). The
    bound on the sums is needed: for x1 = x2 = 2^62 the int64 sum wraps
    and the centroid is left of the box. *)
Theorem centroid_inside_box : forall x1 y1 x2 y2,
  is_int64 (x1 + x2) -> is_int64 (y1 + y2) ->
  x1 <= x2 -> y1 <= y2 ->
  np_get_centroid (x1, y1, x2, y2) = _get_centroid (x1, y1, x2, y2) /\
  x1 <= fst (np_get_centroid (x1, y1, x2, y2)) <= x2 /\
  y1 <= snd (np_get_centroid (x1, y1, x2, y2)) <= y2 /\
  fst (np_get_centroid (2 ^ 62, 0, 2 ^ 62, 0)) = - 2 ^ 62.
Proof.
  intros x1 y1 x2 y2 Hsx Hsy Hx Hy.
  unfold np_get_centroid, _get_centroid.
  rewrite (int64_id _ Hsx), (int64_id _ Hsy). cbn [fst snd].
  pose proof (Z.div_le_lower_bound (x1 + x2) 2 x1).
  pose proof (Z.div_le_upper_bound (x1 + x2) 2 x2).
  pose proof (Z.div_le_lower_bound (y1 + y2) 2 y1).
  pose proof (Z.div_le_upper_bound (y1 + y2) 2 y2).
  split; [reflexivity|]. split; [lia|]. split; [lia|].
  vm_compute. reflexivity.
Qed.

Lemma centroid_inside_box_witness :
  is_int64 (-7 + 4) /\ is_int64 (-3 + -2) /\ -7 <= 4 /\ -3 <= -2 /\
  np_get_centroid (-7, -3, 4, -2) = (-2, -3) /\
  -7 <= fst (np_get_centroid (-7, -3, 4, -2)) <= 4.
Proof.
  assert (H1 : is_int64 (-7 + 4)) by (unfold is_int64; lia).
  assert (H2 : is_int64 (-3 + -2)) by (unfold is_int64; lia).
  split; [exact H1|]. split; [exact H2|].
  split; [lia|]. split; [lia|]. split; [reflexivity|].
  apply (centroid_inside_box (-7) (-3) 4 (-2) H1 H2); lia.
Defined.

(** X2 (geometry): between points whose coordinates are below 2^30 in
    absolute value, the squared distance computed on int64 scalars is the
    one computed on Python ints; it is symmetric, never negative, and zero
    exactly between equal points. The bound is needed: between
    (2^30, 2^30) and (-2^30, -2^30) the int64 sum of the two squares wraps
    to -2^63, and two points 2^32 apart have int64 squared distance 0. *)
Theorem distance_sq_metric : forall p q,
  Z.abs (fst p) < 2 ^ 30 -> Z.abs (snd p) < 2 ^ 30 ->
  Z.abs (fst q) < 2 ^ 30 -> Z.abs (snd q) < 2 ^ 30 ->
  np_distance_sq p q = _distance_sq p q /\
  np_distance_sq p q = np_distance_sq q p /\
  0 <= np_distance_sq p q /\
  (np_distance_sq p q = 0 <-> p = q) /\
  np_distance_sq (2 ^ 30, 2 ^ 30) (- 2 ^ 30, - 2 ^ 30) = - 2 ^ 63 /\
  np_distance_sq (2 ^ 32, 0) (0, 0) = 0.
Proof.
  intros [px py] [qx qy]. cbn [fst snd]. intros Hpx Hpy Hqx Hqy.
  assert (Heq : forall ax ay bx by_,
            Z.abs ax < 2 ^ 30 -> Z.abs ay < 2 ^ 30 ->
            Z.abs bx < 2 ^ 30 -> Z.abs by_ < 2 ^ 30 ->
            np_distance_sq (ax, ay) (bx, by_) =
            _distance_sq (ax, ay) (bx, by_)).
  { intros ax ay bx by_ Hax Hay Hbx Hby.
    unfold np_distance_sq, _distance_sq. cbn [fst snd].
    assert (Hdx : Z.abs (ax - bx) <= 2 ^ 31 - 1) by lia.
    assert (Hdy : Z.abs (ay - by_) <= 2 ^ 31 - 1) by lia.
    pose proof (square_bound _ Hdx) as Hsx.
    pose proof (square_bound _ Hdy) as Hsy.
    rewrite (int64_id (ax - bx)) by (unfold is_int64; lia).
    rewrite (int64_id (ay - by_)) by (unfold is_int64; lia).
    rewrite (int64_id ((ax - bx) ^ 2)) by (unfold is_int64; lia).
    rewrite (int64_id ((ay - by_) ^ 2)) by (unfold is_int64; lia).
    apply int64_id. unfold is_int64. lia. }
  rewrite (Heq px py qx qy), (Heq qx qy px py) by assumption.
  unfold _distance_sq. cbn [fst snd]. rewrite !Z.pow_2_r.
  pose proof (Z.square_nonneg (px - qx)) as Hx.
  pose proof (Z.square_nonneg (py - qy)) as Hy.
  split; [reflexivity|]. split; [ring|]. split; [lia|].
  split; [|split; vm_compute; reflexivity].
  split.
  - intros H.
    assert (Hx0 : (px - qx) * (px - qx) = 0) by lia.
    assert (Hy0 : (py - qy) * (py - qy) = 0) by lia.
    apply Z.mul_eq_0 in Hx0. apply Z.mul_eq_0 in Hy0.
    f_equal; lia.
  - intros [= -> ->]. ring.
Qed.

Lemma distance_sq_metric_witness :
  Z.abs (fst (104, 104)) < 2 ^ 30 /\ Z.abs (snd (104, 104)) < 2 ^ 30 /\
  Z.abs (fst (100, -120)) < 2 ^ 30 /\ Z.abs (snd (100, -120)) < 2 ^ 30 /\
  np_distance_sq (104, 104) (100, -120) = 50192 /\
  np_distance_sq (100, -120) (104, 104) = 50192.
Proof.
  assert (H1 : Z.abs (fst (104, 104)) < 2 ^ 30) by (simpl; lia).
  assert (H2 : Z.abs (snd (104, 104)) < 2 ^ 30) by (simpl; lia).
  assert (H3 : Z.abs (fst (100, -120)) < 2 ^ 30) by (simpl; lia).
  assert (H4 : Z.abs (snd (100, -120)) < 2 ^ 30) by (simpl; lia).
  refine (conj H1 (conj H2 (conj H3 (conj H4 _)))).
  destruct (distance_sq_metric (104, 104) (100, -120) H1 H2 H3 H4)
    as (_ & Hsym & _).
  split; [reflexivity|]. rewrite <- Hsym. reflexivity.
Defined.

(** ** How many tracks a call can create *)

Lemma length_remove_stale self :
  (List.length (tracked_objects (remove_stale self))
   <= List.length (tracked_objects self))%nat.
Proof.
  unfold remove_stale. simpl. rewrite DictFacts.fold_del.
  apply filter_length_le.
Qed.

(** X (creation): a call to [update] hands out at most one id per person
    detection of the frame, and the dictionary grows by no more than the
    number of ids handed out. *)
Theorem update_creates_at_most_one_track_per_person :
  forall self dets fr s' r,
    update self dets fr = Some (s', r) ->
    next_id self <= next_id s' /\
    next_id s' <= next_id self +
                  Z.of_nat (List.length (current_persons_detections dets)) /\
    Z.of_nat (List.length (tracked_objects s')) <=
    Z.of_nat (List.length (tracked_objects self)) +
    (next_id s' - next_id self).
Proof.
  intros self dets fr s' r Hu.
  destruct (update_phases _ _ _ _ _ Hu)
    as (s1 & s2 & upd & n & Hi & Ha & _ & Hc & _).
  pose proof (init_thresholds_keeps _ _ _ Hi) as (Ho1 & Hn1 & _).
  pose proof (associate_growth (current_persons_detections dets) (s1, []))
    as Hg. cbv zeta in Hg.
  fold (associate s1 (current_persons_detections dets)) in Hg.
  rewrite Ha in Hg. simpl fst in Hg.
  pose proof (length_remove_stale s2) as Hr.
  pose proof (count_settings _ _ _ _ Hc)
    as (_ & _ & _ & _ & Hn3 & _ & _ & _ & Hk & _).
  assert (Hlen : List.length (tracked_objects s') =
                 List.length (tracked_objects (remove_stale s2))).
  { unfold Dict.keys in Hk.
    rewrite <- (length_map fst (tracked_objects s')), Hk.
    apply length_map. }
  simpl in Hn3, Ho1, Hn1. rewrite Ho1, Hn1 in Hg. lia.
Qed.

Lemma update_creates_at_most_one_track_per_person_witness :
  exists s' r,
    update (busy_tracker Lane_Counter) sample_detections vga = Some (s', r) /\
    6 <= next_id s' <= 6 + 2 /\
    Z.of_nat (List.length (tracked_objects s')) <= 2 + (next_id s' - 6).
Proof.
  destruct (update (busy_tracker Lane_Counter) sample_detections vga)
    as [[s' r]|] eqn:Hu; [|vm_compute in Hu; discriminate].
  exists s', r. split; [reflexivity|].
  pose proof (update_creates_at_most_one_track_per_person
                _ _ _ _ _ Hu) as (H1 & H2 & H3).
  change (next_id (busy_tracker Lane_Counter)) with 6 in H1, H2, H3.
  change (Z.of_nat (List.length
            (current_persons_detections sample_detections))) with 2 in H2.
  change (Z.of_nat (List.length
            (tracked_objects (busy_tracker Lane_Counter)))) with 2 in H3.
  lia.
Defined.

(** ** Tracks seen in the frame *)

Lemma set_add_not_nil k s : Py.set_add k s <> [].
Proof.
  destruct s as [|k' s]; simpl; [discriminate|].
  destruct (k' =? k); discriminate.
Qed.

Lemma associate_one_updated su d : snd (associate_one su d) <> [].
Proof.
  destruct su as [s upd].
  destruct (associate_one_cases s upd d)
    as [(l1 & id & t & l2 & _ & _ & _ & _ & ->)|[_ ->]]; simpl;
    apply set_add_not_nil.
Qed.

Lemma associate_updated ds : forall su,
  ds <> [] \/ snd su <> [] -> snd (fold_left associate_one ds su) <> [].
Proof.
  induction ds as [|d ds IH]; intros su H; simpl.
  - destruct H as [H|H]; [congruence|exact H].
  - apply IH. right. apply associate_one_updated.
Qed.

(** X (seen tracks): with a non-negative stale threshold, every id that
    the association loop matched or created in a frame is in the
    dictionary after the call, with last_frame_id equal to the new frame
    counter; and a frame with at least one person detection touches at
    least one id, so it never leaves the dictionary empty. *)
Theorem tracks_seen_in_the_frame_survive_it :
  forall self dets fr s2 upd s' r,
    wf self ->
    0 <= stale_frame_threshold self ->
    associated self dets fr = Some (s2, upd) ->
    update self dets fr = Some (s', r) ->
    frame_id s' = frame_id self + 1 /\
    (forall k, In k upd ->
       exists t', Dict.get (tracked_objects s') k = Some t' /\
                  last_frame_id t' = frame_id s') /\
    (current_persons_detections dets <> [] ->
     upd <> [] /\ tracked_objects s' <> []).
Proof.
  intros self dets fr s2 upd s' r Hwf Hthr Has Hu.
  destruct (update_phases _ _ _ _ _ Hu)
    as (s1 & s2' & upd' & n & Hi & Ha & Has' & Hc & _).
  rewrite Has in Has'. injection Has' as <- <-.
  destruct (associated_inv _ _ _ _ _ Hwf Has)
    as (s1' & _ & _ & _ & Hf1 & Hst1 & Hinv).
  destruct Hinv as (Hset & _ & Hwf2 & _ & _ & Hupd).
  injection Hset as _ _ _ _ _ _ Hf Hd Hs.
  pose proof (update_settings _ _ _ _ _ Hu) as (_ & Hfid & _).
  assert (Hseen : forall k, In k upd ->
            exists t', Dict.get (tracked_objects s') k = Some t' /\
                       last_frame_id t' = frame_id s').
  { intros k Hk. destruct (Hupd _ Hk) as (t & Hg & Hl).
    pose proof (count_get _ _ _ _ Hc k) as Hcg.
    rewrite remove_stale_get in Hcg by apply Hwf2. rewrite Hg in Hcg.
    unfold is_stale in Hcg.
    destruct (Z.ltb_spec (stale_frame_threshold s2)
                (frame_id s2 - last_frame_id t)) as [Hlt|_]; [lia|].
    destruct Hcg as (t' & Hg' & _ & _ & _ & Hl' & _).
    exists t'. split; [exact Hg'|]. lia. }
  split; [exact Hfid|]. split; [exact Hseen|].
  intros Hne.
  assert (Hu' : upd <> []).
  { pose proof (associate_updated (current_persons_detections dets)
                  (s1, []) (or_introl Hne)) as H.
    fold (associate s1 (current_persons_detections dets)) in H.
    now rewrite Ha in H. }
  split; [exact Hu'|].
  destruct upd as [|k upd]; [congruence|].
  destruct (Hseen k (or_introl eq_refl)) as (t' & Hg & _).
  intros Hnil. rewrite Hnil in Hg. discriminate.
Qed.

Lemma tracks_seen_in_the_frame_survive_it_witness :
  wf (busy_tracker Lane_Counter) /\
  0 <= stale_frame_threshold (busy_tracker Lane_Counter) /\
  exists s2 s' r,
    associated (busy_tracker Lane_Counter) sample_detections vga =
    Some (s2, [3; 6]) /\
    update (busy_tracker Lane_Counter) sample_detections vga =
    Some (s', r) /\
    Dict.keys (tracked_objects s') = [3; 6] /\
    frame_id s' = frame_id (busy_tracker Lane_Counter) + 1.
Proof.
  assert (Hwf : wf (busy_tracker Lane_Counter)).
  { split; simpl.
    - repeat constructor; simpl; intuition lia.
    - repeat constructor; lia. }
  split; [exact Hwf|]. split; [simpl; lia|].
  destruct (associated (busy_tracker Lane_Counter) sample_detections vga)
    as [[s2 upd]|] eqn:Ha; [|vm_compute in Ha; discriminate].
  destruct (update (busy_tracker Lane_Counter) sample_detections vga)
    as [[s' r]|] eqn:Hu; [|vm_compute in Hu; discriminate].
  assert (H0 : 0 <= stale_frame_threshold (busy_tracker Lane_Counter))
    by (simpl; lia).
  pose proof (tracks_seen_in_the_frame_survive_it
                _ _ _ _ _ _ _ Hwf H0 Ha Hu) as (Hf & _).
  exists s2, s', r.
  vm_compute in Ha. injection Ha as <- <-.
  split; [reflexivity|]. split; [reflexivity|].
  split; [|exact Hf].
  vm_compute in Hu. injection Hu as <- _. reflexivity.
Defined.

(** ** Trackers built by calls from [init] *)

Lemma Forall_modify (P : Z * track -> Prop) (d : Dict.t track) k f :
  Forall P d -> (forall k' v, P (k', v) -> P (k', f v)) ->
  Forall P (Dict.modify d k f).
Proof.
  intros H Hf. induction H as [|[k0 v0] d Hx Hd IH]; simpl; [constructor|].
  destruct (k0 =? k); constructor; auto.
Qed.

Lemma StronglySorted_snoc (l : list Z) x :
  StronglySorted Z.lt l -> Forall (fun k => k < x) l ->
  StronglySorted Z.lt (l ++ [x]).
Proof.
  induction 1 as [|a l Hs IH Ha]; intros Hx; simpl.
  - repeat constructor.
  - inversion Hx; subst. constructor; [now apply IH|].
    apply Forall_app. split; [exact Ha|]. repeat constructor. assumption.
Qed.

Lemma StronglySorted_keys_filter (p : Z * track -> bool) (d : Dict.t track) :
  StronglySorted Z.lt (Dict.keys d) ->
  StronglySorted Z.lt (Dict.keys (filter p d)).
Proof.
  induction d as [|[k v] d IH]; simpl; intros Hs; [constructor|].
  inversion Hs as [|? ? Hs' Hk]; subst.
  destruct (p (k, v)); simpl; [|now apply IH].
  constructor; [now apply IH|].
  apply Forall_forall. intros x Hx. rewrite Forall_forall in Hk.
  apply Hk. eapply DictFacts.keys_filter_incl; eauto.
Qed.

Lemma StronglySorted_NoDup (l : list Z) :
  StronglySorted Z.lt l -> NoDup l.
Proof.
  induction 1 as [|a l Hs IH Ha]; constructor; [|exact IH].
  intros Hin. rewrite Forall_forall in Ha. specialize (Ha _ Hin). lia.
Qed.

Lemma tidy_wf self : tidy self -> wf self.
Proof.
  intros (Hs & Hr & _). split.
  - now apply StronglySorted_NoDup.
  - eapply Forall_impl; [|exact Hr]. simpl. intros; lia.
Qed.

Lemma det_box_person_at b : det_box (person_at b) = b.
Proof. destruct b as [[[x1 y1] x2] y2]. reflexivity. Qed.

(** The association loop on a well formed tracker either updates one
    track in place or appends a track under the next id. *)
Lemma associate_one_shape s upd d :
  wf s ->
  let b := det_box d in
  let c := _get_centroid b in
  settings (fst (associate_one (s, upd) d)) = settings s /\
  ((exists id,
       tracked_objects (fst (associate_one (s, upd) d)) =
       Dict.modify (tracked_objects s) id (touch b c (frame_id s)) /\
       next_id (fst (associate_one (s, upd) d)) = next_id s)
   \/
   (tracked_objects (fst (associate_one (s, upd) d)) =
    tracked_objects s ++ [(next_id s, new_track b c (frame_id s))] /\
    next_id (fst (associate_one (s, upd) d)) = next_id s + 1)).
Proof.
  intros Hwf b c.
  destruct (associate_one_cases s upd d)
    as [(l1 & id & t & l2 & _ & _ & _ & _ & ->)|[_ ->]]; simpl.
  - split; [reflexivity|]. left. exists id. auto.
  - split; [reflexivity|]. right.
    rewrite DictFacts.set_fresh by now apply wf_fresh. auto.
Qed.

Lemma associate_preserves (P : PeopleTracker -> Prop) :
  (forall s upd d, P s -> P (fst (associate_one (s, upd) d))) ->
  forall ds su, P (fst su) -> P (fst (fold_left associate_one ds su)).
Proof.
  intros Hstep. induction ds as [|d ds IH]; intros [s upd] H; simpl;
    [exact H|].
  apply IH. apply Hstep. exact H.
Qed.

Lemma associate_one_tidy s upd d :
  tidy s /\ 1 <= frame_id s ->
  tidy (fst (associate_one (s, upd) d)) /\
  1 <= frame_id (fst (associate_one (s, upd) d)).
Proof.
  intros [Ht Hf1]. pose proof (tidy_wf _ Ht) as Hwf.
  destruct Ht as (Hs & Hr & Hn & Hf & Hd & Hst & Hg).
  pose proof (associate_one_shape s upd d Hwf) as Hsh. cbv zeta in Hsh.
  remember (fst (associate_one (s, upd) d)) as s' eqn:Es. clear Es.
  destruct Hsh as (Hset & Hsh).
  injection Hset as _ _ _ _ _ _ Hf' Hd' Hst'.
  destruct Hsh as [(id & Ho & Hn')|(Ho & Hn')];
    (split; [|rewrite Hf'; lia]); unfold tidy;
    rewrite Ho, Hn', Hf', Hd', Hst'.
  - rewrite DictFacts.keys_modify.
    refine (conj Hs (conj Hr (conj Hn (conj Hf (conj Hd (conj Hst _)))))).
    apply Forall_modify; [exact Hg|].
    intros k' v (Ha & _ & _). unfold good_track. simpl in *.
    split; [exact Ha|]. split; [reflexivity|lia].
  - rewrite DictFacts.keys_app. simpl.
    refine (conj _ (conj _ (conj _ (conj Hf (conj Hd (conj Hst _)))))).
    + apply StronglySorted_snoc; [exact Hs|].
      eapply Forall_impl; [|exact Hr]. simpl. intros; lia.
    + apply Forall_app. split.
      * eapply Forall_impl; [|exact Hr]. simpl. intros; lia.
      * repeat constructor; lia.
    + lia.
    + apply Forall_app. split; [exact Hg|].
      constructor; [|constructor]. unfold good_track. simpl.
      split; [reflexivity|]. split; [reflexivity|lia].
Qed.

Lemma good_track_counted fid ln t :
  good_track fid t -> good_track fid (counted_track ln t).
Proof. rewrite counted_track_eq. intros H. exact H. Qed.

(** After a call every track of the dictionary was seen at most
    stale_frame_threshold frames ago. *)
Lemma update_tidy self dets fr s' r :
  tidy self ->
  update self dets fr = Some (s', r) ->
  tidy s' /\
  Forall (fun e => frame_id s' - last_frame_id (snd e) <= 30)
    (tracked_objects s').
Proof.
  intros Ht Hu.
  destruct (update_phases _ _ _ _ _ Hu)
    as (s1 & s2 & upd & n & Hi & Ha & _ & Hc & _).
  pose proof (init_thresholds_keeps _ _ _ Hi)
    as (Ho1 & Hn1 & _ & _ & _ & Hf1 & Hd1 & Hst1).
  simpl in Ho1, Hn1, Hf1, Hd1, Hst1.
  assert (Ht1 : tidy s1 /\ 1 <= frame_id s1).
  { destruct Ht as (Hs & Hr & Hn & Hf & Hd & Hst & Hg).
    split; [|lia]. unfold tidy. rewrite Ho1, Hn1, Hf1, Hd1, Hst1.
    refine (conj Hs (conj Hr (conj Hn (conj _ (conj Hd (conj Hst _))))));
      [lia|].
    eapply Forall_impl; [|exact Hg]. intros e (A & B & C).
    repeat split; auto; lia. }
  pose proof (associate_preserves
                (fun s => tidy s /\ 1 <= frame_id s)
                (fun s u d H => associate_one_tidy s u d H)
                (current_persons_detections dets) (s1, []) Ht1) as Ht2.
  fold (associate s1 (current_persons_detections dets)) in Ht2.
  rewrite Ha in Ht2. simpl fst in Ht2. destruct Ht2 as [Ht2 _].
  pose proof (tidy_wf _ Ht2) as [Hnd2 _].
  destruct Ht2 as (Hs & Hr & Hn & Hf & Hd & Hst & Hg).
  pose proof (remove_stale_objects s2 Hnd2) as Ho3.
  pose proof (count_settings _ _ _ _ Hc)
    as (_ & _ & _ & _ & Hn4 & Hf4 & Hd4 & Hst4 & Hk4 & _).
  simpl in Hn4, Hf4, Hd4, Hst4.
  assert (Hkeys : Dict.keys (tracked_objects s') =
                  Dict.keys (filter (fun e => negb (is_stale s2 (snd e)))
                               (tracked_objects s2)))
    by (rewrite Hk4, Ho3; reflexivity).
  assert (Htracks : forall k t', In (k, t') (tracked_objects s') ->
            exists t, In (k, t) (tracked_objects s2) /\
                      is_stale s2 t = false /\
                      status t' = status t /\ centroid t' = centroid t /\
                      bbox t' = bbox t /\
                      last_frame_id t' = last_frame_id t).
  { intros k t' Hin.
    assert (Hnd' : NoDup (Dict.keys (tracked_objects s'))).
    { rewrite Hkeys. apply DictFacts.NoDup_keys_filter. exact Hnd2. }
    pose proof (DictFacts.In_get _ _ _ Hnd' Hin) as Hg'.
    pose proof (count_get _ _ _ _ Hc k) as Hcg. rewrite Ho3 in Hcg.
    rewrite DictFacts.get_filter in Hcg by exact Hnd2.
    destruct (Dict.get (tracked_objects s2) k) as [t|] eqn:Hg2;
      [|congruence].
    simpl in Hcg. destruct (is_stale s2 t) eqn:Hst2; simpl in Hcg;
      [congruence|].
    destruct Hcg as (t1 & Hg1 & Hb & Hce & Hsta & Hl & _).
    assert (t1 = t') by congruence. subst t1.
    exists t. apply DictFacts.get_In in Hg2.
    refine (conj Hg2 (conj Hst2 (conj Hsta (conj Hce (conj Hb Hl))))). }
  split.
  - unfold tidy. rewrite Hkeys, Hn4, Hf4, Hd4, Hst4.
    refine (conj _ (conj _ (conj Hn (conj Hf (conj Hd (conj Hst _)))))).
    + now apply StronglySorted_keys_filter.
    + apply Forall_forall. intros k Hk. rewrite Forall_forall in Hr.
      apply Hr. eapply DictFacts.keys_filter_incl; eauto.
    + apply Forall_forall. intros [k t'] Hin.
      destruct (Htracks _ _ Hin) as (t & Hin2 & _ & Hsta & Hce & Hb & Hl).
      rewrite Forall_forall in Hg. destruct (Hg _ Hin2) as (A & B & C).
      simpl in *. unfold good_track. rewrite Hsta, Hce, Hb, Hl. auto.
  - apply Forall_forall. intros [k t'] Hin.
    destruct (Htracks _ _ Hin) as (t & _ & Hns & _ & _ & _ & Hl).
    unfold is_stale in Hns. apply Z.ltb_ge in Hns.
    simpl. rewrite Hl, Hf4. lia.
Qed.

Lemma exec_tidy cs : forall self s',
  tidy self /\
  Forall (fun e => frame_id self - last_frame_id (snd e) <= 30)
    (tracked_objects self) ->
  exec self cs = Some s' ->
  tidy s' /\
  Forall (fun e => frame_id s' - last_frame_id (snd e) <= 30)
    (tracked_objects s').
Proof.
  induction cs as [|c cs IH]; intros self s' H; simpl.
  - now intros [= <-].
  - destruct (exec_call self c) as [s|] eqn:Hc; [|discriminate].
    apply IH. destruct c as [dets fr| |m]; simpl in Hc.
    + destruct (update self dets fr) as [[s0 r]|] eqn:Hu; [|discriminate].
      injection Hc as <-. eapply update_tidy; [apply H|exact Hu].
    + injection Hc as <-.
      destruct H as [(_ & _ & _ & _ & Hd & Hst & _) _].
      split; [|constructor]. unfold tidy. simpl.
      repeat split; try constructor; auto; lia.
    + injection Hc as <-. exact H.
Qed.

Lemma reachable_tidy m cs s :
  exec (init m) cs = Some s ->
  tidy s /\
  Forall (fun e => frame_id s - last_frame_id (snd e) <= 30)
    (tracked_objects s).
Proof.
  apply exec_tidy. split; [|constructor].
  unfold tidy. simpl. repeat split; try constructor; lia.
Qed.

(** X (ids): in a tracker built from a new one by any calls (updates,
    reset_counts, mode changes) the ids of the dictionary are distinct,
    non-negative, below next_id, and the dictionary iterates them in
    increasing order, so the first-wins tie-break of the matching loop
    favours the lowest id. *)
Theorem reachable_ids_in_increasing_order : forall m cs s,
  exec (init m) cs = Some s ->
  StronglySorted Z.lt (Dict.keys (tracked_objects s)) /\
  NoDup (Dict.keys (tracked_objects s)) /\
  Forall (fun k => 0 <= k < next_id s) (Dict.keys (tracked_objects s)).
Proof.
  intros m cs s He.
  destruct (reachable_tidy _ _ _ He) as [(Hs & Hr & _) _].
  split; [exact Hs|]. split; [|exact Hr].
  now apply StronglySorted_NoDup.
Qed.

Lemma reachable_ids_in_increasing_order_witness :
  exists s,
    exec (init Lane_Counter)
      (mixed_session ++ [call_update sample_detections vga]) = Some s /\
    Dict.keys (tracked_objects s) = [0; 1; 2] /\
    NoDup (Dict.keys (tracked_objects s)).
Proof.
  destruct (exec (init Lane_Counter)
              (mixed_session ++ [call_update sample_detections vga]))
    as [s|] eqn:He; [|vm_compute in He; discriminate].
  exists s. split; [reflexivity|].
  pose proof (reachable_ids_in_increasing_order _ _ _ He) as (_ & Hnd & _).
  split; [|exact Hnd].
  vm_compute in He. injection He as <-. reflexivity.
Defined.

(** X (tracks): every track of a tracker built from a new one by any
    calls has status 'active', its centroid is the centroid of its bbox,
    it was last seen on a frame between 1 and the frame counter, and not
    more than 30 frames ago. *)
Theorem reachable_tracks_are_active_and_recent : forall m cs s k t,
  exec (init m) cs = Some s ->
  In (k, t) (tracked_objects s) ->
  status t = "active"%string /\
  centroid t = _get_centroid (bbox t) /\
  1 <= last_frame_id t <= frame_id s /\
  frame_id s - last_frame_id t <= 30.
Proof.
  intros m cs s k t He Hin.
  destruct (reachable_tidy _ _ _ He) as [(_ & _ & _ & _ & _ & _ & Hg) Hgap].
  rewrite Forall_forall in Hg, Hgap.
  destruct (Hg _ Hin) as (A & B & C). specialize (Hgap _ Hin).
  simpl in *. auto.
Qed.

Lemma reachable_tracks_are_active_and_recent_witness :
  exists s t,
    exec (init Lane_Counter)
      (mixed_session ++ [call_update sample_detections vga]) = Some s /\
    In (0, t) (tracked_objects s) /\
    status t = "active"%string /\ frame_id s - last_frame_id t <= 30.
Proof.
  destruct (exec (init Lane_Counter)
              (mixed_session ++ [call_update sample_detections vga]))
    as [s|] eqn:He; [|vm_compute in He; discriminate].
  destruct (Dict.get (tracked_objects s) 0) as [t|] eqn:Hg;
    [|vm_compute in He; injection He as <-; discriminate].
  apply DictFacts.get_In in Hg.
  exists s, t. split; [reflexivity|]. split; [exact Hg|].
  destruct (reachable_tracks_are_active_and_recent _ _ _ _ _ He Hg)
    as (A & _ & _ & D).
  auto.
Defined.

(** ** Counters against ids handed out *)

Lemma events_app ev (a b : Dict.t track) :
  events ev (a ++ b) = events ev a + events ev b.
Proof.
  induction a as [|[k t] a IH].
  - change ([] ++ b) with b. change (events ev []) with 0. lia.
  - change (((k, t) :: a) ++ b) with ((k, t) :: a ++ b).
    rewrite !events_cons, IH. lia.
Qed.

Lemma events_modify ev (d : Dict.t track) k f :
  (forall t, ev (f t) = ev t) ->
  events ev (Dict.modify d k f) = events ev d.
Proof.
  intros Hf. induction d as [|[k0 t0] d IH]; simpl; [reflexivity|].
  destruct (k0 =? k); rewrite !events_cons; [now rewrite Hf|].
  now rewrite IH.
Qed.

Lemma events_filter_le ev p (d : Dict.t track) :
  events ev (filter p d) <= events ev d.
Proof.
  induction d as [|[k t] d IH]; simpl; [lia|].
  destruct (p (k, t)); rewrite !events_cons;
    destruct (ev t); simpl bump; lia.
Qed.

Lemma unmarked_counted dir ln (objs : Dict.t track) :
  unmarked dir (map (fun e => (fst e, counted_track ln (snd e))) objs) +
  events (crossing dir ln) objs = unmarked dir objs.
Proof.
  unfold unmarked.
  induction objs as [|[k t] objs IH]; [reflexivity|].
  cbn [map fst snd]. rewrite !events_cons. rewrite counted_after.
  rewrite <- IH. destruct (crossing dir ln t) eqn:Hc.
  - rewrite (crossing_unmarked _ _ _ Hc). cbn [orb negb bump]. lia.
  - rewrite orb_false_r. cbn [bump]. lia.
Qed.

Lemma counter_settings dir s s' :
  settings s' = settings s -> counter dir s' = counter dir s.
Proof.
  intros H. injection H as _ _ _ _ Hi Ho _ _ _.
  destruct dir; simpl; assumption.
Qed.

Lemma associate_one_within dir s upd d :
  wf s /\ within_ids dir s ->
  wf (fst (associate_one (s, upd) d)) /\
  within_ids dir (fst (associate_one (s, upd) d)).
Proof.
  intros [Hwf [H0 Hle]].
  pose proof (associate_one_shape s upd d Hwf) as Hsh. cbv zeta in Hsh.
  remember (fst (associate_one (s, upd) d)) as s' eqn:Es. clear Es.
  destruct Hsh as (Hset & Hsh).
  pose proof (counter_settings dir _ _ Hset) as Hc.
  unfold within_ids, wf. rewrite Hc.
  destruct Hsh as [(id & -> & ->)|(-> & ->)].
  - rewrite DictFacts.keys_modify. split; [exact Hwf|].
    split; [exact H0|]. unfold unmarked.
    rewrite events_modify; [exact Hle|].
    intros t. destruct dir; reflexivity.
  - pose proof (wf_fresh _ Hwf) as Hfresh. destruct Hwf as [Hnd Hlt].
    rewrite DictFacts.keys_app. simpl. split; [split|].
    + apply NoDup_app; [exact Hnd|repeat constructor; intros []|].
      intros x Hx [<-|[]]. contradiction.
    + apply Forall_app. split.
      * eapply Forall_impl; [|exact Hlt]. simpl. intros; lia.
      * repeat constructor. lia.
    + split; [exact H0|]. unfold unmarked in *. rewrite events_app.
      unfold events at 2. cbn [filter snd].
      destruct dir; cbn [counted new_track counted_in counted_out negb
                         List.length] in *; lia.
Qed.

Lemma update_within dir self dets fr s' r :
  wf self -> within_ids dir self ->
  update self dets fr = Some (s', r) ->
  within_ids dir s'.
Proof.
  intros Hwf Hw Hu.
  destruct (update_phases _ _ _ _ _ Hu)
    as (s1 & s2 & upd & n & Hi & Ha & _ & Hc & _).
  pose proof (init_thresholds_keeps _ _ _ Hi)
    as (Ho1 & Hn1 & _ & Hi1 & Hc1 & _).
  simpl in Ho1, Hn1, Hi1, Hc1.
  assert (H1 : wf s1 /\ within_ids dir s1).
  { split; [apply (init_thresholds_wf _ _ _ Hi); exact Hwf|].
    unfold within_ids. rewrite Ho1, Hn1.
    replace (counter dir s1) with (counter dir self)
      by (destruct dir; simpl; congruence).
    exact Hw. }
  pose proof (associate_preserves
                (fun s => wf s /\ within_ids dir s)
                (fun s u d H => associate_one_within dir s u d H)
                (current_persons_detections dets) (s1, []) H1) as H2.
  fold (associate s1 (current_persons_detections dets)) in H2.
  rewrite Ha in H2. simpl fst in H2. destruct H2 as [Hwf2 [H0 Hle]].
  assert (H3 : within_ids dir (remove_stale s2)).
  { split; [destruct dir; exact H0|].
    unfold remove_stale. simpl tracked_objects. simpl next_id.
    rewrite DictFacts.fold_del.
    pose proof (events_filter_le (fun t => negb (counted dir t))
                  (fun e => negb (existsb (Z.eqb (fst e)) (stale_ids s2)))
                  (tracked_objects s2)) as Hf.
    unfold unmarked in *.
    replace (counter dir (with_objects s2
               (filter (fun e => negb (existsb (Z.eqb (fst e))
                                         (stale_ids s2)))
                  (tracked_objects s2)) (next_id s2)))
      with (counter dir s2) by (destruct dir; reflexivity).
    lia. }
  destruct H3 as [H30 H3le].
  remember (remove_stale s2) as s3 eqn:E3. clear E3.
  apply count_cases in Hc.
  destruct Hc as [(_ & -> & _)|[(_ & ln & _ & -> & _)|(_ & _ & -> & _)]].
  - split; assumption.
  - pose proof (unmarked_counted dir ln (tracked_objects s3)) as Hu'.
    pose proof (events_nonneg (crossing dir ln) (tracked_objects s3)) as Hnn.
    unfold within_ids. cbn [tracked_objects next_id with_counts].
    replace (counter dir
               (with_counts s3
                  (map (fun e => (fst e, counted_track ln (snd e)))
                     (tracked_objects s3))
                  (in_count s3 + events (crossing_in ln) (tracked_objects s3))
                  (out_count s3 +
                   events (crossing_out ln) (tracked_objects s3))))
      with (counter dir s3 + events (crossing dir ln) (tracked_objects s3))
      by (destruct dir; reflexivity).
    lia.
  - split; assumption.
Qed.

Lemma exec_within dir cs : forall self s',
  wf self -> within_ids dir self ->
  exec self cs = Some s' ->
  wf s' /\ within_ids dir s'.
Proof.
  induction cs as [|c cs IH]; intros self s' Hwf Hw; simpl.
  - intros [= <-]. auto.
  - destruct (exec_call self c) as [s|] eqn:Hc; [|discriminate].
    destruct c as [dets fr| |m]; simpl in Hc.
    + destruct (update self dets fr) as [[s0 r]|] eqn:Hu; [|discriminate].
      injection Hc as <-. apply IH.
      * eapply update_wf; eauto.
      * eapply update_within; eauto.
    + injection Hc as <-. apply IH.
      * split; constructor.
      * unfold within_ids, unmarked, events. destruct dir; simpl; lia.
    + injection Hc as <-. apply IH; [exact Hwf|].
      destruct dir; exact Hw.
Qed.

(** X (counters): in a tracker built from a new one by any calls, in_count
    and out_count lie between 0 and next_id, the number of ids handed out
    since the tracker was created or last reset; so the net total
    in_count - out_count lies between -next_id and next_id. *)
Theorem reachable_counts_bounded_by_ids_handed_out : forall m cs s,
  exec (init m) cs = Some s ->
  0 <= in_count s <= next_id s /\
  0 <= out_count s <= next_id s /\
  - next_id s <= in_count s - out_count s <= next_id s.
Proof.
  intros m cs s He.
  assert (Hin : within_ids entering (init m))
    by (unfold within_ids, unmarked, events; simpl; lia).
  assert (Hout : within_ids exiting (init m))
    by (unfold within_ids, unmarked, events; simpl; lia).
  destruct (exec_within entering _ _ _ (wf_init m) Hin He) as [_ [A B]].
  destruct (exec_within exiting _ _ _ (wf_init m) Hout He) as [_ [C D]].
  assert (0 <= unmarked entering (tracked_objects s))
    by apply events_nonneg.
  assert (0 <= unmarked exiting (tracked_objects s))
    by apply events_nonneg.
  change (counter entering s) with (in_count s) in A, B.
  change (counter exiting s) with (out_count s) in C, D.
  lia.
Qed.

Lemma reachable_counts_bounded_by_ids_handed_out_witness :
  exists s,
    exec (init Lane_Counter)
      (mixed_session ++ [call_update sample_detections vga]) = Some s /\
    out_count s = 1 /\ next_id s = 3 /\ 0 <= out_count s <= next_id s.
Proof.
  destruct (exec (init Lane_Counter)
              (mixed_session ++ [call_update sample_detections vga]))
    as [s|] eqn:He; [|vm_compute in He; discriminate].
  exists s. split; [reflexivity|].
  pose proof (reachable_counts_bounded_by_ids_handed_out _ _ _ He)
    as (_ & Ho & _).
  split; [|split; [|exact Ho]];
    vm_compute in He; injection He as <-; reflexivity.
Defined.

(** ** Identity of a track between resets *)

Lemma spent_exec dir id cs : forall self s',
  wf self -> spent dir id self ->
  forallb (fun c => negb (is_reset c)) cs = true ->
  exec self cs = Some s' -> spent dir id s'.
Proof.
  induction cs as [|c cs IH]; intros self s' Hwf Hsp Hnr; simpl.
  - now intros [= <-].
  - simpl in Hnr. apply andb_true_iff in Hnr. destruct Hnr as [Hc Hnr].
    destruct (exec_call self c) as [s|] eqn:Hx; [|discriminate].
    destruct c as [dets fr| |m]; simpl in Hx, Hc.
    + destruct (update self dets fr) as [[s0 r]|] eqn:Hu; [|discriminate].
      injection Hx as <-. apply IH; auto.
      * eapply update_wf; eauto.
      * eapply spent_update; eauto.
    + discriminate.
    + injection Hx as <-. apply IH; auto.
Qed.

Lemma gone_update id self dets fr s' r :
  wf self -> id < next_id self ->
  Dict.get (tracked_objects self) id = None ->
  update self dets fr = Some (s', r) ->
  Dict.get (tracked_objects s') id = None.
Proof.
  intros Hwf Hlt Hg Hu.
  destruct (update_phases _ _ _ _ _ Hu)
    as (s1 & sa & upd & n & _ & _ & Has & Hc & _).
  pose proof (count_get _ _ _ _ Hc id) as Hcg.
  destruct (Dict.get (tracked_objects (remove_stale sa)) id) as [t|] eqn:Hg';
    [|exact Hcg].
  destruct (survivor_origin _ _ _ _ _ _ _ Hwf Has Hg')
    as [(t0 & Hg0 & _)|(Hle & _)]; [congruence|lia].
Qed.

(** X (identity): between resets an id is never handed out twice: an id
    below next_id that is not in the dictionary (its track was evicted)
    is not in the dictionary after any further updates and mode changes,
    whatever is detected. *)
Theorem evicted_ids_are_never_reused : forall self cs s' id,
  wf self ->
  forallb (fun c => negb (is_reset c)) cs = true ->
  exec self cs = Some s' ->
  id < next_id self ->
  Dict.get (tracked_objects self) id = None ->
  Dict.get (tracked_objects s') id = None /\ id < next_id s'.
Proof.
  intros self cs. revert self.
  induction cs as [|c cs IH]; intros self s' id Hwf Hnr; simpl.
  - intros [= <-]. auto.
  - simpl in Hnr. apply andb_true_iff in Hnr. destruct Hnr as [Hc Hnr].
    destruct (exec_call self c) as [s|] eqn:Hx; [|discriminate].
    intros He Hlt Hg.
    destruct c as [dets fr| |m]; simpl in Hx, Hc.
    + destruct (update self dets fr) as [[s0 r]|] eqn:Hu; [|discriminate].
      injection Hx as <-.
      destruct (update_wf _ _ _ _ _ Hwf Hu) as [Hwf' Hn].
      apply (IH s0 s' id Hwf' Hnr He); [lia|].
      exact (gone_update id self dets fr s0 r Hwf Hlt Hg Hu).
    + discriminate.
    + injection Hx as <-.
      apply (IH (set_mode self m) s' id Hwf Hnr He); assumption.
Qed.

Lemma evicted_ids_are_never_reused_witness :
  wf (busy_tracker Lane_Counter) /\
  exists s',
    exec (busy_tracker Lane_Counter)
      [call_update sample_detections vga;
       call_update [person 400 200 440 300] vga] = Some s' /\
    Dict.get (tracked_objects s') 4 = None /\
    Dict.keys (tracked_objects s') = [3; 6; 7].
Proof.
  assert (Hwf : wf (busy_tracker Lane_Counter)).
  { split; simpl.
    - repeat constructor; simpl; intuition lia.
    - repeat constructor; lia. }
  split; [exact Hwf|].
  destruct (exec (busy_tracker Lane_Counter)
              [call_update sample_detections vga;
               call_update [person 400 200 440 300] vga])
    as [s'|] eqn:He; [|vm_compute in He; discriminate].
  exists s'. split; [reflexivity|]. split.
  - apply (evicted_ids_are_never_reused
             (busy_tracker Lane_Counter)
             [call_update sample_detections vga;
              call_update [person 400 200 440 300] vga] s' 4 Hwf
             eq_refl He); [simpl; lia|reflexivity].
  - vm_compute in He. injection He as <-. reflexivity.
Defined.

(** X (marks): between resets the marks of a track are never cleared: if
    a track is counted_in (counted_out) and its id is still in the
    dictionary after further updates and mode changes, it is still
    counted_in (counted_out) there. *)
Theorem marks_are_kept_until_reset : forall self cs s' id t t',
  wf self ->
  forallb (fun c => negb (is_reset c)) cs = true ->
  exec self cs = Some s' ->
  Dict.get (tracked_objects self) id = Some t ->
  Dict.get (tracked_objects s') id = Some t' ->
  (counted_in t = true -> counted_in t' = true) /\
  (counted_out t = true -> counted_out t' = true).
Proof.
  intros self cs s' id t t' Hwf Hnr He Hg Hg'.
  assert (Hlt : id < next_id self).
  { destruct Hwf as [_ Hlt]. rewrite Forall_forall in Hlt. apply Hlt.
    apply DictFacts.get_In in Hg. eapply DictFacts.In_keys; eauto. }
  split; intros Hm.
  - assert (Hsp : spent entering id self).
    { split; [exact Hlt|]. intros t0 H0. simpl. congruence. }
    destruct (spent_exec entering id cs self s' Hwf Hsp Hnr He) as [_ H].
    exact (H _ Hg').
  - assert (Hsp : spent exiting id self).
    { split; [exact Hlt|]. intros t0 H0. simpl. congruence. }
    destruct (spent_exec exiting id cs self s' Hwf Hsp Hnr He) as [_ H].
    exact (H _ Hg').
Qed.

Lemma marks_are_kept_until_reset_witness :
  wf (busy_tracker Lane_Counter) /\
  exists s' t',
    exec (busy_tracker Lane_Counter)
      [call_update sample_detections vga; call_set_mode Eagle_Eye;
       call_update [person 100 90 120 130] vga] = Some s' /\
    Dict.get (tracked_objects s') 3 = Some t' /\
    counted_in t' = true.
Proof.
  assert (Hwf : wf (busy_tracker Lane_Counter)).
  { split; simpl.
    - repeat constructor; simpl; intuition lia.
    - repeat constructor; lia. }
  split; [exact Hwf|].
  destruct (exec (busy_tracker Lane_Counter)
              [call_update sample_detections vga; call_set_mode Eagle_Eye;
               call_update [person 100 90 120 130] vga])
    as [s'|] eqn:He; [|vm_compute in He; discriminate].
  destruct (Dict.get (tracked_objects s') 3) as [t'|] eqn:Hg;
    [|vm_compute in He; injection He as <-; discriminate].
  exists s', t'. split; [reflexivity|]. split; [exact Hg|].
  apply (marks_are_kept_until_reset
           (busy_tracker Lane_Counter)
           [call_update sample_detections vga; call_set_mode Eagle_Eye;
            call_update [person 100 90 120 130] vga] s' 3
           (sample_track (90, 80, 110, 120) true false 50) t'
           Hwf eq_refl He eq_refl Hg).
  reflexivity.
Defined.

(** ** Following one person *)

Lemma persons_person_at b :
  current_persons_detections [person_at b] = [person_at b].
Proof. destruct b as [[[x1 y1] x2] y2]. reflexivity. Qed.

Lemma remove_stale_fresh s k t :
  tracked_objects s = [(k, t)] ->
  last_frame_id t = frame_id s ->
  0 <= stale_frame_threshold s ->
  tracked_objects (remove_stale s) = [(k, t)].
Proof.
  intros Ho Hl Hthr. unfold remove_stale, stale_ids. simpl tracked_objects.
  rewrite Ho. simpl filter. unfold is_stale. simpl snd. rewrite Hl.
  rewrite Z.sub_diag.
  destruct (Z.ltb_spec (stale_frame_threshold s) 0) as [H|_]; [lia|].
  reflexivity.
Qed.

(** The state left by a call whose association loop ended with the single
    track [(0, t)] seen on this frame. *)
Lemma count_solo s2 persons s' n t b :
  tracked_objects s2 = [(0, t)] ->
  status t = "active"%string -> centroid t = _get_centroid b ->
  bbox t = b -> last_frame_id t = frame_id s2 ->
  next_id s2 = 1 -> max_dist_sq s2 = 5000 ->
  0 <= stale_frame_threshold s2 ->
  count (remove_stale s2) persons = Some (s', n) ->
  solo b s'.
Proof.
  intros Ho Hs Hc Hb Hl Hn Hd Hthr Hcnt.
  pose proof (remove_stale_fresh _ _ _ Ho Hl Hthr) as Ho3.
  apply count_cases in Hcnt.
  destruct Hcnt as [(_ & -> & _)|[(_ & ln & _ & -> & _)|(_ & _ & -> & _)]].
  - exact (ex_intro _ t
             (conj Ho3 (conj Hs (conj Hc (conj Hb (conj Hl
                (conj Hn (conj Hd Hthr)))))))).
  - exists (counted_track ln t). split.
    + cbn [tracked_objects with_counts]. rewrite Ho3. reflexivity.
    + rewrite counted_track_eq.
      exact (conj Hs (conj Hc (conj Hb (conj Hl (conj Hn (conj Hd Hthr)))))).
  - exact (ex_intro _ t
             (conj Ho3 (conj Hs (conj Hc (conj Hb (conj Hl
                (conj Hn (conj Hd Hthr)))))))).
Qed.

Lemma solo_first m b fr s' r :
  update (init m) [person_at b] fr = Some (s', r) -> solo b s'.
Proof.
  intros Hu.
  destruct (update_phases _ _ _ _ _ Hu)
    as (s1 & s2 & upd & n & Hi & Ha & _ & Hc & _).
  pose proof (init_thresholds_keeps _ _ _ Hi)
    as (Ho1 & Hn1 & _ & _ & _ & Hf1 & Hd1 & Hst1).
  simpl in Ho1, Hn1, Hf1, Hd1, Hst1.
  rewrite persons_person_at in Ha, Hc.
  unfold associate in Ha. cbn [fold_left] in Ha.
  destruct (associate_one_cases s1 [] (person_at b))
    as [(l1 & id & t & l2 & Hs & _)|[_ Heq]].
  - rewrite Ho1 in Hs. destruct l1; discriminate.
  - rewrite Heq in Ha. injection Ha as <- _.
    rewrite Ho1, Hn1, det_box_person_at in Hc.
    refine (count_solo _ _ _ _
              (new_track b (_get_centroid b) (frame_id s1)) b
              _ _ _ _ _ _ _ _ Hc); simpl; try reflexivity; try assumption;
      lia.
Qed.

Lemma solo_step b s b' fr s' r :
  solo b s ->
  _distance_sq (_get_centroid b') (_get_centroid b) < 5000 ->
  update s [person_at b'] fr = Some (s', r) ->
  solo b' s'.
Proof.
  intros (t & Ho & Hs & Hc & Hb & Hl & Hn & Hd & Hthr) Hnear Hu.
  destruct (update_phases _ _ _ _ _ Hu)
    as (s1 & s2 & upd & n & Hi & Ha & _ & Hcnt & _).
  pose proof (init_thresholds_keeps _ _ _ Hi)
    as (Ho1 & Hn1 & _ & _ & _ & Hf1 & Hd1 & Hst1).
  simpl in Ho1, Hn1, Hf1, Hd1, Hst1.
  rewrite persons_person_at in Ha, Hcnt.
  unfold associate in Ha. cbn [fold_left] in Ha.
  destruct (associate_one_cases s1 [] (person_at b'))
    as [(l1 & id & t0 & l2 & Hsp & _ & _ & _ & Heq)|[Hno _]].
  - rewrite Ho1, Ho in Hsp.
    destruct l1 as [|e l1]; [|destruct l1; discriminate].
    injection Hsp as <- <- <-.
    rewrite Heq in Ha. injection Ha as <- _.
    rewrite Ho1, Ho, det_box_person_at in Hcnt.
    refine (count_solo _ _ _ _
              (touch b' (_get_centroid b') (frame_id s1) t) b'
              _ _ _ _ _ _ _ _ Hcnt); simpl; rewrite ?Z.eqb_refl;
      try reflexivity; try assumption; lia.
  - exfalso. rewrite Ho1, Ho in Hno.
    specialize (Hno 0 t (or_introl eq_refl)).
    unfold candidate in Hno.
    rewrite Hs, Hd1, Hd, Hc, det_box_person_at in Hno. simpl in Hno.
    apply Z.ltb_ge in Hno. lia.
Qed.

Lemma last_cons (l : list box) : forall x d, last (x :: l) d = last l x.
Proof.
  induction l as [|a l IH]; intros x d; [reflexivity|].
  change (last (x :: a :: l) d) with (last (a :: l) d).
  now rewrite (IH a d), (IH a x).
Qed.

Lemma solo_walk steps : forall b s s',
  solo b s ->
  near_chain 5000 (_get_centroid b) (map fst steps) ->
  exec s (walk steps) = Some s' ->
  solo (last (map fst steps) b) s'.
Proof.
  induction steps as [|[b' fr] steps IH]; intros b s s' Hsolo Hch.
  - simpl. now intros [= <-].
  - destruct Hch as [Hnear Hch].
    cbn [walk map exec exec_call fst snd].
    destruct (update s [person_at b'] fr) as [[s1 r]|] eqn:Hu;
      [|discriminate].
    simpl option_map. intros He.
    pose proof (solo_step _ _ _ _ _ _ Hsolo Hnear Hu) as H1.
    specialize (IH b' s1 s' H1 Hch He).
    change (map fst ((b', fr) :: steps)) with (b' :: map fst steps).
    rewrite last_cons. exact IH.
Qed.

(** X (continuity): a new tracker that is shown one person per frame,
    whose centroid moves by a squared distance below 5000 from each frame
    to the next, keeps that person under id 0 throughout: after the last
    frame the dictionary holds exactly the track 0, with the last box,
    seen on the current frame, and no second id was ever handed out. This
    holds in every mode and for frames of any size. *)
Theorem one_person_moving_within_the_gate_keeps_id_0 :
  forall m b0 fr0 steps s',
    near_chain 5000 (_get_centroid b0) (map fst steps) ->
    exec (init m) (walk ((b0, fr0) :: steps)) = Some s' ->
    exists t,
      tracked_objects s' = [(0, t)] /\
      bbox t = last (map fst steps) b0 /\
      last_frame_id t = frame_id s' /\
      next_id s' = 1.
Proof.
  intros m b0 fr0 steps s' Hch.
  cbn [walk map exec exec_call fst snd].
  destruct (update (init m) [person_at b0] fr0) as [[s1 r]|] eqn:Hu;
    [|discriminate].
  simpl option_map. intros He.
  pose proof (solo_first _ _ _ _ _ Hu) as H1.
  destruct (solo_walk steps b0 s1 s' H1 Hch He)
    as (t & Ho & _ & _ & Hb & Hl & Hn & _).
  exists t. auto.
Qed.

Lemma one_person_moving_within_the_gate_keeps_id_0_witness :
  near_chain 5000 (_get_centroid (90, 80, 110, 120))
    [(100, 80, 120, 120); (150, 100, 170, 140); (200, 130, 220, 170)] /\
  exists s' t,
    exec (init Lane_Counter)
      (walk [((90, 80, 110, 120), vga); ((100, 80, 120, 120), vga);
             ((150, 100, 170, 140), vga); ((200, 130, 220, 170), vga)])
    = Some s' /\
    tracked_objects s' = [(0, t)] /\ bbox t = (200, 130, 220, 170).
Proof.
  assert (Hch : near_chain 5000 (_get_centroid (90, 80, 110, 120))
            (map fst [((100, 80, 120, 120), vga);
                      ((150, 100, 170, 140), vga);
                      ((200, 130, 220, 170), vga)])).
  { simpl. unfold _distance_sq. simpl. lia. }
  split; [exact Hch|].
  destruct (exec (init Lane_Counter)
      (walk [((90, 80, 110, 120), vga); ((100, 80, 120, 120), vga);
             ((150, 100, 170, 140), vga); ((200, 130, 220, 170), vga)]))
    as [s'|] eqn:He; [|vm_compute in He; discriminate].
  destruct (one_person_moving_within_the_gate_keeps_id_0
              Lane_Counter (90, 80, 110, 120) vga
              [((100, 80, 120, 120), vga); ((150, 100, 170, 140), vga);
               ((200, 130, 220, 170), vga)] s' Hch He)
    as (t & Ho & Hb & _).
  exists s', t. split; [reflexivity|]. split; [exact Ho|exact Hb].
Defined.

(** ** The two lines on frames of ordinary height *)

Lemma heights_In n : forall h, 0 <= h < Z.of_nat n -> In h (heights n).
Proof.
  induction n as [|n IH]; intros h Hh; [lia|].
  cbn [heights]. destruct (Z.eq_dec h (Z.of_nat n)) as [->|Hne].
  - now left.
  - right. apply IH. lia.
Qed.

Lemma lines_agree_checked :
  forallb lines_agree (heights (Z.to_nat 8192)) = true.
Proof. vm_compute. reflexivity. Qed.

Lemma lines_agree_below h :
  0 <= h < 8192 ->
  entry_line h = Some (9 * h / 10) /\ exit_line h = Some (h / 10).
Proof.
  intros Hh.
  pose proof lines_agree_checked as Hc. rewrite forallb_forall in Hc.
  specialize (Hc h (heights_In (Z.to_nat 8192) h Hh)).
  unfold lines_agree in Hc.
  destruct (entry_line h) as [en|]; [|discriminate].
  destruct (exit_line h) as [ex|]; [|discriminate].
  apply andb_true_iff in Hc. destruct Hc as [He Hx].
  apply Z.eqb_eq in He. apply Z.eqb_eq in Hx. now subst.
Qed.

(** X (lines): for every frame height from 0 to 8191 the binary64
    computations int(h * 0.9) and int(h * 0.1) return, and give exactly
    the integer quotients 9h // 10 and h // 10; so the exit line is not
    below 0, the entry line is not above the frame height, and the exit
    line is not below the entry line. *)
Theorem lines_are_integer_quotients_below_8192 : forall h,
  0 <= h < 8192 ->
  entry_line h = Some (9 * h / 10) /\
  exit_line h = Some (h / 10) /\
  0 <= h / 10 <= 9 * h / 10 /\ 9 * h / 10 <= h.
Proof.
  intros h Hh. destruct (lines_agree_below h Hh) as [He Hx].
  split; [exact He|]. split; [exact Hx|].
  pose proof (Z.div_pos h 10).
  pose proof (Z.div_le_mono h (9 * h) 10).
  pose proof (Z.div_le_upper_bound (9 * h) 10 h).
  lia.
Qed.

Lemma lines_are_integer_quotients_below_8192_witness :
  0 <= 1080 < 8192 /\
  entry_line 1080 = Some 972 /\ exit_line 1080 = Some 108.
Proof.
  split; [lia|].
  destruct (lines_are_integer_quotients_below_8192 1080) as (He & Hx & _);
    [lia|].
  split; [exact He|exact Hx].
Defined.

(** ** Frames without a person *)

(** X (empty frame): a call to [update] on a frame with no 'person'
    detection hands out no id and touches no track: a track of the
    dictionary is dropped when the new frame counter exceeds its
    last_frame_id by more than stale_frame_threshold, and otherwise stays
    with its bbox, centroid and last_frame_id; nothing else is in the
    dictionary afterwards. *)
Theorem frame_without_persons_only_ages_tracks :
  forall self dets fr s' r,
    wf self ->
    current_persons_detections dets = [] ->
    update self dets fr = Some (s', r) ->
    next_id s' = next_id self /\
    forall k,
      match Dict.get (tracked_objects self) k with
      | Some t =>
          if stale_frame_threshold self <?
             frame_id self + 1 - last_frame_id t
          then Dict.get (tracked_objects s') k = None
          else exists t',
              Dict.get (tracked_objects s') k = Some t' /\
              bbox t' = bbox t /\ centroid t' = centroid t /\
              last_frame_id t' = last_frame_id t
      | None => Dict.get (tracked_objects s') k = None
      end.
Proof.
  intros self dets fr s' r Hwf Hp Hu.
  destruct (update_phases _ _ _ _ _ Hu)
    as (s1 & s2 & upd & n & Hi & Ha & _ & Hc & _).
  rewrite Hp in Ha, Hc. unfold associate in Ha. simpl in Ha.
  injection Ha as <- _.
  pose proof (init_thresholds_keeps _ _ _ Hi)
    as (Ho1 & Hn1 & _ & _ & _ & Hf1 & _ & Hst1).
  simpl in Ho1, Hn1, Hf1, Hst1.
  pose proof (init_thresholds_wf _ _ _ Hi Hwf) as [Hnd1 _].
  pose proof (count_settings _ _ _ _ Hc)
    as (_ & _ & _ & _ & Hn4 & _).
  split; [simpl in Hn4; congruence|].
  intros k. pose proof (count_get _ _ _ _ Hc k) as Hcg.
  rewrite remove_stale_get in Hcg by exact Hnd1.
  rewrite Ho1 in Hcg.
  destruct (Dict.get (tracked_objects self) k) as [t|]; [|exact Hcg].
  unfold is_stale in Hcg. rewrite Hst1, Hf1 in Hcg.
  destruct (stale_frame_threshold self <?
            frame_id self + 1 - last_frame_id t); [exact Hcg|].
  destruct Hcg as (t' & Hg & Hb & Hce & _ & Hl & _).
  exists t'. auto.
Qed.

Lemma frame_without_persons_only_ages_tracks_witness :
  wf (busy_tracker Lane_Counter) /\
  current_persons_detections [(10, 10, 60, 40, "car"%string)] = [] /\
  exists s' r,
    update (busy_tracker Lane_Counter) [(10, 10, 60, 40, "car"%string)] vga
    = Some (s', r) /\
    next_id s' = 6 /\ Dict.get (tracked_objects s') 5 = None.
Proof.
  assert (Hwf : wf (busy_tracker Lane_Counter)).
  { split; simpl.
    - repeat constructor; simpl; intuition lia.
    - repeat constructor; lia. }
  split; [exact Hwf|]. split; [reflexivity|].
  destruct (update (busy_tracker Lane_Counter)
              [(10, 10, 60, 40, "car"%string)] vga)
    as [[s' r]|] eqn:Hu; [|vm_compute in Hu; discriminate].
  exists s', r. split; [reflexivity|].
  destruct (frame_without_persons_only_ages_tracks
              (busy_tracker Lane_Counter)
              [(10, 10, 60, 40, "car"%string)] vga s' r Hwf eq_refl Hu)
    as [Hn Hk].
  split; [exact Hn|]. exact (Hk 5).
Defined.

(** ** One event per track and frame *)

Lemma events_exclusive ln (objs : Dict.t track) :
  events (crossing_in ln) objs + events (crossing_out ln) objs
  <= Z.of_nat (List.length objs).
Proof.
  induction objs as [|[k t] objs IH]; [unfold events; simpl; lia|].
  rewrite !events_cons. cbn [List.length].
  unfold crossing_in at 1, crossing_out at 1.
  destruct (fst (centroid t) <? split_x ln); simpl bump;
    destruct (entry_y ln <? box_y2 (bbox t));
    destruct (box_y1 (bbox t) <? exit_y ln);
    destruct (counted_in t); destruct (counted_out t); simpl bump; lia.
Qed.

(** X (one event): in 'Lane Counter' mode a call to [update] counts a
    track at most once, as an entry or as an exit but not both: the sum of
    the increases of in_count and out_count is at most the number of
    tracks in the dictionary after the call. *)
Theorem one_crossing_event_per_track_and_frame :
  forall self dets fr s' r,
    mode self = Lane_Counter ->
    update self dets fr = Some (s', r) ->
    0 <= in_count s' - in_count self /\
    0 <= out_count s' - out_count self /\
    (in_count s' - in_count self) + (out_count s' - out_count self)
    <= Z.of_nat (List.length (tracked_objects s')).
Proof.
  intros self dets fr s' r Hm Hu.
  destruct (update_lane_counter _ _ _ _ _ Hm Hu)
    as (_ & _ & _ & ln & sa & upd & _ & _ & _ & Hobjs & Hic & Hoc & _).
  pose proof (events_exclusive ln (tracked_objects (remove_stale sa))) as He.
  pose proof (events_nonneg (crossing_in ln)
                (tracked_objects (remove_stale sa))).
  pose proof (events_nonneg (crossing_out ln)
                (tracked_objects (remove_stale sa))).
  rewrite Hobjs, length_map. lia.
Qed.

Lemma one_crossing_event_per_track_and_frame_witness :
  mode (init Lane_Counter) = Lane_Counter /\
  exists s',
    update (init Lane_Counter)
      [person 400 10 440 100; person 90 400 110 440] vga =
    Some (s', (1, 1, 0)) /\
    (in_count s' - 0) + (out_count s' - 0)
    <= Z.of_nat (List.length (tracked_objects s')).
Proof.
  split; [reflexivity|].
  destruct (update (init Lane_Counter)
              [person 400 10 440 100; person 90 400 110 440] vga)
    as [[s' r]|] eqn:Hu; [|vm_compute in Hu; discriminate].
  destruct (one_crossing_event_per_track_and_frame
              (init Lane_Counter) _ _ s' r eq_refl Hu) as (_ & _ & H).
  exists s'. split; [|exact H].
  vm_compute in Hu. injection Hu as <- <-. reflexivity.
Defined.

(** * Properties of the alert manager *)

Section AlertFacts.

Variable strip : string -> string.
Variable lower : string -> string.

Lemma send_email_cases self now ok subj bd :
  (Alert.float_lt_int (Alert.fsub now (Alert.last_sent self))
     (Alert.cooldown self) = true /\
   Alert.send_email strip self now ok subj bd = (self, false, None))
  \/
  (Alert.float_lt_int (Alert.fsub now (Alert.last_sent self))
     (Alert.cooldown self) = false /\
   exists m,
     Alert.send_email strip self now ok subj bd =
     (Alert.with_last_sent self now, ok, Some m) /\
     Alert.subject m = subj).
Proof.
  unfold Alert.send_email.
  destruct (Alert.float_lt_int _ _); [left|right]; split; try reflexivity.
  eexists. split; reflexivity.
Qed.

Lemma scan_labels_present items dets : forall acc,
  snd (Alert.scan_labels lower items dets acc) =
  snd acc || existsb (fun d => Alert.mem (lower (label_of d)) items) dets.
Proof.
  induction dets as [|d dets IH]; intros acc; simpl.
  - now rewrite orb_false_r.
  - destruct (Alert.mem (lower (label_of d)) items); rewrite IH; simpl.
    + now rewrite orb_true_r.
    + reflexivity.
Qed.

(** What one call does to the manager and to the SMTP server. *)
Lemma alert_step_spec self c s' res att :
  Alert.alert_step strip lower self c = (s', res, att) ->
  Alert.cooldown s' = Alert.cooldown self /\
  Alert.capacity s' = Alert.capacity self /\
  match att with
  | Some _ =>
      Alert.float_lt_int
        (Alert.fsub (Alert.call_time c) (Alert.last_sent self))
        (Alert.cooldown self) = false /\
      Alert.last_sent s' = Alert.call_time c
  | None => Alert.last_sent s' = Alert.last_sent self
  end.
Proof.
  destruct c as [now ok n|now ok dets items]; simpl.
  - unfold Alert.handle_capacity, Alert.check_capacity.
    destruct (Alert.capacity self <? n).
    + destruct (Alert.alert_active self); simpl.
      * intros [= <- <- <-]. auto.
      * match goal with
        | |- context [Alert.send_email strip self now ok ?s ?b] =>
            destruct (send_email_cases self now ok s b)
              as [[Hc ->]|[Hc (m & -> & _)]]
        end.
        -- intros [= <- <- <-]. auto.
        -- intros [= <- <- <-]. destruct ok; simpl; auto.
    + intros [= <- <- <-]. auto.
  - unfold Alert.handle_restricted.
    destruct (Alert.scan_labels lower items dets ([], false))
      as [found present].
    destruct present.
    + destruct (Alert.restricted_alert_active self); simpl.
      * intros [= <- <- <-]. auto.
      * match goal with
        | |- context [Alert.send_email strip self now ok ?s ?b] =>
            destruct (send_email_cases self now ok s b)
              as [[Hc ->]|[Hc (m & -> & _)]]
        end.
        -- intros [= <- <- <-]. auto.
        -- intros [= <- <- <-]. destruct ok; simpl; auto.
    + intros [= <- <- <-]. auto.
Qed.

Lemma attempts_spaced cs : forall self,
  Alert.spaced (Alert.cooldown self) (Alert.last_sent self)
    (map fst (Alert.attempts strip lower self cs)).
Proof.
  induction cs as [|c cs IH]; intros self; simpl; [exact I|].
  destruct (Alert.alert_step strip lower self c) as [[s' res] att] eqn:Hs.
  destruct (alert_step_spec _ _ _ _ _ Hs) as (Hcd & _ & Ha).
  specialize (IH s'). rewrite Hcd in IH.
  destruct att as [m|].
  - destruct Ha as [Hc Hl]. simpl. split; [exact Hc|].
    now rewrite <- Hl.
  - now rewrite <- Ha.
Qed.

End AlertFacts.

(** X (cooldown): over any sequence of capacity and restricted checks,
    with any clock readings and SMTP outcomes, the SMTP server is
    contacted only at a reading that is not within the cooldown of the
    previous contact (or of the initial last_sent), whether that contact
    succeeded or failed and whichever of the two alerts it was for. *)
Theorem smtp_contacts_are_spaced_by_the_cooldown :
  forall strip lower self cs,
    Alert.spaced (Alert.cooldown self) (Alert.last_sent self)
      (map fst (Alert.attempts strip lower self cs)).
Proof. intros strip lower self cs. apply attempts_spaced. Qed.

Section AlertEpisodes.

Variable strip : string -> string.
Variable lower : string -> string.

Lemma removelast_cons_Forall (P : spec_float * bool -> Prop) a l :
  (l <> [] -> P a) -> Forall P (removelast l) ->
  Forall P (removelast (a :: l)).
Proof.
  intros Ha Hl. destruct l as [|b l]; [constructor|].
  change (removelast (a :: b :: l)) with (a :: removelast (b :: l)).
  constructor; [apply Ha; discriminate|exact Hl].
Qed.

Lemma successes_at_most_one (l : list (spec_float * bool)) :
  Forall (fun a => snd a = false) (removelast l) ->
  (List.length (filter snd l) <= 1)%nat.
Proof.
  induction l as [|a l IH]; intros H; [simpl; lia|].
  destruct l as [|b l].
  - simpl. destruct (snd a); simpl; lia.
  - change (removelast (a :: b :: l)) with (a :: removelast (b :: l)) in H.
    inversion H as [|? ? Ha Hl]; subst.
    cbn [filter]. rewrite Ha. apply IH. exact Hl.
Qed.

Lemma capacity_episode cs : forall self,
  forallb (Alert.over_capacity (Alert.capacity self)) cs = true ->
  Forall (fun a => snd a = false)
    (removelast (Alert.attempts strip lower self cs)) /\
  (Alert.alert_active self = true ->
   Alert.attempts strip lower self cs = [] /\
   Alert.after_calls strip lower self cs = self).
Proof.
  induction cs as [|c cs IH]; intros self Hall.
  - simpl. split; [constructor|auto].
  - cbn [forallb] in Hall. apply andb_true_iff in Hall.
    destruct Hall as [Hc Hall].
    destruct c as [now ok n|now ok dets items]; [|discriminate].
    cbn [Alert.over_capacity] in Hc.
    cbn [Alert.attempts Alert.after_calls Alert.alert_step
         Alert.call_time Alert.call_ok].
    unfold Alert.handle_capacity, Alert.check_capacity. rewrite Hc.
    destruct (Alert.alert_active self) eqn:Hact; cbn [negb].
    + cbn [fst]. destruct (IH self Hall) as [H1 H2].
      split; [exact H1|]. intros _. apply H2. exact Hact.
    + match goal with
      | |- context [Alert.send_email strip self now ok ?s ?b] =>
          destruct (send_email_cases strip self now ok s b)
            as [[_ ->]|[_ (m & -> & _)]]
      end.
      * cbn [fst]. destruct (IH self Hall) as [H1 _].
        split; [exact H1|discriminate].
      * split; [|discriminate].
        destruct ok.
        -- destruct (IH (Alert.with_alert_active
                           (Alert.with_last_sent self now) true) Hall)
             as [_ H2].
           destruct (H2 eq_refl) as [-> _]. constructor.
        -- destruct (IH (Alert.with_last_sent self now) Hall) as [H1 _].
           apply removelast_cons_Forall; [reflexivity|exact H1].
Qed.

Lemma restricted_episode cs : forall self,
  forallb (Alert.restricted_seen lower) cs = true ->
  Forall (fun a => snd a = false)
    (removelast (Alert.attempts strip lower self cs)) /\
  (Alert.restricted_alert_active self = true ->
   Alert.attempts strip lower self cs = [] /\
   Alert.after_calls strip lower self cs = self).
Proof.
  induction cs as [|c cs IH]; intros self Hall.
  - simpl. split; [constructor|auto].
  - cbn [forallb] in Hall. apply andb_true_iff in Hall.
    destruct Hall as [Hc Hall].
    destruct c as [now ok n|now ok dets items]; [discriminate|].
    cbn [Alert.restricted_seen] in Hc.
    cbn [Alert.attempts Alert.after_calls Alert.alert_step
         Alert.call_time Alert.call_ok].
    unfold Alert.handle_restricted.
    pose proof (scan_labels_present lower items dets ([], false)) as Hp.
    destruct (Alert.scan_labels lower items dets ([], false))
      as [found present].
    simpl in Hp. rewrite Hc in Hp. subst present.
    destruct (Alert.restricted_alert_active self) eqn:Hact; cbn [negb].
    + cbn [fst]. destruct (IH self Hall) as [H1 H2].
      split; [exact H1|]. intros _. apply H2. exact Hact.
    + match goal with
      | |- context [Alert.send_email strip self now ok ?s ?b] =>
          destruct (send_email_cases strip self now ok s b)
            as [[_ ->]|[_ (m & -> & _)]]
      end.
      * cbn [fst]. destruct (IH self Hall) as [H1 _].
        split; [exact H1|discriminate].
      * split; [|discriminate].
        destruct ok.
        -- destruct (IH (Alert.with_restricted_alert_active
                           (Alert.with_last_sent self now) true) Hall)
             as [_ H2].
           destruct (H2 eq_refl) as [-> _]. constructor.
        -- destruct (IH (Alert.with_last_sent self now) Hall) as [H1 _].
           apply removelast_cons_Forall; [reflexivity|exact H1].
Qed.

End AlertEpisodes.

(** X (capacity episode): while the count stays above the capacity, over
    any sequence of capacity checks with any clock readings and SMTP
    outcomes, at most one email is sent successfully and it is the last
    contact of the SMTP server: every earlier contact failed, and once
    alert_active is set the checks neither contact the server nor change
    the manager. *)
Theorem one_successful_email_per_capacity_episode :
  forall strip lower self cs,
    forallb (Alert.over_capacity (Alert.capacity self)) cs = true ->
    Forall (fun a => snd a = false)
      (removelast (Alert.attempts strip lower self cs)) /\
    (List.length (filter snd (Alert.attempts strip lower self cs)) <= 1)%nat /\
    (Alert.alert_active self = true ->
     Alert.attempts strip lower self cs = [] /\
     Alert.after_calls strip lower self cs = self).
Proof.
  intros strip lower self cs H.
  destruct (capacity_episode strip lower cs self H) as [H1 H2].
  split; [exact H1|]. split; [|exact H2].
  now apply successes_at_most_one.
Qed.

Lemma one_successful_email_per_capacity_episode_witness :
  forallb (Alert.over_capacity (Alert.capacity (Alert.init 10 10)))
    Alert.sample_calls = true /\
  map snd (Alert.attempts Alert.ascii_strip Alert.ascii_lower
             (Alert.init 10 10) Alert.sample_calls) = [false; true] /\
  (List.length
     (filter snd (Alert.attempts Alert.ascii_strip Alert.ascii_lower
                    (Alert.init 10 10) Alert.sample_calls)) <= 1)%nat.
Proof.
  split; [reflexivity|]. split; [vm_compute; reflexivity|].
  apply (one_successful_email_per_capacity_episode
           Alert.ascii_strip Alert.ascii_lower (Alert.init 10 10)
           Alert.sample_calls).
  reflexivity.
Defined.

(** X (restricted episode): while every frame shows a restricted label,
    over any sequence of restricted checks at most one email is sent
    successfully and it is the last contact of the SMTP server; once
    restricted_alert_active is set the checks neither contact the server
    nor change the manager. *)
Theorem one_successful_email_per_restricted_episode :
  forall strip lower self cs,
    forallb (Alert.restricted_seen lower) cs = true ->
    Forall (fun a => snd a = false)
      (removelast (Alert.attempts strip lower self cs)) /\
    (List.length (filter snd (Alert.attempts strip lower self cs)) <= 1)%nat /\
    (Alert.restricted_alert_active self = true ->
     Alert.attempts strip lower self cs = [] /\
     Alert.after_calls strip lower self cs = self).
Proof.
  intros strip lower self cs H.
  destruct (restricted_episode strip lower cs self H) as [H1 H2].
  split; [exact H1|]. split; [|exact H2].
  now apply successes_at_most_one.
Qed.

Lemma one_successful_email_per_restricted_episode_witness :
  forallb (Alert.restricted_seen Alert.ascii_lower)
    Alert.sample_restricted_calls = true /\
  map snd (Alert.attempts Alert.ascii_strip Alert.ascii_lower
             (Alert.init 10 10) Alert.sample_restricted_calls) = [true] /\
  (List.length
     (filter snd (Alert.attempts Alert.ascii_strip Alert.ascii_lower
                    (Alert.init 10 10) Alert.sample_restricted_calls))
   <= 1)%nat.
Proof.
  split; [reflexivity|]. split; [vm_compute; reflexivity|].
  apply (one_successful_email_per_restricted_episode
           Alert.ascii_strip Alert.ascii_lower (Alert.init 10 10)
           Alert.sample_restricted_calls).
  reflexivity.
Defined.

(** ** The restricted labels of a frame *)

Section AlertLabels.

Variable strip : string -> string.
Variable lower : string -> string.

Lemma mem_In x l : Alert.mem x l = true <-> In x l.
Proof.
  unfold Alert.mem. rewrite existsb_exists. split.
  - intros (y & Hy & He). apply String.eqb_eq in He. now subst.
  - intros H. exists x. split; [exact H|apply String.eqb_refl].
Qed.

Lemma scan_labels_found items dets : forall acc,
  NoDup (fst acc) ->
  NoDup (fst (Alert.scan_labels lower items dets acc)) /\
  forall l,
    In l (fst (Alert.scan_labels lower items dets acc)) <->
    In l (fst acc) \/
    exists d, In d dets /\ label_of d = l /\
              Alert.mem (lower l) items = true.
Proof.
  induction dets as [|d dets IH]; intros acc Hnd; simpl.
  - split; [exact Hnd|]. intros l. split; [auto|].
    intros [H|(d & [] & _)]. exact H.
  - destruct (Alert.mem (lower (label_of d)) items) eqn:Hm.
    + destruct (Alert.mem (label_of d) (fst acc)) eqn:Hf.
      * destruct (IH (fst acc, true) Hnd) as [H1 H2].
        split; [exact H1|]. intros l. rewrite H2. simpl.
        split.
        -- intros [H|(d0 & Hd0 & Hl & Hk)]; [now left|].
           right. exists d0. auto.
        -- intros [H|(d0 & [<-|Hd0] & Hl & Hk)]; [now left| |].
           ++ left. subst l. now apply mem_In.
           ++ right. exists d0. auto.
      * assert (Hnd' : NoDup (fst acc ++ [label_of d])).
        { apply NoDup_app; [exact Hnd|repeat constructor; intros []|].
          intros x Hx [<-|[]].
          apply mem_In in Hx. congruence. }
        destruct (IH (fst acc ++ [label_of d], true) Hnd') as [H1 H2].
        split; [exact H1|]. intros l. rewrite H2. simpl.
        rewrite in_app_iff. simpl. split.
        -- intros [[H|[<-|[]]]|(d0 & Hd0 & Hl & Hk)].
           ++ now left.
           ++ right. exists d. auto.
           ++ right. exists d0. auto.
        -- intros [H|(d0 & [<-|Hd0] & Hl & Hk)].
           ++ left. now left.
           ++ left. right. now left.
           ++ right. exists d0. auto.
    + destruct (IH acc Hnd) as [H1 H2].
      split; [exact H1|]. intros l. rewrite H2. split.
      * intros [H|(d0 & Hd0 & Hl & Hk)]; [now left|].
        right. exists d0. auto.
      * intros [H|(d0 & [<-|Hd0] & Hl & Hk)]; [now left| |].
        -- subst l. congruence.
        -- right. exists d0. auto.
Qed.

Lemma handle_restricted_returned self now ok dets items :
  snd (fst (Alert.handle_restricted strip lower self now ok dets items)) =
  existsb (fun d => Alert.mem (lower (label_of d)) items) dets.
Proof.
  unfold Alert.handle_restricted.
  pose proof (scan_labels_present lower items dets ([], false)) as Hp.
  destruct (Alert.scan_labels lower items dets ([], false))
    as [found present].
  simpl in Hp. rewrite <- Hp.
  destruct present; [|reflexivity].
  destruct (Alert.restricted_alert_active self); [reflexivity|]. cbn [negb].
  match goal with
  | |- context [Alert.send_email strip self now ok ?s ?b] =>
      destruct (send_email_cases strip self now ok s b)
        as [[_ ->]|[_ (m & -> & _)]]
  end; reflexivity.
Qed.

Lemma handle_capacity_returned self now ok n :
  snd (fst (Alert.handle_capacity strip self now ok n)) =
  (Alert.capacity self <? n).
Proof.
  unfold Alert.handle_capacity, Alert.check_capacity.
  destruct (Alert.capacity self <? n); [|reflexivity].
  destruct (Alert.alert_active self); [reflexivity|]. cbn [negb].
  match goal with
  | |- context [Alert.send_email strip self now ok ?s ?b] =>
      destruct (send_email_cases strip self now ok s b)
        as [[_ ->]|[_ (m & -> & _)]]
  end; reflexivity.
Qed.

End AlertLabels.

(** X (restricted labels): [handle_restricted] returns True exactly when
    some detection's lower-cased label is in the restricted list,
    whatever the manager state, the clock and the SMTP outcome; the labels
    it collects for the email are, without repetition, exactly the
    original labels of those detections; so the collection is empty only
    when nothing restricted is in the frame, and the fallback wording for
    an empty collection is never used in an alert. *)
Theorem restricted_check_collects_each_label_once :
  forall strip lower self now ok dets items,
    let found := fst (Alert.scan_labels lower items dets ([], false)) in
    let seen :=
      existsb (fun d => Alert.mem (lower (label_of d)) items) dets in
    snd (fst (Alert.handle_restricted strip lower self now ok dets items))
    = seen /\
    NoDup found /\
    (forall l, In l found <->
               exists d, In d dets /\ label_of d = l /\
                         Alert.mem (lower l) items = true) /\
    (found = [] <-> seen = false).
Proof.
  intros strip lower self now ok dets items found seen.
  destruct (scan_labels_found lower items dets ([], false))
    as [Hnd Hin]; [constructor|].
  assert (Hin' : forall l, In l found <->
            exists d, In d dets /\ label_of d = l /\
                      Alert.mem (lower l) items = true).
  { intros l. unfold found. rewrite Hin. simpl. tauto. }
  split; [apply handle_restricted_returned|].
  split; [exact Hnd|]. split; [exact Hin'|].
  unfold seen. split.
  - intros Hnil. destruct (existsb _ dets) eqn:He; [|reflexivity].
    apply existsb_exists in He. destruct He as (d & Hd & Hm).
    assert (Hl : In (label_of d) found) by (apply Hin'; eauto).
    rewrite Hnil in Hl. destruct Hl.
  - intros He. destruct found as [|l found'] eqn:Hf; [reflexivity|].
    exfalso. assert (Hl : In l (l :: found')) by now left.
    apply Hin' in Hl. destruct Hl as (d & Hd & <- & Hm).
    assert (Ht : existsb (fun d => Alert.mem (lower (label_of d)) items)
                   dets = true)
      by (apply existsb_exists; eauto).
    congruence.
Qed.

(** X (banner): the banner of the frame loop of app.py is
    'CAPACITY EXCEEDED!' exactly when [handle_capacity] returns True for
    this frame, 'UNAUTHORIZED ITEM DETECTED!' exactly when it returns
    False and [handle_restricted] returns True, and empty otherwise; so
    the banner below the feed and the warnings drawn on the frame always
    agree, whatever the state of the manager and the outcome of the
    emails. *)
Theorem banner_agrees_with_the_alert_checks :
  forall strip lower self1 self2 now1 ok1 now2 ok2 total items dets,
    Alert.alert_msg lower total (Alert.capacity self1) items dets =
    if snd (fst (Alert.handle_capacity strip self1 now1 ok1 total))
    then "CAPACITY EXCEEDED!"%string
    else if snd (fst (Alert.handle_restricted strip lower self2 now2 ok2
                        dets items))
         then "UNAUTHORIZED ITEM DETECTED!"%string
         else ""%string.
Proof.
  intros strip lower self1 self2 now1 ok1 now2 ok2 total items dets.
  rewrite handle_capacity_returned, handle_restricted_returned.
  unfold Alert.alert_msg.
  destruct (Alert.capacity self1 <? total); [reflexivity|].
  destruct items as [|i items]; [|reflexivity].
  simpl negb. cbn [andb].
  replace (existsb (fun d => Alert.mem (lower (label_of d)) []) dets)
    with false; [reflexivity|].
  induction dets as [|d dets IH]; [reflexivity|]. simpl. exact IH.
Qed.
